(** * SimPEG.Parallel: a shallow embedding of src/SimPEG/Parallel.py

  The development follows the layout of the Python module:
  - [Py]: the handful of Python values and the exception discipline the
    module relies on (a state-and-exception monad);
  - [Endpoint]: the per-worker namespace object;
  - [SystemSolver]: the scheduler, its work partitioner and the
    load-balanced view it submits to;
  - [RemoteInterface]: transport selection and the collectives. *)

From Stdlib Require Import ZArith QArith List Lia.
From Stdlib Require PrimFloat.
From stdpp Require Import gmap strings list fin_maps pretty.

Local Open Scope Z_scope.

(** ** Python values and exceptions *)

Module Py.

(** Exceptions that the modelled code can raise. [Unmodelled] is not one
    of them: it marks an operation that falls outside the fragment of
    Python and NumPy covered here. *)
Inductive exn : Type :=
  | KeyError (k : string)
  | NameError (k : string)
  | TypeError (msg : string)
  | AttributeError (k : string)
  | PlainException (msg : string)
  | PairError
  | Unmodelled (what : string).

(** Outcome of a statement: a value or a raised exception. *)
Inductive outcome (A : Type) : Type :=
  | Val (a : A)
  | Exc (e : exn).
Arguments Val {A} a.
Arguments Exc {A} e.

(** Mutating code is a function from the state before to an outcome and
    the state after; the state survives an exception. *)
Definition M (S A : Type) : Type := S -> outcome A * S.

Definition ret {S A} (a : A) : M S A := fun s => (Val a, s).
Definition raise {S A} (e : exn) : M S A := fun s => (Exc e, s).
Definition bind {S A B} (m : M S A) (k : A -> M S B) : M S B :=
  fun s => match m s with
           | (Val a, s') => k a s'
           | (Exc e, s') => (Exc e, s')
           end.
Definition get {S} : M S S := fun s => (Val s, s).
Definition put {S} (s : S) : M S unit := fun _ => (Val tt, s).
Definition modify {S} (f : S -> S) : M S unit := fun s => (Val tt, f s).

(** [d[k]] on a dictionary. *)
Definition getitem {S V} (what : string) (o : option V) : M S V :=
  match o with
  | Some v => ret v
  | None => raise (KeyError what)
  end.

(** [for x in xs: body x]. *)
Fixpoint for_ {S A} (xs : list A) (body : A -> M S unit) : M S unit :=
  match xs with
  | [] => ret tt
  | x :: xs' => bind (body x) (fun _ => for_ xs' body)
  end.

(** Hashable scalars that occur as dictionary keys and configuration
    values: [None], integers, strings and integer pairs (subproblem
    tags). *)
Inductive pyval : Type :=
  | PNone
  | PInt (n : Z)
  | PStr (s : string)
  | PPair (a b : Z).

Global Instance pyval_eq_dec : EqDecision pyval.
Proof. solve_decision. Defined.

Definition pyval_enc (v : pyval) : unit + (Z + (string + Z * Z)) :=
  match v with
  | PNone => inl tt
  | PInt n => inr (inl n)
  | PStr s => inr (inr (inl s))
  | PPair a b => inr (inr (inr (a, b)))
  end.

Definition pyval_dec (x : unit + (Z + (string + Z * Z))) : pyval :=
  match x with
  | inl _ => PNone
  | inr (inl n) => PInt n
  | inr (inr (inl s)) => PStr s
  | inr (inr (inr (a, b))) => PPair a b
  end.

Global Instance pyval_countable : Countable pyval.
Proof.
  apply (inj_countable' pyval_enc pyval_dec).
  intros []; reflexivity.
  Defined.

End Py.

Declare Scope py_scope.
Delimit Scope py_scope with py.
Notation "x <- m ;; k" := (Py.bind m (fun x => k))
  (at level 100, m at next level, right associativity) : py_scope.
Notation "m ;;; k" := (Py.bind m (fun _ => k))
  (at level 100, right associativity) : py_scope.

(** ** class Endpoint *)

Module Endpoint.
Import Py.
Local Open Scope py_scope.

(** A configuration value: a scalar, or the nested [geom] dictionary. *)
Inductive cfgval : Type :=
  | CVal (v : pyval)
  | CGeom (g : gmap string pyval).

Section WithObjects.
(** The opaque collaborators: field containers, surveys, subproblems
    and the subproblem's [pair] method (which may fail). *)
Context {Container Survey Problem : Type}.
Variable pair : Problem -> Survey -> option Problem.

Record t : Type := mk {
  problemFactory : gmap string cfgval -> Problem;
  surveyFactory : gmap string pyval -> Survey;
  localFields : gmap string Container;
  globalFields : gmap string Container;
  localProblems : gmap pyval Problem;
  localSurveys : gmap pyval Survey;
  fieldspec : option (gmap string (unit -> Container));
  baseSystemConfig : gmap string cfgval
}.

Definition set_localFields (f : gmap string Container) (e : t) : t :=
  mk (problemFactory e) (surveyFactory e) f (globalFields e)
     (localProblems e) (localSurveys e) (fieldspec e) (baseSystemConfig e).

Definition set_localSurveys (f : gmap pyval Survey) (e : t) : t :=
  mk (problemFactory e) (surveyFactory e) (localFields e) (globalFields e)
     (localProblems e) f (fieldspec e) (baseSystemConfig e).

Definition set_localProblems (f : gmap pyval Problem) (e : t) : t :=
  mk (problemFactory e) (surveyFactory e) (localFields e) (globalFields e)
     f (localSurveys e) (fieldspec e) (baseSystemConfig e).

(** Iterating over a dictionary yields its keys. *)
Definition keys {K V} `{Countable K} (m : gmap K V) : list K :=
  (map_to_list m).*1.

(** [whichfields or self.fieldspec]: [None] and the empty list are
    falsy. *)
Definition names_or (whichfields : option (list string))
    (fs : gmap string (unit -> Container)) : list string :=
  match whichfields with
  | None | Some [] => keys fs
  | Some l => l
  end.

(** The loop body [self.localFields[fn] = self.fieldspec[fn]()]. *)
Definition construct_field (fs : gmap string (unit -> Container))
    (fn : string) : M t unit :=
  ctor <- getitem fn (fs !! fn) ;;
  modify (fun e => set_localFields (<[fn := ctor tt]> (localFields e)) e).

Definition setupLocalFields (whichfields : option (list string)) : M t unit :=
  (match whichfields with
   | None => modify (set_localFields ∅)
   | Some _ => ret tt
   end) ;;;
  e <- get ;;
  match fieldspec e with
  | Some fs => for_ (names_or whichfields fs) (construct_field fs)
  | None => ret tt
  end.

(** The geometry copy [self.baseSystemConfig['geom'].copy()]. *)
Definition base_geom (e : t) : M t (gmap string pyval) :=
  g <- getitem "geom" (baseSystemConfig e !! "geom") ;;
  match g with
  | CGeom d => ret d
  | CVal _ => raise (AttributeError "copy")
  end.

Definition setupLocalSurveys (subConfigs : gmap pyval (gmap string pyval))
    : M t unit :=
  for_ (keys subConfigs) (fun isub =>
    e <- get ;;
    geom <- base_geom e ;;
    upd <- getitem "isub" (subConfigs !! isub) ;;
    (* dict.update: the right operand wins *)
    let geom' := upd ∪ geom in
    modify (fun e => set_localSurveys
                       (<[isub := surveyFactory e geom']> (localSurveys e)) e)).

(** A dictionary key must be hashable. *)
Definition hashable (what : string) (o : option cfgval) : M t pyval :=
  v <- getitem what o ;;
  match v with
  | CVal k => ret k
  | CGeom _ => raise (TypeError "unhashable type")
  end.

(** The configuration handed to the problem factory: the base
    configuration without [geom], updated with the subproblem's. *)
Definition systemConfig_of (e : t) (subConfig : gmap string cfgval) :
    gmap string cfgval :=
  subConfig ∪ filter (fun kv => kv.1 ≠ "geom"%string) (baseSystemConfig e).

Definition setupLocalProblem (subConfig : gmap string cfgval) : M t unit :=
  e <- get ;;
  let problem := problemFactory e (systemConfig_of e subConfig) in
  isub <- hashable "isub" (subConfig !! "isub") ;;
  survey <- getitem "localSurveys" (localSurveys e !! isub) ;;
  match pair problem survey with
  | None => raise PairError
  | Some problem =>
      tag <- hashable "tag" (subConfig !! "tag") ;;
      modify (fun e => set_localProblems
                         (<[tag := problem]> (localProblems e)) e)
  end.

(** Everything but [localFields] agrees. *)
Definition same_but_fields (e e' : t) : Prop :=
  problemFactory e' = problemFactory e /\ surveyFactory e' = surveyFactory e /\
  globalFields e' = globalFields e /\ localProblems e' = localProblems e /\
  localSurveys e' = localSurveys e /\ fieldspec e' = fieldspec e /\
  baseSystemConfig e' = baseSystemConfig e.

(** The reading of "a tag is never registered twice" as an enforced
    invariant: a call that returns normally for a tag that is already
    registered leaves the stored subproblem in place. *)
Definition never_registered_twice : Prop :=
  forall (e e' : t) (subConfig : gmap string cfgval) (tag : pyval),
    subConfig !! "tag"%string = Some (CVal tag) ->
    is_Some (localProblems e !! tag) ->
    setupLocalProblem subConfig e = (Val tt, e') ->
    localProblems e' !! tag = localProblems e !! tag.

(** The body of the loop of [setupLocalSurveys]. *)
Definition survey_step (subConfigs : gmap pyval (gmap string pyval))
    (isub : pyval) : M t unit :=
  e <- get ;;
  geom <- base_geom e ;;
  upd <- getitem "isub" (subConfigs !! isub) ;;
  let geom' := upd ∪ geom in
  modify (fun e => set_localSurveys
                     (<[isub := surveyFactory e geom']> (localSurveys e)) e).

(** Everything but [localSurveys] agrees. *)
Definition same_but_surveys (e e' : t) : Prop :=
  problemFactory e' = problemFactory e /\ surveyFactory e' = surveyFactory e /\
  localFields e' = localFields e /\
  globalFields e' = globalFields e /\ localProblems e' = localProblems e /\
  fieldspec e' = fieldspec e /\ baseSystemConfig e' = baseSystemConfig e.

(** Everything but [localProblems] agrees. *)
Definition same_but_problems (e e' : t) : Prop :=
  problemFactory e' = problemFactory e /\ surveyFactory e' = surveyFactory e /\
  localFields e' = localFields e /\
  globalFields e' = globalFields e /\ localSurveys e' = localSurveys e /\
  fieldspec e' = fieldspec e /\ baseSystemConfig e' = baseSystemConfig e.

End WithObjects.

Arguments t : clear implicits.

(** *** A concrete worker

    Containers are integer lists, a survey is its geometry, and a
    subproblem records its configuration and the survey it was paired
    with. *)

Definition Problem0 : Type := gmap string cfgval * option (gmap string pyval).

Definition factory0 (cfg : gmap string cfgval) : Problem0 := (cfg, None).

Definition pair0 (p : Problem0) (s : gmap string pyval) : option Problem0 :=
  Some (p.1, Some s).

Definition endpoint0 : t (list Z) (gmap string pyval) Problem0 :=
  mk factory0 (fun g => g)
     {[ "stale"%string := [1%Z] ]} ∅ ∅
     {[ PInt 0 := ∅ ]}
     (Some {[ "u"%string := (fun _ : unit => @nil Z) ]})
     {[ "geom"%string := CGeom ∅ ]}.

Definition subConfig_a : gmap string cfgval :=
  {[ "isub"%string := CVal (PInt 0);
     "tag"%string := CVal (PPair 0 0);
     "freq"%string := CVal (PInt 1) ]}.

Definition subConfig_b : gmap string cfgval :=
  {[ "isub"%string := CVal (PInt 0);
     "tag"%string := CVal (PPair 0 0);
     "freq"%string := CVal (PInt 2) ]}.

(** A worker whose class attributes are all at their defaults: empty
    dictionaries, no [fieldspec], an empty base configuration. *)
Definition endpoint_blank : t (list Z) (gmap string pyval) Problem0 :=
  mk factory0 (fun g => g) ∅ ∅ ∅ ∅ None ∅.

(** Survey configurations for the sub-indices 1 and 2. *)
Definition subConfigs0 : gmap pyval (gmap string pyval) :=
  {[ PInt 1 := {[ "freq"%string := PInt 3 ]};
     PInt 2 := {[ "freq"%string := PInt 5 ]} ]}.

(** A subproblem for sub-index 1. *)
Definition subConfig_c : gmap string cfgval :=
  {[ "isub"%string := CVal (PInt 1);
     "tag"%string := CVal (PPair 1 0) ]}.

End Endpoint.

(** ** The load-balanced view

    What the module uses of ipyparallel's [LoadBalancedView]: tasks are
    submitted with the flags set through [temp_flags] and answered with
    an asynchronous result, which is known by the message ids of its
    tasks. The view's [targets] are never restricted by the module, so
    the only placement constraint a task can carry is [follow]. *)

Module LView.
Import Py.
Local Open Scope py_scope.

(** A subproblem tag, [(frequency index, parameter index)]. *)
Definition tag : Type := Z * Z.

(** [slice(start, stop, step)]. *)
Record pyslice : Type := Slice {
  start : option Z;
  stop : option Z;
  step : option Z
}.

Global Instance pyslice_eq_dec : EqDecision pyslice.
Proof. solve_decision. Defined.

(** The three kinds of remote call the module submits, with their
    arguments (the endpoint reference is the same everywhere). *)
Inductive call : Type :=
  | Solve (fn : string) (t : tag) (work : pyslice)
  | Clear (fn : string) (t : tag) (rank : option Z)
  | ReduceJob (worker root : Z) (key : string).

Global Instance call_eq_dec : EqDecision call.
Proof. solve_decision. Defined.

(** An [AsyncResult]: the message ids of its tasks (one for [apply], one
    per element for [map]). *)
Abbreviation job := (list nat) (only parsing).

(** The flags of [temp_flags]; [block] is [False] at every submission.
    A dependency is the list of message ids it waits for ([after]) or
    must be co-located with ([follow]); [None] is the empty list. *)
Record flags : Type := Flags {
  after : list nat;
  follow : list nat
}.

Definition no_flags : flags := Flags [] [].

(** The message ids behind a list of asynchronous results. *)
Definition msg_ids (js : list job) : list nat := concat js.

Record task : Type := Task {
  t_call : call;
  t_flags : flags
}.

(** The view is the log of what has been submitted; a task's message
    id is its position in the log. *)
Abbreviation view := (list task) (only parsing).

(** [lview.apply(f, *args)] under the given flags. *)
Definition apply (fl : flags) (c : call) : M view job :=
  fun log => (Val [length log], log ++ [Task c fl]).

(** [lview.map(f, *sequences)] under the given flags: one task per
    element. *)
Definition map_ (fl : flags) (cs : list call) : M view job :=
  fun log => (Val (seq (length log) (length cs)),
              log ++ map (fun c => Task c fl) cs).

(** [xrange(n)]. *)
Definition xrange (n : Z) : list Z := map Z.of_nat (seq 0 (Z.to_nat n)).

(** Where the balancer may place a task, given where the tasks before
    it ran: on any engine that ran every task it follows. *)
Definition may_place (ran_on : nat -> option Z) (t : task) (engine : Z) : bool :=
  forallb (fun i => bool_decide (ran_on i = Some engine)) (follow (t_flags t)).

End LView.

(** ** Field containers

    The values the collectives move around are numeric arrays. Their
    scalars are kept abstract (the program uses complex floating point
    numbers; the development only needs the operations); arrays are
    nested sequences, as NumPy prints them. *)

Module Field.

Class Scalar (E : Type) : Type := {
  zero : E;
  add : E -> E -> E;
  sub : E -> E -> E;
  mul : E -> E -> E;
  div : E -> E -> E;
  conj : E -> E
}.

Inductive binop : Type := OpAdd | OpSub | OpMul | OpDiv.

Definition scalar_op {E} `{Scalar E} (o : binop) : E -> E -> E :=
  match o with
  | OpAdd => add
  | OpSub => sub
  | OpMul => mul
  | OpDiv => div
  end.

(** An n-dimensional array: a scalar (0-d) or a sequence of arrays. *)
#[warnings="-register-all"]
Inductive nd (E : Type) : Type :=
  | Sc (x : E)
  | Ar (items : list (nd E)).
Arguments Sc {E} x.
Arguments Ar {E} items.

Fixpoint nd_map {E} (f : E -> E) (a : nd E) : nd E :=
  match a with
  | Sc x => Sc (f x)
  | Ar l => Ar (map (nd_map f) l)
  end.

(** Elementwise combination of two arrays of one shape. [None]: the
    shapes differ. *)
Fixpoint nd_zip_same {E} (f : E -> E -> E) (a b : nd E) {struct a}
    : option (nd E) :=
  match a, b with
  | Sc x, Sc y => Some (Sc (f x y))
  | Ar l, Ar m =>
      option_map Ar
        ((fix go (l m : list (nd E)) {struct l} : option (list (nd E)) :=
            match l, m with
            | [] , [] => Some []
            | x :: l', y :: m' =>
                match nd_zip_same f x y, go l' m' with
                | Some z, Some r => Some (z :: r)
                | _, _ => None
                end
            | _, _ => None
            end) l m)
  | _, _ => None
  end.

(** [a <op> b] on arrays: a 0-d operand is broadcast over the other
    one, two arrays of one shape are combined elementwise. [None]:
    shapes that differ otherwise (NumPy would try to broadcast them;
    that is not modelled). *)
Definition nd_zip {E} (f : E -> E -> E) (a b : nd E) : option (nd E) :=
  match a, b with
  | Sc x, Ar _ => Some (nd_map (f x) b)
  | Ar _, Sc y => Some (nd_map (fun x => f x y) a)
  | _, _ => nd_zip_same f a b
  end.

(** [a.sum()]: the sum of all elements. *)
Fixpoint nd_sum {E} `{Scalar E} (a : nd E) : E :=
  match a with
  | Sc x => x
  | Ar l => fold_left (fun acc x => add acc (nd_sum x)) l zero
  end.

(** The left fold of Python's [reduce(f, xs)], partial as [f] is. *)
Definition reduce_opt {A} (f : A -> A -> option A) (xs : list A) : option A :=
  match xs with
  | [] => None
  | x :: xs' => fold_left (fun acc y => a ← acc; f a y) xs' (Some x)
  end.

(** [a.sum(axis=k)]: axis 0 adds the items up, a deeper axis is summed
    inside every item; [None] when the array has no such axis. This is
    NumPy's result on arrays without an empty dimension. An empty
    sequence does not record the shape of its items: [Ar []] is summed
    as shape (0,) along axis 0 (the scalar zero) and as an array with
    further axes along a deeper one, so statements about [sum(axis=k)]
    are made for arrays whose dimensions are all positive. *)
Fixpoint nd_sum_axis {E} `{Scalar E} (k : nat) (a : nd E) : option (nd E) :=
  match a with
  | Sc _ => None
  | Ar l =>
      match k with
      | O => match l with
             | [] => Some (Sc zero)
             | _ => reduce_opt (nd_zip add) l
             end
      | S k' =>
          option_map Ar
            ((fix go (l : list (nd E)) : option (list (nd E)) :=
                match l with
                | [] => Some []
                | x :: l' =>
                    match nd_sum_axis k' x, go l' with
                    | Some z, Some r => Some (z :: r)
                    | _, _ => None
                    end
                end) l)
      end
  end.

(** [has_shape sh a]: [a] is rectangular with dimensions [sh]. *)
Fixpoint has_shape {E} (sh : list nat) (a : nd E) {struct a} : Prop :=
  match a, sh with
  | Sc _, [] => True
  | Ar l, n :: sh' =>
      length l = n /\
      (fix all (l : list (nd E)) : Prop :=
         match l with
         | [] => True
         | x :: l' => has_shape sh' x /\ all l'
         end) l
  | _, _ => False
  end.

(** [a[i0][i1]...]: the element at a full index. *)
Fixpoint nd_at {E} (a : nd E) (ix : list nat) {struct ix} : option E :=
  match ix, a with
  | [], Sc x => Some x
  | i :: ix', Ar l => x ← l !! i; nd_at x ix'
  | _, _ => None
  end.

(** The sum of a non-empty sequence of scalars, added up in order. *)
Definition sum_list {E} `{Scalar E} (xs : list E) : option E :=
  match xs with
  | [] => None
  | x :: xs' => Some (fold_left add xs' x)
  end.

(** The pointwise sum of a sequence of arrays at a full index: the sum
    of their elements there. *)
Definition sum_at {E} `{Scalar E} (arrays : list (nd E)) (ix : list nat)
    : option E :=
  mapM (fun a => nd_at a ix) arrays ≫= sum_list.

(** The pairing of the items of two sequences, as [nd_zip] does it. *)
Fixpoint zip_opt {A} (g : A -> A -> option A) (l m : list A) : option (list A) :=
  match l, m with
  | [], [] => Some []
  | x :: l', y :: m' =>
      match g x y, zip_opt g l' m' with
      | Some z, Some r => Some (z :: r)
      | _, _ => None
      end
  | _, _ => None
  end.

(** [zips_to f a b c]: [c] is the elementwise combination of [a] and
    [b], and reads as such at every index. *)
Definition zips_to {E} (f : E -> E -> E) (a b c : nd E) : Prop :=
  nd_zip f a b = Some c /\
  forall ix, nd_at c ix = (x ← nd_at a ix; y ← nd_at b ix; Some (f x y)).

(** One step of the left fold of [reduce(np.add, ...)] on arrays. *)
Definition add_step {E} `{Scalar E} (acc : option (nd E)) (y : nd E)
    : option (nd E) :=
  x ← acc; nd_zip add x y.

(** *** Two scalar types to compute with *)

(** Integers, with truncating division and trivial conjugation. *)
Global Instance Z_scalar : Scalar Z :=
  {| zero := 0; add := Z.add; sub := Z.sub; mul := Z.mul; div := Z.div;
     conj := fun x => x |}.

(** Complex numbers with rational parts, kept in lowest terms. *)
Record Qi : Type := mkQi { re : Q; im : Q }.

Definition Qi_add (x y : Qi) : Qi :=
  mkQi (Qred (re x + re y)) (Qred (im x + im y)).
Definition Qi_sub (x y : Qi) : Qi :=
  mkQi (Qred (re x - re y)) (Qred (im x - im y)).
Definition Qi_mul (x y : Qi) : Qi :=
  mkQi (Qred (re x * re y - im x * im y)) (Qred (re x * im y + im x * re y)).
Definition Qi_conj (x : Qi) : Qi := mkQi (re x) (Qred (- im x)).
Definition Qi_div (x y : Qi) : Qi :=
  let d := (re y * re y + im y * im y)%Q in
  mkQi (Qred ((re x * re y + im x * im y) / d))
       (Qred ((im x * re y - re x * im y) / d)).

Global Instance Qi_scalar : Scalar Qi :=
  {| zero := mkQi 0 0; add := Qi_add; sub := Qi_sub; mul := Qi_mul;
     div := Qi_div; conj := Qi_conj |}.

(** Binary64 floating-point numbers, the elements of NumPy's real
    arrays: every operation rounds, so addition is not associative. *)
Module Float64.
Import PrimFloat.

Definition one : float := 1%float.
Definition big : float := 1e16%float.
Definition minus_big : float := (-1e16)%float.

End Float64.

Global Instance float_scalar : Scalar PrimFloat.float :=
  {| zero := PrimFloat.zero; add := PrimFloat.add; sub := PrimFloat.sub;
     mul := PrimFloat.mul; div := PrimFloat.div; conj := fun x => x |}.

End Field.

(** ** class RemoteInterface *)

Module RemoteInterface.
Import Py Field.
Local Open Scope py_scope.

Definition DEFAULT_MPI : bool := true.
Definition MPI_BELLWETHERS : list string := ["PMI_SIZE"; "OMPI_UNIVERSE_SIZE"]%string.

(** *** Transport selection in [__init__] *)

(** What construction sees of an engine: its environment and the rank
    its MPI communicator reports. *)
Record engine : Type := Engine {
  environ : gmap string string;
  mpi_rank : Z
}.

(** [os.getenv(var)]. *)
Definition getenv (var : string) (w : engine) : option string :=
  environ w !! var.

(** Truth value of what [os.getenv] returns: [None] and the empty
    string are false. *)
Definition truthy (o : option string) : bool :=
  match o with
  | None => false
  | Some s => negb (String.eqb s "")
  end.

(** [all(dview['os.getenv("VAR")'])]. *)
Definition all_getenv (var : string) (ws : list engine) : bool :=
  forallb (fun w => truthy (getenv var w)) ws.

(** The loop [for var in MPI_BELLWETHERS: MPISafe = MPISafe or all(...)],
    started from [MPISafe = False]. *)
Definition MPISafe (ws : list engine) : bool :=
  fold_left (fun safe var => safe || all_getenv var ws) MPI_BELLWETHERS false.

(** [ranks.index(i)]. *)
Fixpoint index_of (i : Z) (ranks : list Z) : option nat :=
  match ranks with
  | [] => None
  | r :: ranks' => if Z.eqb r i then Some O else option_map S (index_of i ranks')
  end.

(** [[ranks.index(i) for i in xrange(len(ranks))]]. *)
Definition reorder (ranks : list Z) : option (list nat) :=
  mapM (fun i => index_of i ranks) (LView.xrange (Z.of_nat (length ranks))).

(** What [__init__] settles about the transport: [self.useMPI] and the
    order in which [self.dview] addresses the engines. *)
Record transport : Type := Transport {
  useMPI : bool;
  dview_order : list nat
}.

Definition init (MPI : option bool) (ws : list engine) : outcome transport :=
  let identity := seq 0 (length ws) in
  let MPI := match MPI with None => DEFAULT_MPI | Some b => b end in
  if MPI then
    if MPISafe ws then
      match reorder (map mpi_rank ws) with
      | Some order => Val (Transport true order)
      | None => Exc (PlainException "ValueError: not in list")
      end
    else Val (Transport false identity)
  else Val (Transport false identity).

(** The reading "collective mode if and only if every worker has at
    least one of the two indicators set" of the probe. *)
Definition has_indicator (w : engine) : Prop :=
  is_Some (getenv "PMI_SIZE" w) \/ is_Some (getenv "OMPI_UNIVERSE_SIZE" w).

Definition collective_iff_each_has_one : Prop :=
  forall (ws : list engine) (tr : transport),
    init None ws = Val tr ->
    (useMPI tr = true <-> forall w, w ∈ ws -> has_indicator w).

(** A cluster of two engines, one started by an MPICH-style launcher
    and one by Open MPI. *)
Definition mixed_cluster : list engine :=
  [ Engine {[ "PMI_SIZE"%string := "2"%string ]} 0;
    Engine {[ "OMPI_UNIVERSE_SIZE"%string := "2"%string ]} 1 ].

(** Two engines under one launcher, reporting their ranks in reverse. *)
Definition pmi_cluster : list engine :=
  [ Engine {[ "PMI_SIZE"%string := "2"%string ]} 1;
    Engine {[ "PMI_SIZE"%string := "2"%string ]} 0 ].

(** *** Load-balanced reduction *)

(** [reduceLB(endpoint, key, after)]: in collective mode one pinned
    [_reduceJob] per engine, all under [after]; otherwise nothing is
    submitted and the method returns [None]. *)
Definition reduceLB (useMPI : bool) (nengines : nat) (key : string)
    (after : list nat) : M LView.view (option LView.job) :=
  if useMPI then
    job <- LView.map_ (LView.Flags after [])
             (map (fun i => LView.ReduceJob i 0 key)
                  (LView.xrange (Z.of_nat nengines))) ;;
    ret (Some job)
  else ret None.

(** *** Worker namespaces *)

Section Collectives.
Context {E : Type} `{Scalar E}.

(** What a name can be bound to on a worker: [None], a field container,
    or the list a gather leaves on the root. *)
#[warnings="-register-all"]
Inductive obj : Type :=
  | ONone
  | OArr (a : nd E)
  | OList (l : list obj).

(** The cluster as [self.dview] addresses it: one namespace per engine,
    the engine of rank [i] at position [i]; [self.e0] is position 0. *)
Abbreviation cluster := (list (gmap string obj)) (only parsing).

(** Arithmetic on bound values. On field containers [a + b] and
    [np.add(a, b)] are the same elementwise operation; [None] supports
    no arithmetic. Arithmetic on gathered lists and NumPy broadcasting
    of unequal shapes are outside the modelled fragment ([Unmodelled]). *)
Definition py_binop {S} (o : binop) (a b : obj) : M S obj :=
  match a, b with
  | OArr x, OArr y =>
      match nd_zip (scalar_op o) x y with
      | Some z => ret (OArr z)
      | None => raise (Unmodelled "broadcasting of unequal shapes")
      end
  | ONone, _ | _, ONone => raise (TypeError "unsupported operand type(s)")
  | _, _ => raise (Unmodelled "arithmetic on lists")
  end.

Definition np_add {S} : obj -> obj -> M S obj := py_binop OpAdd.

(** [a.conj()], [a.sum()] and [a.sum(axis=k)]. *)
Definition py_conj {S} (a : obj) : M S obj :=
  match a with
  | OArr x => ret (OArr (nd_map conj x))
  | _ => raise (AttributeError "conj")
  end.

Definition py_sum {S} (a : obj) : M S obj :=
  match a with
  | OArr x => ret (OArr (Sc (nd_sum x)))
  | _ => raise (AttributeError "sum")
  end.

Definition py_sum_axis {S} (k : nat) (a : obj) : M S obj :=
  match a with
  | OArr x =>
      match nd_sum_axis k x with
      | Some z => ret (OArr z)
      | None => raise (PlainException "ValueError: axis out of bounds")
      end
  | _ => raise (AttributeError "sum")
  end.

(** Python's [reduce(f, xs)] without initial value. *)
Definition py_reduce {S} (f : obj -> obj -> M S obj) (xs : list obj) : M S obj :=
  match xs with
  | [] => raise (TypeError "reduce() of empty sequence with no initial value")
  | x :: xs' => fold_left (fun acc y => a <- acc ;; f a y) xs' (ret x)
  end.

(** How a communicator may combine the operands of [comm.reduce]: in
    rank order, bracketed as some binary tree. *)
Inductive rtree : Type :=
  | RLeaf (v : obj)
  | RNode (l r : rtree).

Fixpoint flatten (t : rtree) : list obj :=
  match t with
  | RLeaf v => [v]
  | RNode l r => flatten l ++ flatten r
  end.

Fixpoint eval_rtree {S} (t : rtree) : M S obj :=
  match t with
  | RLeaf v => ret v
  | RNode l r => a <- eval_rtree l ;; b <- eval_rtree r ;; py_binop OpAdd a b
  end.

(** The bracketing that adds the operands up one after the other. *)
Definition left_comb (vs : list obj) : rtree :=
  match vs with
  | [] => RLeaf ONone
  | v :: vs' => fold_left (fun t y => RNode t (RLeaf y)) vs' (RLeaf v)
  end.

(** The bracketing used by the communicator at hand. *)
Variable plan : list obj -> rtree.

(** The name-mangled temporary of a key. *)
Definition temp (key : string) : string := "temp_" +:+ key.

(** **** Statements run in one worker's namespace *)

Definition name {S} (key : string) (ns : gmap string obj) : M S obj :=
  match ns !! key with
  | Some v => ret v
  | None => raise (NameError key)
  end.

(** [del key]. *)
Definition del_stmt (key : string) : M (gmap string obj) unit :=
  ns <- get ;;
  _ <- name key ns ;;
  put (delete key ns).

(** [target = a <op> b]. *)
Definition binop_stmt (target : string) (o : binop) (a b : string)
    : M (gmap string obj) unit :=
  ns <- get ;;
  x <- name a ns ;;
  y <- name b ns ;;
  z <- py_binop o x y ;;
  put (<[target := z]> ns).

(** [target = src.sum(axis=k)]. *)
Definition sum_axis_stmt (target src : string) (k : nat) : M (gmap string obj) unit :=
  ns <- get ;;
  x <- name src ns ;;
  z <- py_sum_axis k x ;;
  put (<[target := z]> ns).

(** The source estimate
    [(item2.conj() * item1).sum(..) / (item1.conj() * item1).sum(..)]. *)
Definition srcEst {S} (individual : bool) (item1 item2 : obj) : M S obj :=
  let total (a : obj) : M S obj :=
    if individual then py_sum_axis 1 a else py_sum a in
  c2 <- py_conj item2 ;;
  p <- py_binop OpMul c2 item1 ;;
  num <- total p ;;
  c1 <- py_conj item1 ;;
  q <- py_binop OpMul c1 item1 ;;
  den <- total q ;;
  py_binop OpDiv num den.

(** [keyresult = (key2.conj() * key1).sum(..) / (key1.conj() * key1).sum(..)],
    the names being looked up as the expression is evaluated. *)
Definition srcEst_stmt (individual : bool) (keyresult key1 key2 : string)
    : M (gmap string obj) unit :=
  let total (a : obj) : M (gmap string obj) obj :=
    if individual then py_sum_axis 1 a else py_sum a in
  ns <- get ;;
  item2 <- name key2 ns ;;
  c2 <- py_conj item2 ;;
  item1 <- name key1 ns ;;
  p <- py_binop OpMul c2 item1 ;;
  num <- total p ;;
  c1 <- py_conj item1 ;;
  q <- py_binop OpMul c1 item1 ;;
  den <- total q ;;
  z <- py_binop OpDiv num den ;;
  put (<[keyresult := z]> ns).

(** **** Views *)

(** [self.e0.execute(stmt)]: on the engine at position 0. *)
Definition e0_execute (stmt : M (gmap string obj) unit) : M cluster unit :=
  fun cl =>
    match cl with
    | [] => (Exc (PlainException "no engines"), cl)
    | ns :: rest => let '(o, ns') := stmt ns in (o, ns' :: rest)
    end.

(** [self.dview.execute(stmt)] for a statement without communication:
    every engine runs it on its own; the client raises if one failed. *)
Fixpoint dview_execute (stmt : M (gmap string obj) unit) (cl : cluster)
    : outcome unit * cluster :=
  match cl with
  | [] => (Val tt, [])
  | ns :: rest =>
      let '(o, ns') := stmt ns in
      let '(os, rest') := dview_execute stmt rest in
      (match o with Val _ => os | Exc e => Exc e end, ns' :: rest')
  end.

(** [self.e0[key]] and [self.e0[key] = item]. *)
Definition e0_pull (key : string) : M cluster obj :=
  cl <- get ;;
  match cl with
  | [] => raise (PlainException "no engines")
  | ns :: _ => name key ns
  end.

Definition e0_push (key : string) (item : obj) : M cluster unit :=
  cl <- get ;;
  match cl with
  | [] => raise (PlainException "no engines")
  | ns :: rest => put (<[key := item]> ns :: rest)
  end.

(** [self.dview[key]] and [self.dview[key] = item]. *)
Definition dview_pull (key : string) : M cluster (list obj) :=
  cl <- get ;;
  match mapM (fun ns : gmap string obj => ns !! key) cl with
  | Some vs => ret vs
  | None => raise (NameError key)
  end.

Definition dview_push (key : string) (item : obj) : M cluster unit :=
  modify (map (fun ns : gmap string obj => <[key := item]> ns)).

(** **** Statements that communicate

    A collective needs every engine to reach it; when an engine fails
    before (its operand is unbound) the others would wait for it. That
    shows here as the engine's [NameError]. *)

(** [temp_K = comm.reduce(K, root=root)] on every engine: the total on
    the root, [None] elsewhere. *)
Definition exec_reduce (key : string) (root : nat) : M cluster unit :=
  vs <- dview_pull key ;;
  total <- eval_rtree (plan vs) ;;
  modify (imap (fun r (ns : gmap string obj) =>
                  <[temp key := if Nat.eqb r root then total else ONone]> ns)).

(** [temp_K = None; temp_K = comm.gather(K, root=root)]. *)
Definition exec_gather (key : string) (root : nat) : M cluster unit :=
  modify (map (fun ns : gmap string obj => <[temp key := ONone]> ns)) ;;;
  vs <- dview_pull key ;;
  modify (imap (fun r (ns : gmap string obj) =>
                  <[temp key := if Nat.eqb r root then OList vs else ONone]> ns)).

(** [if rank != root: K = None; K = comm.bcast(K, root=root)]. The
    namespaces hold the data names only: an engine's [rank] is its
    position in the cluster and [comm] is the communicator of the
    model, so the statement is modelled for keys other than [rank] and
    [comm] (rebinding those would change what the statement itself
    reads). *)
Definition exec_bcast (key : string) (root : nat) : M cluster unit :=
  modify (imap (fun r (ns : gmap string obj) =>
                  if Nat.eqb r root then ns else <[key := ONone]> ns)) ;;;
  cl <- get ;;
  match cl !! root with
  | None => raise (PlainException "no root")
  | Some ns => v <- name key ns ;; dview_push key v
  end.

(** **** The methods *)

Definition __setitem__ (useMPI : bool) (key : string) (item : obj) : M cluster unit :=
  if useMPI then
    e0_push key item ;;;
    exec_bcast key 0
  else dview_push key item.

Definition __getitem__ (useMPI : bool) (key : string) : M cluster obj :=
  if useMPI then
    exec_gather key 0 ;;;
    item <- e0_pull (temp key) ;;
    e0_execute (del_stmt (temp key)) ;;;
    ret item
  else
    vs <- dview_pull key ;;
    ret (OList vs).

Definition reduce (useMPI : bool) (key : string) : M cluster obj :=
  if useMPI then
    exec_reduce key 0 ;;;
    item <- e0_pull (temp key) ;;
    dview_execute (del_stmt (temp key)) ;;;
    ret item
  else
    vs <- dview_pull key ;;
    py_reduce np_add vs.

Definition reduceMul (useMPI : bool) (key1 key2 : string) (axis : option nat)
    : M cluster obj :=
  if useMPI then
    exec_reduce key1 0 ;;;
    exec_reduce key2 0 ;;;
    e0_execute (binop_stmt (temp (key1 +:+ key2)) OpMul (temp key1) (temp key2)) ;;;
    (match axis with
     | Some k => e0_execute (sum_axis_stmt (temp (key1 +:+ key2))
                                           (temp (key1 +:+ key2)) k)
     | None => ret tt
     end) ;;;
    item <- e0_pull (temp (key1 +:+ key2)) ;;
    dview_execute (del_stmt (temp key1)) ;;;
    dview_execute (del_stmt (temp key2)) ;;;
    e0_execute (del_stmt (temp (key1 +:+ key2))) ;;;
    ret item
  else
    vs1 <- dview_pull key1 ;;
    item1 <- py_reduce np_add vs1 ;;
    vs2 <- dview_pull key2 ;;
    item2 <- py_reduce np_add vs2 ;;
    py_binop OpMul item1 item2.

Definition remoteMulE0 (key1 key2 : string) (axis : option nat) : M cluster obj :=
  e0_execute (binop_stmt "temp_field" OpMul key1 key2) ;;;
  (match axis with
   | Some k => e0_execute (sum_axis_stmt "temp_field" "temp_field" k)
   | None => ret tt
   end) ;;;
  item <- e0_pull "temp_field" ;;
  e0_execute (del_stmt "temp_field") ;;;
  ret item.

Definition remoteDifference (useMPI : bool) (key1 key2 keyresult : string)
    : M cluster unit :=
  if useMPI then
    exec_reduce key1 0 ;;;
    exec_reduce key2 0 ;;;
    e0_execute (binop_stmt keyresult OpSub (temp key1) (temp key2)) ;;;
    exec_bcast keyresult 0 ;;;
    e0_execute (del_stmt (temp key1)) ;;;
    e0_execute (del_stmt (temp key2))
  else
    vs1 <- dview_pull key1 ;;
    item1 <- py_reduce np_add vs1 ;;
    vs2 <- dview_pull key2 ;;
    item2 <- py_reduce np_add vs2 ;;
    item <- py_binop OpSub item1 item2 ;;
    dview_push keyresult item.

Definition remoteOpGatherFirst (useMPI : bool) (op : binop)
    (key1 key2 keyresult : string) : M cluster unit :=
  if useMPI then
    exec_reduce key1 0 ;;;
    e0_execute (binop_stmt keyresult op (temp key1) key2) ;;;
    exec_bcast keyresult 0 ;;;
    e0_execute (del_stmt (temp key1))
  else
    vs1 <- dview_pull key1 ;;
    item1 <- py_reduce np_add vs1 ;;
    item2 <- e0_pull key2 ;;
    item <- py_binop op item1 item2 ;;
    dview_push keyresult item.

Definition remoteDifferenceGatherFirst (useMPI : bool) :=
  remoteOpGatherFirst useMPI OpSub.

Definition remoteSrcEstGatherFirst (useMPI : bool) (keyresult key1 key2 : string)
    (individual : bool) : M cluster unit :=
  if useMPI then
    e0_execute (srcEst_stmt individual keyresult key1 key2) ;;;
    exec_bcast keyresult 0
  else
    vs1 <- dview_pull key1 ;;
    item1 <- py_reduce np_add vs1 ;;
    item2 <- e0_pull key2 ;;
    item <- srcEst individual item1 item2 ;;
    dview_push keyresult item.

Definition remoteApplySrc (keyData keySrc : string) : M cluster unit :=
  dview_execute (binop_stmt keyData OpMul keySrc keyData).

End Collectives.

Arguments obj : clear implicits.
Arguments rtree : clear implicits.

(** *** A cluster of two engines

    Both engines hold a one-by-one data array under ["d"] and the same
    source array under ["s"]; no other name is bound. *)
Definition cluster2 : list (gmap string (obj Qi)) :=
  [ {[ "d"%string := OArr (Ar [Ar [Sc (mkQi 1 1)]]);
       "s"%string := OArr (Ar [Ar [Sc (mkQi 1 0)]]) ]};
    {[ "d"%string := OArr (Ar [Ar [Sc (mkQi 1 (-1))]]);
       "s"%string := OArr (Ar [Ar [Sc (mkQi 1 0)]]) ]} ].

(** Two engines holding integer two-by-two arrays under ["u"]. *)
Definition clusterZ : list (gmap string (obj Z)) :=
  [ {[ "u"%string := OArr (Ar [Ar [Sc 1; Sc 2]; Ar [Sc 3; Sc 4]]) ]};
    {[ "u"%string := OArr (Ar [Ar [Sc 10; Sc 20]; Ar [Sc 30; Sc 40]]) ]} ].

Definition arraysZ : list (nd Z) :=
  [ Ar [Ar [Sc 1; Sc 2]; Ar [Sc 3; Sc 4]];
    Ar [Ar [Sc 10; Sc 20]; Ar [Sc 30; Sc 40]] ].

(** Two engines holding integer vectors under ["a"] and ["b"]. *)
Definition rootAB : gmap string (obj Z) :=
  {[ "a"%string := OArr (Ar [Sc 1; Sc 2]);
     "b"%string := OArr (Ar [Sc 5; Sc 5]) ]}.

Definition otherAB : gmap string (obj Z) :=
  {[ "a"%string := OArr (Ar [Sc 10; Sc 20]);
     "b"%string := OArr (Ar [Sc 1; Sc 1]) ]}.

Definition arraysA : list (nd Z) := [Ar [Sc 1; Sc 2]; Ar [Sc 10; Sc 20]].
Definition arraysB : list (nd Z) := [Ar [Sc 5; Sc 5]; Ar [Sc 1; Sc 1]].

(** *** A communicator that adds in pairs

    The operands are combined pairwise, neighbour with neighbour, level
    by level: a binary tree over the ranks, in rank order. For four
    engines that is [(v0 + v1) + (v2 + v3)]. *)
Fixpoint pair_level {E} (ts : list (rtree E)) : list (rtree E) :=
  match ts with
  | a :: b :: rest => RNode a b :: pair_level rest
  | _ => ts
  end.

Fixpoint pair_tree {E} (fuel : nat) (ts : list (rtree E)) : rtree E :=
  match ts with
  | [] => RLeaf ONone
  | [t] => t
  | t :: rest =>
      match fuel with
      | O => fold_left RNode rest t
      | S fuel' => pair_tree fuel' (pair_level ts)
      end
  end.

Definition pairwise {E} (vs : list (obj E)) : rtree E :=
  pair_tree (length vs) (map RLeaf vs).

(** Four engines holding integer vectors under ["u"]. *)
Definition arraysZ4 : list (nd Z) :=
  [ Ar [Sc 1; Sc 2]; Ar [Sc 10; Sc 20]; Ar [Sc 100; Sc 200];
    Ar [Sc 1000; Sc 2000] ].

Definition clusterZ4 : list (gmap string (obj Z)) :=
  map (fun a => {[ "u"%string := OArr a ]}) arraysZ4.

(** Four engines holding the floating-point vectors [[1.]], [[1e16]],
    [[-1e16]] and [[1.]] under ["u"]. *)
Definition arraysF4 : list (nd PrimFloat.float) :=
  [ Ar [Sc Float64.one]; Ar [Sc Float64.big]; Ar [Sc Float64.minus_big];
    Ar [Sc Float64.one] ].

Definition clusterF4 : list (gmap string (obj PrimFloat.float)) :=
  map (fun a => {[ "u"%string := OArr a ]}) arraysF4.

(** The reading "[reduce] returns the same result in either mode" for
    every kind of addable element: whenever every engine holds an
    array of one shape under [key] and the communicator combines the
    operands in rank order, both modes return one and the same array. *)
Definition reduce_same_in_both_modes : Prop :=
  forall (E : Type) (HE : Scalar E) (plan : list (obj E) -> rtree E)
         (key : string) (cl : list (gmap string (obj E)))
         (arrays : list (nd E)) (sh : list nat),
    flatten (plan (map OArr arrays)) = map OArr arrays ->
    arrays <> [] ->
    Forall2 (fun ns a => ns !! key = Some (OArr a)) cl arrays ->
    Forall (has_shape sh) arrays ->
    exists total,
      reduce plan false key cl = (Val (OArr total), cl) /\
      (reduce plan true key cl).1 = Val (OArr total).

(** Every engine binds [key] to [v]. *)
Definition everywhere {E} (cl : list (gmap string (obj E))) (key : string)
    (v : obj E) : Prop :=
  Forall (fun ns : gmap string (obj E) => ns !! key = Some v) cl.

(** [leaves_state m]: [m] reads the state but never changes it,
    whether it returns or raises. *)
Definition leaves_state {S A} (m : M S A) : Prop :=
  forall s, (m s).2 = s.

(** [binds_or_raises key m]: [m] either raises with every namespace as
    it was, or returns with [key] bound to one and the same value on
    every engine and nothing else changed. *)
Definition binds_or_raises {E} (key : string)
    (m : M (list (gmap string (obj E))) unit) : Prop :=
  forall cl,
    (exists ex, m cl = (Exc ex, cl)) \/
    (exists v, m cl = (Val tt, map (fun ns => <[key := v]> ns) cl)).

End RemoteInterface.

(** ** class SystemGraph *)

Module SystemGraph.
Import LView.

(** The attributes the scheduler attaches to a node. *)
Record attrs : Type := Attrs {
  jobs : option (list job);
  subslice : option pyslice;
  tag_of : option tag;
  rank_of : option Z
}.

Definition no_attrs : attrs := Attrs None None None None.

(** [dict.update]: an attribute given anew replaces the old one. *)
Definition update (old new : attrs) : attrs :=
  Attrs (from_option Some (jobs old) (jobs new))
        (from_option Some (subslice old) (subslice new))
        (from_option Some (tag_of old) (tag_of new))
        (from_option Some (rank_of old) (rank_of new)).

(** A directed graph: attributed nodes and a set of edges. *)
Record t : Type := Graph {
  nodes : gmap string attrs;
  edges : gset (string * string)
}.

Definition empty : t := Graph ∅ ∅.

(** [G.node[n]['jobs']], when the node is there and has the attribute. *)
Definition jobs_of (n : string) (G : t) : option (list job) :=
  nodes G !! n ≫= jobs.

(** [G.add_node(n, **attr)]. *)
Definition add_node (n : string) (a : attrs) (G : t) : t :=
  Graph (<[n := update (default no_attrs (nodes G !! n)) a]> (nodes G)) (edges G).

(** [G.add_edge(u, v)]: both ends become nodes. *)
Definition add_edge (u v : string) (G : t) : t :=
  let G := add_node u no_attrs G in
  let G := add_node v no_attrs G in
  Graph (nodes G) ({[ (u, v) ]} ∪ edges G).

(** What [_codeStatus] asks of an [AsyncResult]: whether it is ready
    and, once ready, whether it succeeded. *)
Record asyncresult : Type := AsyncResult {
  ready : bool;
  successful : bool
}.

(** [_codeStatus(data)] on the attributes of a node; [state] gives the
    state of each job at the time of the call. [data['jobs'][-1]] is
    the last job of the list. *)
Definition _codeStatus (state : job -> asyncresult) (data : attrs)
    : Py.outcome Z :=
  match jobs data with
  | None => Py.Val 0
  | Some js =>
      match last js with
      | None => Py.Exc (Py.PlainException "IndexError: list index out of range")
      | Some j =>
          let status := 1 * Z.b2z (ready (state j)) + 1 in
          if 1 <? status
          then Py.Val (status + 1 * Z.b2z (negb (successful (state j))))
          else Py.Val status
      end
  end.

(** The loop [for n, data in self.nodes_iter(data=True)] of
    [_codeGraph]: the status of every node, unless one raises. *)
Fixpoint code_nodes (state : job -> asyncresult) (l : list (string * attrs))
    : Py.outcome (gmap string Z) :=
  match l with
  | [] => Py.Val ∅
  | (n, data) :: l' =>
      match _codeStatus state data with
      | Py.Exc e => Py.Exc e
      | Py.Val status =>
          match code_nodes state l' with
          | Py.Exc e => Py.Exc e
          | Py.Val m => Py.Val (<[n := status]> m)
          end
      end
  end.

(** [_codeGraph()]: the same edges, and every node with its status. *)
Definition _codeGraph (state : job -> asyncresult) (G : t)
    : Py.outcome (gmap string Z * gset (string * string)) :=
  match code_nodes state (map_to_list (nodes G)) with
  | Py.Exc e => Py.Exc e
  | Py.Val m => Py.Val (m, edges G)
  end.

End SystemGraph.

(** ** class SystemSolver *)

Module SystemSolver.
Import Py LView.
Local Open Scope py_scope.

(** The source-range argument of the scheduler: [None], a slice, or
    anything else. *)
Inductive srcarg : Type :=
  | SrcNone
  | SrcSlice (s : pyslice)
  | SrcOther (v : pyval).

(** A schedule entry [{solve, clear, reduce}]. *)
Record entry : Type := Entry {
  solve : string;
  clear : string;
  reduce : list string
}.

(** What the scheduler reads of [self.problem]; the two optional
    attributes are fetched with [getattr] and a default.
    [chunksPerWorker] is an integer here, so that
    [int(round(chunksPerWorker * len(relIDs)))] is the plain product. *)
Record problem : Type := Problem {
  nsrc : Z;
  chunksPerWorker : option Z;
  ensembleClear : option bool
}.

(** What the scheduler reads of [self.remote]: the transport mode and,
    per engine of the direct view, its [rank] and the keys of its
    [localProblems]. *)
Record remote : Type := Remote {
  useMPI : bool;
  engines : list (Z * list tag)
}.

(** [_subSlice(insl, chunks)], with Python 2's integer division. *)
Definition _subSlice {S} (insl : pyslice) (chunks : Z) : M S (list pyslice) :=
  (* insl.start or 0 *)
  let start := match start insl with
               | None => 0
               | Some s => s
               end in
  match stop insl with
  | None => raise (TypeError "unsupported operand type(s) for -: 'NoneType' and 'int'")
  | Some stop =>
      let nproblems := stop - start in
      ret (map (fun i => Slice (Some (start + i * nproblems / chunks))
                               (Some (start + (i + 1) * nproblems / chunks))
                               None)
               (xrange chunks))
  end.

(** [l[a:b]] on a list: a negative index counts from the end, and both
    ends are clamped to the list. *)
Definition slice_index (n i : Z) : Z :=
  if i <? 0 then Z.max 0 (i + n) else Z.min i n.

Definition getslice {A} (l : list A) (a b : Z) : list A :=
  let n := Z.of_nat (length l) in
  let lo := slice_index n a in
  let hi := slice_index n b in
  take (Z.to_nat (hi - lo)) (drop (Z.to_nat lo) l).

(** [_getChunks(problems, chunks)]: the chunks the generator yields, in
    order. *)
Definition _getChunks {A} (problems : list A) (chunks : Z) : list (list A) :=
  let nproblems := Z.of_nat (length problems) in
  map (fun i => getslice problems (i * nproblems / chunks)
                                  ((i + 1) * nproblems / chunks))
      (xrange chunks).

(** Node labels. *)
Definition fmt2 (prefix : string) (t : tag) : string :=
  prefix +:+ pretty t.1 +:+ ", " +:+ pretty t.2.

Definition fmt3 (prefix : string) (t : tag) (i : Z) : string :=
  fmt2 prefix t +:+ ", " +:+ pretty i.

(** The truth value of a slice object: a slice defines neither
    [__nonzero__] nor [__len__], so [if work:] always holds. *)
Definition slice_truth (work : pyslice) : bool := true.

(** What the loop over the tags carries along. *)
Record acc : Type := Acc {
  graph : SystemGraph.t;
  clearJobs : list job;
  tailNodes : list string
}.

(** The compute tasks of one tag: one [lview.apply] per sub-slice under
    [temp_flags(block=False)]. Returns the graph, [systemJobs] and
    [systemNodes]. *)
Fixpoint submit_compute (fn : string) (t : tag) (tagNode : string)
    (works : list pyslice) (iworks : Z) (G : SystemGraph.t)
    : M view (SystemGraph.t * list job * list string) :=
  match works with
  | [] => ret (G, [], [])
  | work :: works' =>
      if slice_truth work then
        job <- apply no_flags (Solve fn t work) ;;
        let label := fmt3 "Compute: " t iworks in
        let G := SystemGraph.add_node label
                   (SystemGraph.Attrs (Some [job]) (Some work) (Some t) None) G in
        let G := SystemGraph.add_edge tagNode label G in
        r <- submit_compute fn t tagNode works' (iworks + 1) G ;;
        let '(G, systemJobs, systemNodes) := r in
        ret (G, job :: systemJobs, label :: systemNodes)
      else submit_compute fn t tagNode works' iworks G
  end.

(** Ensemble ending: one clear task per hosting rank, after all the
    compute tasks of the tag. Returns the graph, the clear jobs and
    [endNodes[tag]]. *)
Fixpoint submit_clear_ensemble (fn : string) (t : tag) (tagNode : string)
    (systemJobs : list job) (relIDs : list Z) (G : SystemGraph.t)
    : M view (SystemGraph.t * list job * list string) :=
  match relIDs with
  | [] => ret (G, [], [])
  | rank :: relIDs' =>
      job <- apply (Flags (msg_ids systemJobs) []) (Clear fn t (Some rank)) ;;
      let label := fmt3 "Wrap: " t rank in
      let G := SystemGraph.add_node label
                 (SystemGraph.Attrs (Some [job]) None (Some t) (Some rank)) G in
      let G := SystemGraph.add_edge tagNode label G in
      r <- submit_clear_ensemble fn t tagNode systemJobs relIDs' G ;;
      let '(G, cjobs, ends) := r in
      ret (G, job :: cjobs, label :: ends)
  end.

(** Individual ending: one clear task per compute task, following it
    and after it. *)
Fixpoint submit_clear_individual (fn : string) (t : tag) (i : Z)
    (systemJobs : list job) (systemNodes : list string) (G : SystemGraph.t)
    : M view (SystemGraph.t * list job * list string) :=
  match systemJobs, systemNodes with
  | sjob :: systemJobs', node :: systemNodes' =>
      job <- apply (Flags sjob sjob) (Clear fn t None) ;;
      let label := fmt3 "Wrap: " t i in
      let G := SystemGraph.add_node label
                 (SystemGraph.Attrs (Some [job]) None None None) G in
      let G := SystemGraph.add_edge node label G in
      r <- submit_clear_individual fn t (i + 1) systemJobs' systemNodes' G ;;
      let '(G, cjobs, ends) := r in
      ret (G, job :: cjobs, label :: ends)
  | _, _ => ret (G, [], [])
  end.

(** The ranks hosting a tag, in the order of the direct view. *)
Definition relIDs_of (t : tag) (engines : list (Z * list tag)) : list Z :=
  map fst (filter (fun e => bool_decide (t ∈ e.2)) engines).

(** The body of [for tag in tags]. *)
Definition schedule_tag (p : problem) (r : remote) (e : entry)
    (isrcs : pyslice) (a : acc) (t : tag) : M view acc :=
  let mainNode := "Beginning"%string in
  let tagNode := fmt2 "Head: " t in
  let G := SystemGraph.add_edge mainNode tagNode (graph a) in
  let relIDs := relIDs_of t (engines r) in
  (* int(round(chunksPerWorker*len(relIDs))) *)
  let chunks := default 1 (chunksPerWorker p) * Z.of_nat (length relIDs) in
  works <- _subSlice isrcs chunks ;;
  c <- submit_compute (solve e) t tagNode works 0 G ;;
  let '(G, systemJobs, systemNodes) := c in
  w <- (if default false (ensembleClear p) then
          let tagNode := fmt2 "Wrap: " t in
          let G := fold_left (fun G label => SystemGraph.add_edge label tagNode G)
                             systemNodes G in
          submit_clear_ensemble (clear e) t tagNode systemJobs relIDs G
        else
          submit_clear_individual (clear e) t 0 systemJobs systemNodes G) ;;
  let '(G, cjobs, ends) := w in
  let tagNode := fmt2 "Tail: " t in
  let G := fold_left (fun G label => SystemGraph.add_edge label tagNode G) ends G in
  ret (Acc G (clearJobs a ++ cjobs) (tailNodes a ++ [tagNode])).

(** [for tag in tags], threading the accumulators. *)
Fixpoint schedule_tags (p : problem) (r : remote) (e : entry)
    (isrcs : pyslice) (tags : list tag) (a : acc) : M view acc :=
  match tags with
  | [] => ret a
  | t :: tags' =>
      a' <- schedule_tag p r e isrcs a t ;;
      schedule_tags p r e isrcs tags' a'
  end.

(** The loop over [reduceLabels]: [after] starts as the clear jobs and
    becomes the job of the reduction just submitted ([None] when
    [reduceLB] returned nothing); every job that is not [None] is
    appended to [jobs]. *)
Fixpoint submit_reductions (r : remote) (labels : list string)
    (after : list nat) (jobs : list job) : M view (list job) :=
  match labels with
  | [] => ret jobs
  | label :: labels' =>
      job <- RemoteInterface.reduceLB (useMPI r) (length (engines r)) label after ;;
      match job with
      | Some j => submit_reductions r labels' j (jobs ++ [j])
      | None => submit_reductions r labels' [] jobs
      end
  end.

(** The set of all hosted tags. *)
Definition all_tags (engines : list (Z * list tag)) : gset tag :=
  fold_left (fun tags e => tags ∪ list_to_set e.2) engines ∅.

(** [SystemSolver.__call__(entry, isrcs)]. *)
Definition __call__ (p : problem) (r : remote) (schedule : gmap string entry)
    (entry_name : string) (isrcs : srcarg) : M view SystemGraph.t :=
  e <- getitem entry_name (schedule !! entry_name) ;;
  let G := SystemGraph.add_node "Beginning" SystemGraph.no_attrs SystemGraph.empty in
  isrcs <- (match isrcs with
            | SrcNone => ret (Slice None None None)
            | SrcSlice s => ret s
            | SrcOther _ => raise (PlainException "Scheduler must run over slice or None!")
            end) ;;
  let tags := elements (all_tags (engines r)) in
  a <- schedule_tags p r e isrcs tags (Acc G [] []) ;;
  jobs <- submit_reductions r (reduce e) (msg_ids (clearJobs a)) [] ;;
  let G := SystemGraph.add_node "End"
             (SystemGraph.Attrs (Some jobs) None None None) (graph a) in
  let G := fold_left (fun G node => SystemGraph.add_edge node "End" G)
                     (tailNodes a) G in
  ret G.

(** [SystemSolver._hasSystemRank(endpoint, tag, wid)]: the affinity
    predicate of an engine with the given rank and hosted tags. No
    submission of the scheduler refers to it. *)
Definition _hasSystemRank (rank : Z) (hosted : list tag) (t : tag) (wid : Z) : bool :=
  bool_decide (t ∈ hosted) && Z.eqb rank wid.

(** *** What the reduction loop submits in collective mode

    The tasks of the reductions for [labels], the first under [after]
    and each later one under the message ids of the one before it, when
    the log holds [base] tasks already; and the jobs they are answered
    with. *)
Fixpoint reduce_tasks (n : nat) (labels : list string) (after : list nat)
    (base : nat) : list task :=
  match labels with
  | [] => []
  | label :: labels' =>
      map (fun i => Task (ReduceJob i 0 label) (Flags after []))
          (xrange (Z.of_nat n))
      ++ reduce_tasks n labels' (seq base n) (base + n)
  end.

Fixpoint reduce_jobs (n : nat) (m : nat) (base : nat) : list job :=
  match m with
  | O => []
  | S m' => seq base n :: reduce_jobs n m' (base + n)
  end.

(** The message ids of the clear tasks among [ts], in the order of
    submission, when the first task of [ts] has message id [base]. *)
Fixpoint clear_ids (base : nat) (ts : list task) : list nat :=
  match ts with
  | [] => []
  | t :: ts' =>
      match t_call t with
      | Clear _ _ _ => base :: clear_ids (S base) ts'
      | _ => clear_ids (S base) ts'
      end
  end.

(** A compute task that carries no dependency at all. *)
Definition solve_unconstrained (t : task) : Prop :=
  match t_call t with
  | Solve _ _ _ => t_flags t = no_flags
  | _ => True
  end.

(** A task that is not a reduction. *)
Definition not_reduction (t : task) : Prop :=
  match t_call t with
  | ReduceJob _ _ _ => False
  | _ => True
  end.

(** [emits P m]: whatever [m] returns or raises, it only appends tasks
    to the log, and all of them satisfy [P]. *)
Definition emits {A} (P : task -> Prop) (m : M view A) : Prop :=
  forall log, exists ts, (m log).2 = log ++ ts /\ Forall P ts.

(** [returns m]: [m] never raises. *)
Definition returns {A} (m : M view A) : Prop :=
  forall log, exists a log', m log = (Val a, log').

(** *** The partition as the specification words it

    Boundaries [start + round(i * W / chunks)]: [round_div n d] is the
    integer nearest to [n / d] for [n >= 0] and [d > 0], halves going
    up, as Python 2's [round] does there. *)
Definition round_div (n d : Z) : Z := (2 * n + d) / (2 * d).

Definition subSlice_rounded (start stop chunks : Z) : list pyslice :=
  map (fun i => Slice (Some (start + round_div (i * (stop - start)) chunks))
                      (Some (start + round_div ((i + 1) * (stop - start)) chunks))
                      None)
      (xrange chunks).

(** The reading "boundaries are [start + round(i * W / c)]" of the
    partitioner, for a slice with both ends given. *)
Definition rounded_boundaries : Prop :=
  forall (start stop chunks : Z), 1 <= chunks ->
    _subSlice (Slice (Some start) (Some stop) None) chunks tt
    = (Val (subSlice_rounded start stop chunks), tt).

(** The reading "the End node's jobs are those of the last reduction
    only" of the reduction loop: the message ids behind [End.jobs] are
    the ids of the tasks of the last reduction, which are the last
    [n] tasks submitted ([n] engines). *)
Definition End_jobs_last_reduction_only : Prop :=
  forall p r schedule name e s log G log',
    schedule !! name = Some e ->
    (2 <= length (reduce e))%nat ->
    __call__ p r schedule name (SrcSlice s) log = (Val G, log') ->
    let n := length (engines r) in
    msg_ids <$> SystemGraph.jobs_of "End" G = Some (seq (length log' - n) n).

(** What [__call__] starts the loop over the tags with: the graph
    holding the node [Beginning], no clear job and no tail node. *)
Definition acc0 : acc :=
  Acc (SystemGraph.add_node "Beginning" SystemGraph.no_attrs SystemGraph.empty)
      [] [].

(** The graph [__call__] returns, from what the two loops leave. *)
Definition finish_graph (a : acc) (jobs : list (list nat)) : SystemGraph.t :=
  fold_left (fun G node => SystemGraph.add_edge node "End" G) (tailNodes a)
    (SystemGraph.add_node "End"
       (SystemGraph.Attrs (Some jobs) None None None) (graph a)).

(** What indexing an empty list raises. *)
Definition IndexError : exn :=
  PlainException "IndexError: list index out of range".

(** [ensures Q m]: whenever [m] returns normally, what it returns
    satisfies [Q]. *)
Definition ensures {A} (Q : A -> Prop) (m : M view A) : Prop :=
  forall log a log', m log = (Val a, log') -> Q a.

(** No node of the graph carries an empty [jobs] list. *)
Definition jobs_nonempty (G : SystemGraph.t) : Prop :=
  forall n a, SystemGraph.nodes G !! n = Some a ->
              SystemGraph.jobs a <> Some [].

(** Every job is ready and has succeeded. *)
Definition all_done (j : job) : SystemGraph.asyncresult :=
  SystemGraph.AsyncResult true true.

(** *** Scenarios *)

Definition schedule0 : gmap string entry :=
  {[ "forward"%string := Entry "forward" "clear" ["u"; "v"]%string ]}.

Definition problem0 : problem := Problem 1 None None.

Definition entry0 : entry := Entry "forward" "clear" ["u"; "v"]%string.

(** Ranks 0 and 1 hosting tags (0, 0) and (1, 0). *)
Definition engines0 : list (Z * list tag) := [(0, [(0, 0)]); (1, [(1, 0)])].

Definition remote_mpi : remote := Remote true engines0.
Definition remote_star : remote := Remote false engines0.

(** [slice(0, 1)]. *)
Definition isrcs0 : pyslice := Slice (Some 0) (Some 1) None.

(** A problem with two chunks per worker, and one that asks for the
    ensemble ending as well. *)
Definition problem_two : problem := Problem 1 (Some 2) None.
Definition problem_ensemble : problem := Problem 1 (Some 2) (Some true).

(** Ranks 0 and 1 both hosting tag (0, 0). *)
Definition engines_shared : list (Z * list tag) := [(0, [(0, 0)]); (1, [(0, 0)])].
Definition remote_shared : remote := Remote false engines_shared.

(** [slice(0, 10)]. *)
Definition isrcs10 : pyslice := Slice (Some 0) (Some 10) None.

End SystemSolver.

(** * Properties of the Endpoint *)

Module EndpointFacts.
Import Py Endpoint.
Local Open Scope py_scope.

Section Fields.
Context {Container Survey Problem : Type}.
Implicit Types e : Endpoint.t Container Survey Problem.
Implicit Types fs : gmap string (unit -> Container).

Lemma same_but_fields_refl e : same_but_fields e e.
Proof. repeat split. Qed.

(** The construction loop over names that all occur in [fieldspec]: it
    cannot raise, and each listed name ends up freshly constructed. *)
Lemma construct_loop fs (l : list string) : forall e,
  (forall fn, fn ∈ l -> is_Some (fs !! fn)) ->
  exists e', for_ l (construct_field fs) e = (Val tt, e') /\
    same_but_fields e e' /\
    forall fn, localFields e' !! fn =
               if decide (fn ∈ l) then (fun c => c tt) <$> fs !! fn
               else localFields e !! fn.
Proof.
  induction l as [|a l IH]; intros e Hin.
  - exists e. split; [reflexivity|]. split; [apply same_but_fields_refl|].
    intros fn. rewrite decide_False; [reflexivity|]. apply not_elem_of_nil.
  - destruct (Hin a) as [c Hc]; [left|].
    pose (e1 := set_localFields (<[a := c tt]> (localFields e)) e).
    destruct (IH e1) as (e' & Hrun & Hsame & Hlk).
    { intros fn Hfn. apply Hin. by right. }
    exists e'. split; [|split].
    + cbn [for_]. unfold bind at 1. unfold construct_field at 1.
      unfold bind, getitem, modify, ret. rewrite Hc. exact Hrun.
    + unfold same_but_fields in *. subst e1. simpl in Hsame. tauto.
    + intros fn. rewrite Hlk. subst e1. simpl.
      destruct (decide (fn ∈ l)) as [Hl|Hl].
      * rewrite decide_True; [reflexivity|by right].
      * destruct (decide (fn = a)) as [->|Hne].
        -- rewrite decide_True; [|left]. by rewrite lookup_insert_eq, Hc.
        -- rewrite decide_False.
           ++ by rewrite lookup_insert_ne.
           ++ intros [?|?]%elem_of_cons; contradiction.
Qed.

Lemma elem_of_keys fs fn : fn ∈ keys fs <-> is_Some (fs !! fn).
Proof.
  unfold keys. rewrite list_elem_of_fmap. split.
  - intros [[k c] [-> Hkc]]. apply elem_of_map_to_list in Hkc. by exists c.
  - intros [c Hc]. exists (fn, c). split; [reflexivity|].
    by apply elem_of_map_to_list.
Qed.

(** Looping over every key of [fieldspec]. *)
Lemma construct_all fs e :
  exists e', for_ (keys fs) (construct_field fs) e = (Val tt, e') /\
    same_but_fields e e' /\
    (forall fn ctor, fs !! fn = Some ctor ->
                     localFields e' !! fn = Some (ctor tt)) /\
    (forall fn, fs !! fn = None -> localFields e' !! fn = localFields e !! fn).
Proof.
  destruct (construct_loop fs (keys fs) e) as (e' & Hrun & Hsame & Hlk).
  { intros fn. apply elem_of_keys. }
  exists e'. repeat split; try apply Hsame; try exact Hrun.
  - intros fn ctor Hfn. rewrite Hlk, decide_True.
    + by rewrite Hfn.
    + apply elem_of_keys. by exists ctor.
  - intros fn Hfn. rewrite Hlk, decide_False; [reflexivity|].
    rewrite elem_of_keys, Hfn. by intros [? ?].
Qed.

(** C10. With a non-null [fieldspec], [setupLocalFields([])] returns
    normally and constructs a fresh container for every name of
    [fieldspec] (the empty list is falsy, so the loop runs over
    [fieldspec] exactly as for an omitted argument), while every entry of
    [localFields] whose name is not in [fieldspec] survives; the
    no-argument call constructs the same containers but has cleared
    [localFields] first, so there those other entries are gone. *)
Theorem setupLocalFields_empty_list e fs :
  fieldspec e = Some fs ->
  (exists e',
      setupLocalFields (Some []) e = (Val tt, e') /\
      same_but_fields e e' /\
      (forall fn ctor, fs !! fn = Some ctor ->
                       localFields e' !! fn = Some (ctor tt)) /\
      (forall fn, fs !! fn = None ->
                  localFields e' !! fn = localFields e !! fn)) /\
  (exists e0,
      setupLocalFields None e = (Val tt, e0) /\
      same_but_fields e e0 /\
      (forall fn ctor, fs !! fn = Some ctor ->
                       localFields e0 !! fn = Some (ctor tt)) /\
      (forall fn, fs !! fn = None -> localFields e0 !! fn = None)).
Proof.
  intros Hfs. split.
  - destruct (construct_all fs e) as (e' & Hrun & Hrest).
    exists e'. split; [|exact Hrest].
    unfold setupLocalFields, bind, ret, get. rewrite Hfs. exact Hrun.
  - destruct (construct_all fs (set_localFields ∅ e))
      as (e0 & Hrun & Hsame & Hin & Hout).
    exists e0. split; [|split; [|split]].
    + unfold setupLocalFields, bind, modify, get. simpl. rewrite Hfs.
      exact Hrun.
    + unfold same_but_fields in *. simpl in Hsame. tauto.
    + exact Hin.
    + intros fn Hfn. rewrite (Hout fn Hfn). simpl. apply lookup_empty.
Qed.

End Fields.

Section Problems.
Context {Container Survey Problem : Type}.
Variable pair : Problem -> Survey -> option Problem.
Implicit Types e : Endpoint.t Container Survey Problem.

(** C8, as the code has it. When the survey exists and pairing succeeds,
    [setupLocalProblem] returns normally and stores the new subproblem
    under [subConfig['tag']] by plain assignment: whatever was registered
    under that tag before is replaced, every other tag is untouched. *)
Theorem setupLocalProblem_last_write_wins e subConfig isub tag survey p :
  subConfig !! "isub"%string = Some (CVal isub) ->
  subConfig !! "tag"%string = Some (CVal tag) ->
  localSurveys e !! isub = Some survey ->
  pair (problemFactory e (systemConfig_of e subConfig)) survey = Some p ->
  exists e',
    setupLocalProblem pair subConfig e = (Val tt, e') /\
    localProblems e' = <[tag := p]> (localProblems e) /\
    localProblems e' !! tag = Some p /\
    (forall tag', tag' ≠ tag ->
                  localProblems e' !! tag' = localProblems e !! tag').
Proof.
  intros Hisub Htag Hsurvey Hpair.
  exists (set_localProblems (<[tag := p]> (localProblems e)) e).
  split; [|split; [|split]].
  - unfold setupLocalProblem, bind, get, hashable, getitem, ret, modify.
    rewrite Hisub. simpl. rewrite Hsurvey. simpl.
    rewrite Hpair, Htag. reflexivity.
  - reflexivity.
  - simpl. apply lookup_insert_eq.
  - intros tag' Hne. simpl. by apply lookup_insert_ne.
Qed.

End Problems.

(** The theorem above at the concrete worker: the first registration of
    tag (0, 0). *)
Lemma setupLocalProblem_last_write_wins_witness :
  exists e',
    setupLocalProblem pair0 subConfig_a endpoint0 = (Val tt, e') /\
    localProblems e' =
      <[PPair 0 0 := (systemConfig_of endpoint0 subConfig_a, Some ∅)]>
        (localProblems endpoint0) /\
    localProblems e' !! PPair 0 0 =
      Some (systemConfig_of endpoint0 subConfig_a, Some ∅) /\
    (forall tag', tag' ≠ PPair 0 0 ->
                  localProblems e' !! tag' = localProblems endpoint0 !! tag').
Proof.
  apply (setupLocalProblem_last_write_wins pair0 endpoint0 subConfig_a
           (PInt 0) (PPair 0 0) ∅); reflexivity.
Defined.

(** C8, as the specification states it, fails: registering tag (0, 0) a second
    time with another configuration returns normally and replaces the
    stored subproblem. *)
Lemma setupLocalProblem_replaces_registered_tag :
  ~ never_registered_twice (Container := list Z) pair0.
Proof.
  intros H.
  pose (e1 := (setupLocalProblem pair0 subConfig_a endpoint0).2).
  pose (e2 := (setupLocalProblem pair0 subConfig_b e1).2).
  specialize (H e1 e2 subConfig_b (PPair 0 0)).
  assert (Heq : localProblems e2 !! PPair 0 0 = localProblems e1 !! PPair 0 0).
  { apply H.
    - reflexivity.
    - eexists. vm_compute. reflexivity.
    - reflexivity. }
  apply (f_equal (fun o => p ← o; p.1 !! "freq"%string)) in Heq.
  vm_compute in Heq. discriminate Heq.
Qed.

(** C10 at the concrete worker, whose [localFields] holds an entry
    ["stale"] that [fieldspec] does not name. *)
Lemma setupLocalFields_empty_list_witness :
  (exists e',
      setupLocalFields (Some []) endpoint0 = (Val tt, e') /\
      same_but_fields endpoint0 e' /\
      (forall fn ctor, ({[ "u"%string := (fun _ : unit => @nil Z) ]}
                          : gmap string (unit -> list Z)) !! fn = Some ctor ->
                       localFields e' !! fn = Some (ctor tt)) /\
      (forall fn, ({[ "u"%string := (fun _ : unit => @nil Z) ]}
                     : gmap string (unit -> list Z)) !! fn = None ->
                  localFields e' !! fn = localFields endpoint0 !! fn)) /\
  (exists e0,
      setupLocalFields None endpoint0 = (Val tt, e0) /\
      same_but_fields endpoint0 e0 /\
      (forall fn ctor, ({[ "u"%string := (fun _ : unit => @nil Z) ]}
                          : gmap string (unit -> list Z)) !! fn = Some ctor ->
                       localFields e0 !! fn = Some (ctor tt)) /\
      (forall fn, ({[ "u"%string := (fun _ : unit => @nil Z) ]}
                     : gmap string (unit -> list Z)) !! fn = None ->
                  localFields e0 !! fn = None)).
Proof.
  apply (setupLocalFields_empty_list endpoint0). reflexivity.
Defined.

End EndpointFacts.
(** * Properties of the scheduler *)

Module SystemSolverFacts.
Import Py LView SystemSolver.
Local Open Scope py_scope.

(** ** Work partitioning *)

Lemma xrange_length (n : Z) : length (xrange n) = Z.to_nat n.
Proof. unfold xrange. by rewrite length_map, length_seq. Qed.

Lemma xrange_lookup (n i : Z) :
  0 <= i < n -> xrange n !! Z.to_nat i = Some i.
Proof.
  intros Hi. unfold xrange. rewrite list_lookup_fmap.
  rewrite lookup_seq_lt by lia. simpl. f_equal. lia.
Qed.

(** The [i]-th boundary of the partition of [[a, a + W)] in [c] chunks. *)
Definition boundary (a W c i : Z) : Z := a + i * W / c.

Lemma boundary_first a W c : boundary a W c 0 = a.
Proof. unfold boundary. rewrite Z.mul_0_l, Zdiv_0_l. lia. Qed.

Lemma boundary_last a W c : 1 <= c -> boundary a W c c = a + W.
Proof.
  intros Hc. unfold boundary.
  rewrite (Z.mul_comm c W), Z.div_mul by lia. reflexivity.
Qed.

Lemma boundary_mono a W c i j :
  1 <= c -> 0 <= W -> i <= j -> boundary a W c i <= boundary a W c j.
Proof.
  intros Hc HW Hij. unfold boundary.
  apply Zplus_le_compat_l, Z.div_le_mono; [lia|]. nia.
Qed.

(** Every point of the range falls in some chunk ... *)
Lemma boundary_cover a W c x :
  1 <= c -> 0 <= W -> a <= x < a + W ->
  exists i, 0 <= i < c /\ boundary a W c i <= x < boundary a W c (i + 1).
Proof.
  intros Hc HW Hx.
  assert (Hn : forall n : nat, Z.of_nat n <= c ->
             x < boundary a W c (Z.of_nat n) ->
             exists i, 0 <= i < Z.of_nat n /\
                       boundary a W c i <= x < boundary a W c (i + 1)).
  { induction n as [|n IH]; intros Hle Hlt.
    - rewrite boundary_first in Hlt. lia.
    - destruct (Z_lt_le_dec x (boundary a W c (Z.of_nat n))) as [Hlo|Hhi].
      + destruct IH as (i & Hi & Hin); [lia|exact Hlo|].
        exists i. split; [lia|exact Hin].
      + exists (Z.of_nat n). split; [lia|].
        replace (Z.of_nat n + 1) with (Z.of_nat (S n)) by lia. lia. }
  destruct (Hn (Z.to_nat c)) as (i & Hi & Hin).
  - lia.
  - rewrite Z2Nat.id by lia. rewrite boundary_last by lia. lia.
  - exists i. split; [lia|exact Hin].
Qed.

(** ... and in one chunk only. *)
Lemma boundary_disjoint a W c x i j :
  1 <= c -> 0 <= W ->
  boundary a W c i <= x < boundary a W c (i + 1) ->
  boundary a W c j <= x < boundary a W c (j + 1) ->
  i = j.
Proof.
  intros Hc HW Hi Hj.
  destruct (Z.lt_trichotomy i j) as [Hlt|[Heq|Hgt]]; [|exact Heq|].
  - pose proof (boundary_mono a W c (i + 1) j Hc HW ltac:(lia)). lia.
  - pose proof (boundary_mono a W c (j + 1) i Hc HW ltac:(lia)). lia.
Qed.

(** C6, as the code has it. For a slice with an upper end and [c >= 1]
    chunks, [_subSlice] returns exactly [c] sub-slices; the [i]-th one is
    [[start + floor(i * W / c), start + floor((i + 1) * W / c))] with
    [W = stop - start] (integer division, not rounding), so consecutive
    sub-slices share their boundary, the first starts at [start] and the
    last stops at [stop]; when [W >= 0] every index of [[start, stop)]
    lies in exactly one sub-slice. *)
Theorem subSlice_floor_boundaries {S} (s0 : S) (insl : pyslice) (b c : Z) :
  stop insl = Some b ->
  1 <= c ->
  let a := default 0 (start insl) in
  let W := b - a in
  exists works,
    _subSlice insl c s0 = (Val works, s0) /\
    length works = Z.to_nat c /\
    (forall i, 0 <= i < c ->
       works !! Z.to_nat i
       = Some (Slice (Some (a + i * W / c)) (Some (a + (i + 1) * W / c)) None)) /\
    a + 0 * W / c = a /\
    a + c * W / c = b /\
    (0 <= W -> forall x, a <= x < b ->
       exists i, (0 <= i < c /\ a + i * W / c <= x < a + (i + 1) * W / c) /\
                 forall j, a + j * W / c <= x < a + (j + 1) * W / c -> j = i).
Proof.
  intros Hstop Hc a W.
  eexists. split; [|split; [|split; [|split; [|split]]]].
  - unfold _subSlice. rewrite Hstop. unfold ret. reflexivity.
  - by rewrite length_map, xrange_length.
  - intros i Hi. rewrite list_lookup_fmap, xrange_lookup by lia.
    subst a W. by destruct (start insl).
  - apply (boundary_first a W c).
  - pose proof (boundary_last a W c Hc) as Hl. unfold boundary in Hl. lia.
  - intros HW x Hx.
    destruct (boundary_cover a W c x Hc HW ltac:(lia)) as (i & Hi & Hin).
    exists i. split; [split; [exact Hi|exact Hin]|].
    intros j Hj. exact (boundary_disjoint a W c x j i Hc HW Hj Hin).
Qed.

(** The partition of [slice(0, 10)] in 4 chunks. *)
Lemma subSlice_floor_boundaries_witness :
  exists works,
    _subSlice (Slice None (Some 10) None) 4 tt = (Val works, tt) /\
    length works = 4%nat /\
    (forall i, 0 <= i < 4 ->
       works !! Z.to_nat i
       = Some (Slice (Some (0 + i * (10 - 0) / 4))
                     (Some (0 + (i + 1) * (10 - 0) / 4)) None)) /\
    0 + 0 * (10 - 0) / 4 = 0 /\
    0 + 4 * (10 - 0) / 4 = 10 /\
    (0 <= 10 - 0 -> forall x, 0 <= x < 10 ->
       exists i, (0 <= i < 4 /\
                  0 + i * (10 - 0) / 4 <= x < 0 + (i + 1) * (10 - 0) / 4) /\
                 forall j, 0 + j * (10 - 0) / 4 <= x < 0 + (j + 1) * (10 - 0) / 4 ->
                           j = i).
Proof.
  apply (subSlice_floor_boundaries tt (Slice None (Some 10) None) 10 4).
  - reflexivity.
  - lia.
Defined.

(** C6, as the specification states it, fails: [slice(0, 10)] in 3 chunks is cut
    at 3 and 6 by the code, where rounding 20/3 would cut at 7. *)
Lemma subSlice_boundaries_not_rounded : ~ rounded_boundaries.
Proof.
  intros H. specialize (H 0 10 3 ltac:(lia)).
  vm_compute in H. discriminate H.
Qed.

(** ** What the scheduler submits *)

Section Emits.
Context (P : task -> Prop).

Lemma emits_ret {A} (a : A) : emits P (ret a).
Proof. intros log. exists []. by rewrite app_nil_r. Qed.

Lemma emits_raise {A} (e : exn) : emits P (raise (A := A) e).
Proof. intros log. exists []. by rewrite app_nil_r. Qed.

Lemma emits_bind {A B} (m : M view A) (k : A -> M view B) :
  emits P m -> (forall a, emits P (k a)) -> emits P (bind m k).
Proof.
  intros Hm Hk log. destruct (Hm log) as (ts & Hlog & Hts).
  unfold bind. destruct (m log) as [[a|e] log1]; simpl in *; subst log1.
  - destruct (Hk a (log ++ ts)) as (ts' & Hlog' & Hts').
    exists (ts ++ ts'). rewrite Hlog', app_assoc. split; [done|].
    by apply Forall_app.
  - by exists ts.
Qed.

Lemma emits_apply fl c : P (Task c fl) -> emits P (apply fl c).
Proof. intros HP log. exists [Task c fl]. split; [done|]. by constructor. Qed.

Lemma emits_map_ fl cs :
  (forall c, c ∈ cs -> P (Task c fl)) -> emits P (map_ fl cs).
Proof.
  intros HP log. exists (map (fun c => Task c fl) cs). split; [done|].
  apply Forall_forall. intros t [c [-> Hc]]%list_elem_of_fmap. by apply HP.
Qed.

End Emits.

Lemma returns_ret {A} (a : A) : returns (ret a).
Proof. intros log. by exists a, log. Qed.

Lemma returns_bind {A B} (m : M view A) (k : A -> M view B) :
  returns m -> (forall a, returns (k a)) -> returns (bind m k).
Proof.
  intros Hm Hk log. destruct (Hm log) as (a & log1 & Hrun).
  unfold bind. rewrite Hrun. apply Hk.
Qed.

Lemma returns_apply fl c : returns (apply fl c).
Proof. intros log. by eexists _, _. Qed.

Lemma returns_map_ fl cs : returns (map_ fl cs).
Proof. intros log. by eexists _, _. Qed.

Lemma returns_let3 {A B C D} (r : A * B * C) (k : A -> B -> C -> M view D) :
  (forall a b c, returns (k a b c)) ->
  returns (let '(a, b, c) := r in k a b c).
Proof. intros Hk. destruct r as [[a b] c]. apply Hk. Qed.

Lemma emits_let3 {A B C D} P (r : A * B * C) (k : A -> B -> C -> M view D) :
  (forall a b c, emits P (k a b c)) ->
  emits P (let '(a, b, c) := r in k a b c).
Proof. intros Hk. destruct r as [[a b] c]. apply Hk. Qed.

(** The three submission loops and the partitioner. *)

Section Loops.
Context (P : task -> Prop).
Hypothesis P_solve : forall fn t work, P (Task (Solve fn t work) no_flags).
Hypothesis P_clear : forall fn t rank fl, P (Task (Clear fn t rank) fl).

Lemma subSlice_emits insl chunks : emits P (_subSlice insl chunks).
Proof.
  unfold _subSlice. destruct (stop insl); [apply emits_ret|apply emits_raise].
Qed.

Lemma submit_compute_emits fn t tagNode works : forall iworks G,
  emits P (submit_compute fn t tagNode works iworks G).
Proof.
  induction works as [|work works IH]; intros iworks G; simpl.
  - apply emits_ret.
  - apply emits_bind; [apply emits_apply, P_solve|]. intros job.
    apply emits_bind; [apply IH|]. intros r.
    apply emits_let3. intros. apply emits_ret.
Qed.

Lemma submit_clear_ensemble_emits fn t tagNode systemJobs relIDs : forall G,
  emits P (submit_clear_ensemble fn t tagNode systemJobs relIDs G).
Proof.
  induction relIDs as [|rank relIDs IH]; intros G; simpl.
  - apply emits_ret.
  - apply emits_bind; [apply emits_apply, P_clear|]. intros job.
    apply emits_bind; [apply IH|]. intros r.
    apply emits_let3. intros. apply emits_ret.
Qed.

Lemma submit_clear_individual_emits fn t systemJobs : forall i systemNodes G,
  emits P (submit_clear_individual fn t i systemJobs systemNodes G).
Proof.
  induction systemJobs as [|sjob systemJobs IH]; intros i systemNodes G; simpl.
  - apply emits_ret.
  - destruct systemNodes as [|node systemNodes]; [apply emits_ret|].
    apply emits_bind; [apply emits_apply, P_clear|]. intros job.
    apply emits_bind; [apply IH|]. intros r.
    apply emits_let3. intros. apply emits_ret.
Qed.

Lemma schedule_tag_emits p r e isrcs a t : emits P (schedule_tag p r e isrcs a t).
Proof.
  unfold schedule_tag.
  apply emits_bind; [apply subSlice_emits|]. intros works.
  apply emits_bind; [apply submit_compute_emits|]. intros c.
  apply emits_let3. intros G systemJobs systemNodes.
  apply emits_bind.
  - destruct (default false (ensembleClear p)).
    + apply submit_clear_ensemble_emits.
    + apply submit_clear_individual_emits.
  - intros w. apply emits_let3. intros. apply emits_ret.
Qed.

Lemma schedule_tags_emits p r e isrcs tags : forall a,
  emits P (schedule_tags p r e isrcs tags a).
Proof.
  induction tags as [|t tags IH]; intros a; simpl.
  - apply emits_ret.
  - apply emits_bind; [apply schedule_tag_emits|]. intros a'. apply IH.
Qed.

End Loops.

Lemma submit_compute_returns fn t tagNode works : forall iworks G,
  returns (submit_compute fn t tagNode works iworks G).
Proof.
  induction works as [|work works IH]; intros iworks G; simpl.
  - apply returns_ret.
  - apply returns_bind; [apply returns_apply|]. intros job.
    apply returns_bind; [apply IH|]. intros r.
    apply returns_let3. intros. apply returns_ret.
Qed.

Lemma submit_clear_ensemble_returns fn t tagNode systemJobs relIDs : forall G,
  returns (submit_clear_ensemble fn t tagNode systemJobs relIDs G).
Proof.
  induction relIDs as [|rank relIDs IH]; intros G; simpl.
  - apply returns_ret.
  - apply returns_bind; [apply returns_apply|]. intros job.
    apply returns_bind; [apply IH|]. intros r.
    apply returns_let3. intros. apply returns_ret.
Qed.

Lemma submit_clear_individual_returns fn t systemJobs : forall i systemNodes G,
  returns (submit_clear_individual fn t i systemJobs systemNodes G).
Proof.
  induction systemJobs as [|sjob systemJobs IH]; intros i systemNodes G; simpl.
  - apply returns_ret.
  - destruct systemNodes as [|node systemNodes]; [apply returns_ret|].
    apply returns_bind; [apply returns_apply|]. intros job.
    apply returns_bind; [apply IH|]. intros r.
    apply returns_let3. intros. apply returns_ret.
Qed.

(** With an upper end on the source slice the loop over the tags runs to
    its end. *)
Lemma schedule_tags_returns p r e isrcs b tags : forall a,
  stop isrcs = Some b -> returns (schedule_tags p r e isrcs tags a).
Proof.
  induction tags as [|t tags IH]; intros a Hstop; simpl.
  - apply returns_ret.
  - apply returns_bind; [|intros a'; by apply IH].
    unfold schedule_tag. apply returns_bind.
    { unfold _subSlice. rewrite Hstop. apply returns_ret. }
    intros works. apply returns_bind; [apply submit_compute_returns|].
    intros c. apply returns_let3. intros G systemJobs systemNodes.
    apply returns_bind.
    + destruct (default false (ensembleClear p)).
      * apply submit_clear_ensemble_returns.
      * apply submit_clear_individual_returns.
    + intros w. apply returns_let3. intros. apply returns_ret.
Qed.

(** Without one, the first tag already fails in the partitioner, before
    anything is submitted. *)
Lemma schedule_tags_no_stop p r e isrcs t tags a log :
  stop isrcs = None ->
  schedule_tags p r e isrcs (t :: tags) a log
  = (Exc (TypeError "unsupported operand type(s) for -: 'NoneType' and 'int'"),
     log).
Proof.
  intros Hstop. simpl. unfold bind at 1. unfold schedule_tag.
  unfold bind at 1. unfold _subSlice. rewrite Hstop. reflexivity.
Qed.

(** ** What one tag contributes to the log *)

Lemma seq_shift_map {B} (f : nat -> B) (k n : nat) :
  map f (seq (S k) n) = map (fun i => f (S i)) (seq k n).
Proof. by rewrite <- seq_shift, map_map. Qed.

Lemma jobs_shift (log : list task) (x : task) (n : nat) :
  map (fun i => [length (log ++ [x]) + i]%nat) (seq 0 n)
  = map (fun i => [length log + S i]%nat) (seq 0 n).
Proof.
  apply map_ext. intros i. rewrite length_app. simpl. f_equal. lia.
Qed.

Lemma submit_compute_run fn t tagNode works : forall iworks G log,
  exists G' nodes,
    submit_compute fn t tagNode works iworks G log
    = (Val (G', map (fun i => [length log + i]%nat) (seq 0 (length works)),
            nodes),
       log ++ map (fun w => Task (Solve fn t w) no_flags) works) /\
    length nodes = length works.
Proof.
  induction works as [|work works IH]; intros iworks G log.
  - eexists _, []. simpl. by rewrite app_nil_r.
  - cbn [submit_compute]. change (slice_truth work) with true. cbv iota.
    unfold bind at 1, apply at 1.
    edestruct IH as (G' & nodes & Hrun & Hlen).
    unfold bind at 1. rewrite Hrun. unfold ret.
    eexists _, (_ :: nodes). split; [|simpl; by rewrite Hlen].
    cbn [length seq map]. rewrite seq_shift_map, <- app_assoc.
    rewrite Nat.add_0_r, jobs_shift. reflexivity.
Qed.

Lemma submit_clear_individual_run fn t systemJobs :
  forall i systemNodes G log,
  length systemNodes = length systemJobs ->
  exists G' ends,
    submit_clear_individual fn t i systemJobs systemNodes G log
    = (Val (G', map (fun k => [length log + k]%nat)
                    (seq 0 (length systemJobs)), ends),
       log ++ map (fun sjob => Task (Clear fn t None) (Flags sjob sjob))
                  systemJobs).
Proof.
  induction systemJobs as [|sjob systemJobs IH];
    intros i systemNodes G log Hlen.
  - destruct systemNodes; [|discriminate].
    eexists _, []. simpl. by rewrite app_nil_r.
  - destruct systemNodes as [|node systemNodes]; [discriminate|].
    cbn [submit_clear_individual]. unfold bind at 1, apply at 1.
    edestruct IH as (G' & ends & Hrun).
    { simpl in Hlen. injection Hlen as Hlen. exact Hlen. }
    unfold bind at 1. rewrite Hrun. unfold ret.
    eexists _, _.
    cbn [length seq map]. rewrite seq_shift_map, <- app_assoc.
    rewrite Nat.add_0_r, jobs_shift. reflexivity.
Qed.

Lemma submit_clear_ensemble_run fn t tagNode systemJobs relIDs :
  forall G log,
  exists G' ends,
    submit_clear_ensemble fn t tagNode systemJobs relIDs G log
    = (Val (G', map (fun k => [length log + k]%nat) (seq 0 (length relIDs)),
            ends),
       log ++ map (fun rank => Task (Clear fn t (Some rank))
                                    (Flags (msg_ids systemJobs) []))
                  relIDs).
Proof.
  induction relIDs as [|rank relIDs IH]; intros G log.
  - eexists _, []. simpl. by rewrite app_nil_r.
  - cbn [submit_clear_ensemble]. unfold bind at 1, apply at 1.
    edestruct IH as (G' & ends & Hrun).
    unfold bind at 1. rewrite Hrun. unfold ret.
    eexists _, _.
    cbn [length seq map]. rewrite seq_shift_map, <- app_assoc.
    rewrite Nat.add_0_r, jobs_shift. reflexivity.
Qed.

(** The message ids behind a run of single-task jobs. *)
Lemma msg_ids_singletons (base n : nat) :
  msg_ids (map (fun i => [base + i]%nat) (seq 0 n)) = seq base n.
Proof.
  unfold msg_ids. revert base. induction n as [|n IH]; intros base; [done|].
  cbn [seq map concat]. rewrite seq_shift_map.
  rewrite Nat.add_0_r. simpl. f_equal.
  rewrite <- (IH (S base)). f_equal. apply map_ext. intros i. f_equal. lia.
Qed.

(** *** The clear tasks and their message ids *)

Lemma clear_ids_app (l1 l2 : list task) : forall base,
  clear_ids base (l1 ++ l2)
  = clear_ids base l1 ++ clear_ids (base + length l1) l2.
Proof.
  induction l1 as [|t l1 IH]; intros base; simpl.
  - by rewrite Nat.add_0_r.
  - rewrite IH. replace (S base + length l1)%nat with (base + S (length l1))%nat
      by lia.
    by destruct (t_call t).
Qed.

Lemma clear_ids_solves fn t (works : list pyslice) : forall base,
  clear_ids base (map (fun w => Task (Solve fn t w) no_flags) works) = [].
Proof. induction works as [|w works IH]; intros base; simpl; [done|apply IH]. Qed.

Lemma clear_ids_clears {A} (f : A -> task) (l : list A) : forall base,
  (forall x, exists fn t rank, t_call (f x) = Clear fn t rank) ->
  clear_ids base (map f l) = seq base (length l).
Proof.
  induction l as [|x l IH]; intros base Hf; simpl; [done|].
  destruct (Hf x) as (fn & t & rank & ->). by rewrite IH.
Qed.

Lemma msg_ids_app (js1 js2 : list (list nat)) :
  msg_ids (js1 ++ js2) = msg_ids js1 ++ msg_ids js2.
Proof. apply concat_app. Qed.

(** One tag, for a source slice with an upper end: the loop body
    returns, and the clear jobs it adds are the clear tasks it
    submitted. *)
Lemma schedule_tag_clear_ids p r e isrcs a t b log :
  stop isrcs = Some b ->
  exists a' ts,
    schedule_tag p r e isrcs a t log = (Val a', log ++ ts) /\
    msg_ids (clearJobs a')
    = msg_ids (clearJobs a) ++ clear_ids (length log) ts.
Proof.
  intros Hstop. unfold schedule_tag. unfold bind at 1.
  unfold _subSlice at 1. rewrite Hstop. unfold ret at 1.
  edestruct (submit_compute_run (solve e) t) as (G1 & nodes & Hc & Hnodes).
  unfold bind at 1. rewrite Hc.
  destruct (default false (ensembleClear p)).
  - edestruct (submit_clear_ensemble_run (clear e) t) as (G2 & ends & Hw).
    unfold bind at 1. rewrite Hw. unfold ret.
    eexists _, _. split; [by rewrite <- app_assoc|].
    simpl. rewrite msg_ids_app, msg_ids_singletons, clear_ids_app.
    rewrite clear_ids_solves. simpl. f_equal.
    rewrite clear_ids_clears by (intros rank; by eexists _, _, _).
    by rewrite length_app.
  - edestruct (submit_clear_individual_run (clear e) t) as (G2 & ends & Hw);
      [|unfold bind at 1; rewrite Hw].
    { by rewrite length_map, length_seq. }
    unfold ret.
    eexists _, _. split; [by rewrite <- app_assoc|].
    simpl. rewrite msg_ids_app, msg_ids_singletons, clear_ids_app.
    rewrite clear_ids_solves. simpl. f_equal.
    rewrite clear_ids_clears by (intros sjob; by eexists _, _, _).
    by rewrite length_app.
Qed.

(** The same for the whole loop over the tags. *)
Lemma schedule_tags_clear_ids p r e isrcs b tags : forall a log,
  stop isrcs = Some b ->
  exists a' ts,
    schedule_tags p r e isrcs tags a log = (Val a', log ++ ts) /\
    msg_ids (clearJobs a')
    = msg_ids (clearJobs a) ++ clear_ids (length log) ts.
Proof.
  induction tags as [|t tags IH]; intros a log Hstop; simpl.
  - exists a, []. by rewrite !app_nil_r.
  - destruct (schedule_tag_clear_ids p r e isrcs a t b log Hstop)
      as (a1 & ts1 & Hrun1 & Hids1).
    destruct (IH a1 (log ++ ts1) Hstop) as (a2 & ts2 & Hrun2 & Hids2).
    exists a2, (ts1 ++ ts2). unfold bind. rewrite Hrun1, Hrun2.
    split; [by rewrite app_assoc|].
    rewrite Hids2, Hids1, clear_ids_app, length_app, app_assoc. reflexivity.
Qed.

(** ** The reduction loop *)

Lemma submit_reductions_star r labels : useMPI r = false ->
  forall after jobs log,
    submit_reductions r labels after jobs log = (Val jobs, log).
Proof.
  intros Hstar. induction labels as [|label labels IH]; intros after jobs log.
  - reflexivity.
  - simpl. unfold bind, RemoteInterface.reduceLB. rewrite Hstar. simpl.
    apply IH.
Qed.

Lemma submit_reductions_mpi r labels : useMPI r = true ->
  forall after jobs log,
    submit_reductions r labels after jobs log
    = (Val (jobs ++ reduce_jobs (length (engines r)) (length labels) (length log)),
       log ++ reduce_tasks (length (engines r)) labels after (length log)).
Proof.
  intros Hmpi. induction labels as [|label labels IH]; intros after jobs log.
  - simpl. by rewrite !app_nil_r.
  - simpl. unfold bind at 1. unfold RemoteInterface.reduceLB. rewrite Hmpi.
    unfold bind at 1. unfold map_, ret.
    rewrite IH. rewrite !length_app, !length_map, !xrange_length, !Nat2Z.id.
    simpl. by rewrite <- !app_assoc, map_map.
Qed.

Lemma reduce_tasks_length n labels : forall after base,
  length (reduce_tasks n labels after base) = (length labels * n)%nat.
Proof.
  induction labels as [|label labels IH]; intros after base; simpl; [done|].
  by rewrite length_app, length_map, xrange_length, Nat2Z.id, IH.
Qed.

(** The [i]-th task of the [k]-th reduction. *)
Lemma reduce_tasks_lookup n labels : forall after base k label i,
  labels !! k = Some label -> (i < n)%nat ->
  reduce_tasks n labels after base !! (k * n + i)%nat
  = Some (Task (ReduceJob (Z.of_nat i) 0 label)
               (Flags (match k with
                       | O => after
                       | S k' => seq (base + k' * n) n
                       end) [])).
Proof.
  induction labels as [|l labels IH]; intros after base k label i Hk Hi.
  - by destruct k.
  - destruct k as [|k]; simpl in *.
    + inversion Hk; subst l. rewrite lookup_app_l.
      2:{ rewrite length_map, xrange_length. lia. }
      rewrite list_lookup_fmap.
      replace i with (Z.to_nat (Z.of_nat i)) at 1 by lia.
      rewrite xrange_lookup by lia. reflexivity.
    + rewrite lookup_app_r.
      2:{ rewrite length_map, xrange_length. lia. }
      rewrite length_map, xrange_length, Nat2Z.id.
      replace (n + k * n + i - n)%nat with (k * n + i)%nat by lia.
      rewrite (IH (seq base n) (base + n)%nat k label i Hk Hi).
      destruct k as [|k]; do 4 f_equal; lia.
Qed.

Lemma reduce_jobs_map n m : forall base,
  reduce_jobs n m base = map (fun k => seq (base + k * n) n) (seq 0 m).
Proof.
  induction m as [|m IH]; intros base; simpl; [done|].
  rewrite IH. f_equal; [f_equal; lia|].
  rewrite <- seq_shift, map_map. apply map_ext. intros k. f_equal. lia.
Qed.

(** ** The End node *)

Lemma update_no_attrs old : SystemGraph.update old SystemGraph.no_attrs = old.
Proof. by destruct old. Qed.

Lemma add_node_no_attrs_jobs n x G :
  SystemGraph.jobs_of x (SystemGraph.add_node n SystemGraph.no_attrs G)
  = SystemGraph.jobs_of x G.
Proof.
  unfold SystemGraph.jobs_of, SystemGraph.add_node. simpl.
  rewrite update_no_attrs. destruct (decide (n = x)) as [->|Hne].
  - rewrite lookup_insert_eq. by destruct (SystemGraph.nodes G !! x).
  - by rewrite lookup_insert_ne.
Qed.

Lemma add_edge_jobs u v x G :
  SystemGraph.jobs_of x (SystemGraph.add_edge u v G) = SystemGraph.jobs_of x G.
Proof.
  unfold SystemGraph.add_edge.
  change (SystemGraph.jobs_of x
            (SystemGraph.add_node v SystemGraph.no_attrs
               (SystemGraph.add_node u SystemGraph.no_attrs G))
          = SystemGraph.jobs_of x G).
  by rewrite !add_node_no_attrs_jobs.
Qed.

Lemma fold_add_edge_jobs v x ns : forall G,
  SystemGraph.jobs_of x
    (fold_left (fun G node => SystemGraph.add_edge node v G) ns G)
  = SystemGraph.jobs_of x G.
Proof.
  induction ns as [|n ns IH]; intros G; simpl; [done|].
  by rewrite IH, add_edge_jobs.
Qed.

Lemma add_node_jobs n js sl tg rk G :
  SystemGraph.jobs_of n
    (SystemGraph.add_node n (SystemGraph.Attrs (Some js) sl tg rk) G) = Some js.
Proof.
  unfold SystemGraph.jobs_of, SystemGraph.add_node. simpl.
  by rewrite lookup_insert_eq.
Qed.

(** ** The scheduler *)

(** Every compute task that [__call__] submits, whatever its arguments,
    goes to the balancer without any dependency. *)
Lemma call_emits_unconstrained p r schedule name isrcs :
  emits solve_unconstrained (__call__ p r schedule name isrcs).
Proof.
  unfold __call__.
  apply emits_bind.
  { unfold getitem. destruct (schedule !! name); [apply emits_ret|apply emits_raise]. }
  intros e. apply emits_bind.
  { destruct isrcs; [apply emits_ret|apply emits_ret|apply emits_raise]. }
  intros s. apply emits_bind.
  { apply schedule_tags_emits; intros; exact I || reflexivity. }
  intros a. apply emits_bind; [|intros; apply emits_ret].
  generalize (msg_ids (clearJobs a)) ([] : list job).
  induction (reduce e) as [|label labels IH]; intros after jobs; simpl.
  - apply emits_ret.
  - apply emits_bind.
    + unfold RemoteInterface.reduceLB. destruct (useMPI r); [|apply emits_ret].
      apply emits_bind; [|intros; apply emits_ret].
      apply emits_map_. by intros c [i [-> _]]%list_elem_of_fmap.
    + intros [j|]; apply IH.
Qed.

(** A range that is neither a slice nor [None] is refused on entry,
    before anything is submitted. *)
Lemma call_refuses_other p r schedule name e v log :
  schedule !! name = Some e ->
  __call__ p r schedule name (SrcOther v) log
  = (Exc (PlainException "Scheduler must run over slice or None!"), log).
Proof. intros He. unfold __call__, bind, getitem. by rewrite He. Qed.

(** The sentinel [None] becomes [slice(None)], whose upper end is
    [None]: as soon as one tag is hosted, the partitioner raises, again
    before anything is submitted. *)
Lemma call_sentinel_raises p r schedule name e log :
  schedule !! name = Some e ->
  all_tags (engines r) ≠ ∅ ->
  __call__ p r schedule name SrcNone log
  = (Exc (TypeError "unsupported operand type(s) for -: 'NoneType' and 'int'"),
     log).
Proof.
  intros He Htags. unfold __call__, bind at 1, getitem. rewrite He.
  unfold ret at 1. unfold bind at 1. unfold ret at 1. unfold bind at 1.
  destruct (elements (all_tags (engines r))) as [|t tags] eqn:Hel.
  - apply elements_empty_inv in Hel. apply leibniz_equiv in Hel. contradiction.
  - by rewrite schedule_tags_no_stop.
Qed.

(** C4, as the code has it. For an entry of the schedule and a source
    slice with an upper end the scheduler returns; its submissions are
    the compute and clear tasks (no reduction among them) followed, in
    collective mode, by the reductions in the order of [entry.reduce],
    one task per engine each: the first reduction waits for [cids],
    which are exactly the message ids of the clear tasks this call
    submitted, in the order of submission; every later one waits for
    the tasks of the reduction before it; and [End.jobs] is the list of
    the jobs of all the reductions in that order (its last element
    being the job of the last reduction). In star mode no reduction is
    submitted and [End.jobs] is empty. *)
Theorem reductions_chained p r schedule name e s b log :
  schedule !! name = Some e ->
  stop s = Some b ->
  let n := length (engines r) in
  exists G mid cids log',
    __call__ p r schedule name (SrcSlice s) log = (Val G, log') /\
    (exists ts, mid = log ++ ts /\ Forall not_reduction ts /\
                cids = clear_ids (length log) ts) /\
    if useMPI r then
      take (length mid) log' = mid /\
      length log' = (length mid + length (reduce e) * n)%nat /\
      (forall k label i, reduce e !! k = Some label -> (i < n)%nat ->
         log' !! (length mid + k * n + i)%nat
         = Some (Task (ReduceJob (Z.of_nat i) 0 label)
                      (Flags (match k with
                              | O => cids
                              | S k' => seq (length mid + k' * n) n
                              end) []))) /\
      SystemGraph.jobs_of "End" G
      = Some (map (fun k => seq (length mid + k * n) n)
                  (seq 0 (length (reduce e))))
    else
      log' = mid /\ SystemGraph.jobs_of "End" G = Some [].
Proof.
  intros He Hstop n.
  set (G0 := SystemGraph.add_node "Beginning" SystemGraph.no_attrs
               SystemGraph.empty).
  set (tags := elements (all_tags (engines r))).
  destruct (schedule_tags_returns p r e s b tags (Acc G0 [] []) Hstop log)
    as (a & mid & Hrun).
  destruct (schedule_tags_emits not_reduction ltac:(by intros) ltac:(by intros)
              p r e s tags (Acc G0 [] []) log) as (ts & Hmid & Hts).
  rewrite Hrun in Hmid. simpl in Hmid.
  assert (Hids : msg_ids (clearJobs a) = clear_ids (length log) ts).
  { destruct (schedule_tags_clear_ids p r e s b tags (Acc G0 [] []) log Hstop)
      as (a' & ts' & Hrun' & Hids).
    rewrite Hrun in Hrun'. injection Hrun' as <- Hmid'.
    assert (ts' = ts) as ->.
    { apply (app_inv_head log). congruence. }
    exact Hids. }
  assert (Hcall : forall jobs log',
    submit_reductions r (reduce e) (msg_ids (clearJobs a)) [] mid
      = (Val jobs, log') ->
    exists G, __call__ p r schedule name (SrcSlice s) log = (Val G, log') /\
              SystemGraph.jobs_of "End" G = Some jobs).
  { intros jobs log' Hred. eexists. split.
    - unfold __call__, bind at 1, getitem. rewrite He.
      unfold ret at 1. unfold bind at 1. unfold ret at 1. unfold bind at 1.
      fold G0 tags. rewrite Hrun. unfold bind at 1. rewrite Hred.
      unfold ret. reflexivity.
    - rewrite fold_add_edge_jobs. apply add_node_jobs. }
  destruct (useMPI r) eqn:Hmode.
  - destruct (Hcall _ _ (submit_reductions_mpi r (reduce e) Hmode _ [] mid))
      as (G & HG & Hjobs).
    exists G, mid, (msg_ids (clearJobs a)).
    eexists. split; [exact HG|]. split; [by exists ts|].
    split; [|split; [|split]].
    + by rewrite take_app_length.
    + by rewrite length_app, reduce_tasks_length.
    + intros k label i Hk Hi.
      rewrite <- Nat.add_assoc, lookup_app_r by lia.
      replace (length mid + (k * n + i) - length mid)%nat
        with (k * n + i)%nat by lia.
      by apply reduce_tasks_lookup.
    + rewrite Hjobs. simpl. by rewrite reduce_jobs_map.
  - destruct (Hcall _ _ (submit_reductions_star r (reduce e) Hmode _ [] mid))
      as (G & HG & Hjobs).
    exists G, mid, (msg_ids (clearJobs a)), mid.
    split; [exact HG|]. split; [by exists ts|]. by split.
Qed.

(** The theorem above for two engines in collective mode and the
    reduce list [['u', 'v']]. *)
Lemma reductions_chained_witness :
  exists G mid cids log',
    __call__ problem0 remote_mpi schedule0 "forward" (SrcSlice isrcs0) []
    = (Val G, log') /\
    (exists ts, mid = [] ++ ts /\ Forall not_reduction ts /\
                cids = clear_ids (length (@nil task)) ts) /\
    (take (length mid) log' = mid /\
     length log' = (length mid + length (reduce entry0) * 2)%nat /\
     (forall k label i, reduce entry0 !! k = Some label -> (i < 2)%nat ->
        log' !! (length mid + k * 2 + i)%nat
        = Some (Task (ReduceJob (Z.of_nat i) 0 label)
                     (Flags (match k with
                             | O => cids
                             | S k' => seq (length mid + k' * 2) 2
                             end) []))) /\
     SystemGraph.jobs_of "End" G
     = Some (map (fun k => seq (length mid + k * 2) 2)
                 (seq 0 (length (reduce entry0))))).
Proof.
  apply (reductions_chained problem0 remote_mpi schedule0 "forward" entry0
           isrcs0 1 []); reflexivity.
Defined.

(** C4, as the specification states it, fails: with two engines in collective
    mode and the reduce list [['u', 'v']], [End.jobs] holds the jobs of
    both reductions (message ids 4 to 7), not those of the last one
    alone (ids 6 and 7). *)
Lemma End_jobs_hold_every_reduction : ~ End_jobs_last_reduction_only.
Proof.
  intros H.
  pose (run := __call__ problem0 remote_mpi schedule0 "forward"
                 (SrcSlice isrcs0) []).
  assert (Hrun : run = (Val (match run.1 with
                             | Val g => g
                             | Exc _ => SystemGraph.empty
                             end), run.2)) by (vm_compute; reflexivity).
  specialize (H problem0 remote_mpi schedule0 "forward"%string entry0 isrcs0
                [] _ _ eq_refl ltac:(simpl; lia) Hrun).
  vm_compute in H. discriminate H.
Qed.

(** C9 at its failing input: with tags hosted, the all-sources sentinel
    makes the scheduler raise a [TypeError] from the partitioner (the
    [slice(None)] it is replaced with has no upper end), with nothing
    submitted. *)
Theorem call_sentinel_raises_TypeError :
  __call__ problem0 remote_star schedule0 "forward" SrcNone []
  = (Exc (TypeError "unsupported operand type(s) for -: 'NoneType' and 'int'"),
     []).
Proof. vm_compute. reflexivity. Qed.

(** C1 at its failing input: ranks 0 and 1 host tags (0, 0) and (1, 0).
    The scheduler returns, and the compute task it submitted for tag
    (0, 0) carries neither [follow] nor [after], so the balancer may
    place it on rank 1, where the affinity predicate for (0, 0) is
    false. *)
Theorem compute_task_placeable_off_host :
  exists G log i work,
    __call__ problem0 remote_star schedule0 "forward" (SrcSlice isrcs0) []
    = (Val G, log) /\
    log !! i = Some (Task (Solve "forward" (0, 0) work) no_flags) /\
    may_place (fun _ => None) (Task (Solve "forward" (0, 0) work) no_flags) 1
    = true /\
    _hasSystemRank 1 [(1, 0)] (0, 0) 1 = false.
Proof.
  eexists _, _, 0%nat, isrcs0. split; [vm_compute; reflexivity|].
  split; [reflexivity|]. split; reflexivity.
Qed.

End SystemSolverFacts.
(** * Properties of the Remote Interface *)

Module RemoteInterfaceFacts.
Import Py Field RemoteInterface.
Local Open Scope py_scope.

(** ** Transport selection *)

Lemma all_getenv_spec var ws :
  all_getenv var ws = true <-> forall w, w ∈ ws -> truthy (getenv var w) = true.
Proof.
  unfold all_getenv. rewrite forallb_forall. split.
  - intros Hall w Hw. apply Hall. by apply list_elem_of_In.
  - intros Hall w Hw. apply Hall. by apply list_elem_of_In.
Qed.

(** The probe succeeds when one of the two indicators is set, to a
    non-empty value, on every engine. *)
Lemma MPISafe_spec ws :
  MPISafe ws = true <->
  (forall w, w ∈ ws -> truthy (getenv "PMI_SIZE" w) = true) \/
  (forall w, w ∈ ws -> truthy (getenv "OMPI_UNIVERSE_SIZE" w) = true).
Proof.
  unfold MPISafe, MPI_BELLWETHERS. simpl.
  rewrite orb_true_iff, !all_getenv_spec. reflexivity.
Qed.

(** C2, as the code has it. When the engines' MPI ranks can be put in
    order, construction returns, and it activates collective mode exactly
    when MPI is requested (explicitly, or by default) and one and the
    same indicator, PMI_SIZE or OMPI_UNIVERSE_SIZE, is set to a non-empty
    value on every engine. *)
Theorem useMPI_iff_one_indicator_everywhere (MPI : option bool) (ws : list engine) :
  is_Some (reorder (map mpi_rank ws)) ->
  exists tr,
    init MPI ws = Val tr /\
    (useMPI tr = true <->
     default DEFAULT_MPI MPI = true /\
     ((forall w, w ∈ ws -> truthy (getenv "PMI_SIZE" w) = true) \/
      (forall w, w ∈ ws -> truthy (getenv "OMPI_UNIVERSE_SIZE" w) = true))).
Proof.
  intros [order Horder]. unfold init. rewrite Horder.
  pose proof (MPISafe_spec ws) as Hsafe.
  destruct MPI as [[|]|]; simpl; destruct (MPISafe ws); eexists;
    (split; [reflexivity|]); simpl; intuition congruence.
Qed.

(** Two engines that both carry PMI_SIZE. *)
Lemma useMPI_iff_one_indicator_everywhere_witness :
  exists tr,
    init None pmi_cluster = Val tr /\
    (useMPI tr = true <->
     default DEFAULT_MPI None = true /\
     ((forall w, w ∈ pmi_cluster -> truthy (getenv "PMI_SIZE" w) = true) \/
      (forall w, w ∈ pmi_cluster ->
                 truthy (getenv "OMPI_UNIVERSE_SIZE" w) = true))).
Proof.
  apply (useMPI_iff_one_indicator_everywhere None pmi_cluster).
  eexists. vm_compute. reflexivity.
Defined.

(** C2, as the specification states it, fails: in a cluster where one engine
    carries only PMI_SIZE and the other only OMPI_UNIVERSE_SIZE every
    engine has an indicator, yet neither indicator is on all of them and
    construction stays in star mode. *)
Lemma mixed_indicators_stay_star : ~ collective_iff_each_has_one.
Proof.
  intros H.
  specialize (H mixed_cluster (Transport false [0; 1]%nat) eq_refl).
  destruct H as [_ H]. simpl in H.
  enough (false = true) by discriminate. apply H.
  intros w Hw. unfold has_indicator, getenv.
  apply list_elem_of_In in Hw. simpl in Hw.
  destruct Hw as [<-|[<-|[]]]; simpl.
  - left. eexists. reflexivity.
  - right. eexists. reflexivity.
Qed.

(** ** The collectives on two engines *)

(** C7 at its failing inputs: two engines in collective mode, with no
    [temp_] name bound beforehand. [remoteDifference], [__getitem__] and
    [remoteOpGatherFirst] create their temporaries on every engine but
    delete them on the root only, so the engine of rank 1 keeps
    [temp_d] (and [temp_s]) bound to [None]; [reduce] and [reduceMul]
    delete theirs through the direct view and leave the cluster as it
    was. *)
Theorem temporaries_left_on_non_root :
  (exists cl ns,
      remoteDifference left_comb true "d" "s" "r" cluster2 = (Val tt, cl) /\
      cl !! 1%nat = Some ns /\
      ns !! temp "d" = Some ONone /\ ns !! temp "s" = Some ONone) /\
  (exists v cl ns,
      __getitem__ true "d" cluster2 = (Val v, cl) /\
      cl !! 1%nat = Some ns /\ ns !! temp "d" = Some ONone) /\
  (exists cl ns,
      remoteOpGatherFirst left_comb true OpSub "d" "s" "r" cluster2
      = (Val tt, cl) /\
      cl !! 1%nat = Some ns /\ ns !! temp "d" = Some ONone) /\
  (exists v, reduce left_comb true "d" cluster2 = (Val v, cluster2)) /\
  (exists v, reduceMul left_comb true "d" "s" None cluster2 = (Val v, cluster2)).
Proof.
  repeat split.
  - eexists _, _. split; [vm_compute; reflexivity|].
    split; [reflexivity|]. split; vm_compute; reflexivity.
  - eexists _, _, _. split; [vm_compute; reflexivity|].
    split; [reflexivity|]. vm_compute; reflexivity.
  - eexists _, _. split; [vm_compute; reflexivity|].
    split; [reflexivity|]. vm_compute; reflexivity.
  - eexists. vm_compute. reflexivity.
  - eexists. vm_compute. reflexivity.
Qed.

(** C3 at its failing input: two engines holding [[1+i]] and [[1-i]]
    under ["d"] and [[1]] under ["s"]. In collective mode the estimate
    is computed on the root from its own ["d"], which is not summed
    over the engines, and [(1+i)/2] is stored everywhere; in star mode
    ["d"] is summed first and [1/2] is stored everywhere, which is what
    the formula with [reduce("d") = [[2]]] gives. *)
Theorem srcEst_collective_skips_reduce :
  let S_mpi : obj Qi := OArr (Sc (mkQi (1 # 2) (1 # 2))) in
  let S_star : obj Qi := OArr (Sc (mkQi (1 # 2) 0)) in
  (exists cl,
      remoteSrcEstGatherFirst true "S" "d" "s" false cluster2 = (Val tt, cl) /\
      everywhere cl "S" S_mpi) /\
  (exists cl,
      remoteSrcEstGatherFirst false "S" "d" "s" false cluster2 = (Val tt, cl) /\
      everywhere cl "S" S_star) /\
  (exists total,
      reduce left_comb true "d" cluster2 = (Val total, cluster2) /\
      srcEst false total (OArr (Ar [Ar [Sc (mkQi 1 0)]])) tt = (Val S_star, tt)) /\
  S_mpi <> S_star.
Proof.
  intros S_mpi S_star. repeat split.
  - eexists. split; [vm_compute; reflexivity|].
    repeat constructor.
  - eexists. split; [vm_compute; reflexivity|].
    repeat constructor.
  - eexists. split; vm_compute; reflexivity.
  - discriminate.
Qed.

(** ** Arrays of one shape *)

Section Arrays.
Context {E : Type} `{Scalar E}.

(** Induction on arrays, with the hypothesis for every item. *)
Lemma nd_ind' (P : nd E -> Prop) :
  (forall x, P (Sc x)) ->
  (forall l, Forall P l -> P (Ar l)) ->
  forall a, P a.
Proof.
  intros HS HA. fix IH 1. intros [x|l].
  - apply HS.
  - apply HA. induction l as [|a l IHl]; constructor; [apply IH|exact IHl].
Qed.

Lemma nd_zip_Ar (f : E -> E -> E) l m :
  nd_zip f (Ar l) (Ar m) = option_map Ar (zip_opt (nd_zip_same f) l m).
Proof.
  unfold nd_zip. simpl. f_equal. revert m.
  induction l as [|x l IH]; intros [|y m]; simpl; try reflexivity.
  by rewrite IH.
Qed.

Lemma has_shape_Sc sh (x : E) : has_shape sh (Sc x) <-> sh = [].
Proof. destruct sh; simpl; split; (done || tauto). Qed.

Lemma has_shape_Ar sh (l : list (nd E)) :
  has_shape sh (Ar l) <->
  exists n sh', sh = n :: sh' /\ length l = n /\ Forall (has_shape sh') l.
Proof.
  destruct sh as [|n sh']; simpl.
  - split; [tauto|]. by intros (? & ? & ? & _).
  - assert (Hall : (fix all (l0 : list (nd E)) : Prop :=
                      match l0 with
                      | [] => True
                      | x :: l' => has_shape sh' x /\ all l'
                      end) l <-> Forall (has_shape sh') l).
    { induction l as [|x l IH]; [by split|].
      rewrite Forall_cons. tauto. }
    rewrite Hall. split.
    + intros [Hlen Hl]. by exists n, sh'.
    + intros (? & ? & [= <- <-] & Hlen & Hl). by split.
Qed.

(** On two arrays of one shape no operand is broadcast. *)
Lemma nd_zip_of_shape (f : E -> E -> E) sh (a b : nd E) :
  has_shape sh a -> has_shape sh b -> nd_zip f a b = nd_zip_same f a b.
Proof.
  intros Ha Hb. destruct a as [x|l], b as [y|m]; try reflexivity.
  - apply has_shape_Sc in Ha as ->. done.
  - apply has_shape_Sc in Hb as ->. done.
Qed.

Lemma zip_opt_same_shape (f : E -> E -> E) sh (l : list (nd E)) : forall m,
  Forall (fun a => forall sh b, has_shape sh a -> has_shape sh b ->
                     exists c, zips_to f a b c /\ has_shape sh c) l ->
  Forall (has_shape sh) l -> Forall (has_shape sh) m ->
  length l = length m ->
  exists lc, zip_opt (nd_zip_same f) l m = Some lc /\
    Forall (has_shape sh) lc /\ length lc = length l /\
    forall i ix, (c ← lc !! i; nd_at c ix)
                 = (x ← (a ← l !! i; nd_at a ix);
                    y ← (b ← m !! i; nd_at b ix); Some (f x y)).
Proof.
  induction l as [|a l IH]; intros [|b m] HIH Hl Hm Hlen; try discriminate.
  - exists []. split; [done|]. split; [constructor|]. split; [done|].
    by intros [|i] ix.
  - apply Forall_cons in HIH as [Ha HIH]. apply Forall_cons in Hl as [Hsa Hl].
    apply Forall_cons in Hm as [Hsb Hm].
    destruct (Ha sh b Hsa Hsb) as (c & [Hc Hat] & Hsc).
    rewrite (nd_zip_of_shape f sh a b Hsa Hsb) in Hc.
    destruct (IH m HIH Hl Hm ltac:(simpl in Hlen; lia))
      as (lc & Hlc & Hslc & Hlenlc & Hatlc).
    exists (c :: lc). simpl. rewrite Hc, Hlc.
    split; [done|]. split; [by constructor|]. split; [by rewrite Hlenlc|].
    intros [|i] ix; simpl; [apply Hat|apply Hatlc].
Qed.

(** On two arrays of one shape the elementwise combination is defined,
    has that shape, and is what it says at every index. *)
Lemma nd_zip_same_shape (f : E -> E -> E) (a : nd E) : forall sh b,
  has_shape sh a -> has_shape sh b ->
  exists c, zips_to f a b c /\ has_shape sh c.
Proof.
  induction a as [x|l IH] using nd_ind'; intros sh b Ha Hb.
  - apply has_shape_Sc in Ha as ->. destruct b as [y|m]; [|done].
    exists (Sc (f x y)). split; [|done]. split; [done|]. by intros [|i ix].
  - apply has_shape_Ar in Ha as (n & sh' & -> & Hlen & Hl).
    destruct b as [y|m]; [done|].
    apply has_shape_Ar in Hb as (n' & sh'' & [= <- <-] & Hlen' & Hm).
    destruct (zip_opt_same_shape f sh' l m IH Hl Hm ltac:(lia))
      as (lc & Hlc & Hslc & Hlenlc & Hat).
    exists (Ar lc). split; [split|].
    + by rewrite nd_zip_Ar, Hlc.
    + intros [|i ix]; [done|]. simpl. apply Hat.
    + apply has_shape_Ar. exists n, sh'. split; [done|]. split; [lia|done].
Qed.

(** Arrays of one shape that agree at every index are equal. *)
Lemma nd_ext (a : nd E) : forall sh b,
  has_shape sh a -> has_shape sh b ->
  (forall ix, nd_at a ix = nd_at b ix) -> a = b.
Proof.
  induction a as [x|l IH] using nd_ind'; intros sh b Ha Hb Hat.
  - apply has_shape_Sc in Ha as ->. destruct b as [y|m]; [|done].
    specialize (Hat []). simpl in Hat. congruence.
  - apply has_shape_Ar in Ha as (n & sh' & -> & Hlen & Hl).
    destruct b as [y|m]; [done|].
    apply has_shape_Ar in Hb as (n' & sh'' & [= <- <-] & Hlen' & Hm).
    f_equal. apply list_eq. intros i.
    destruct (l !! i) as [ai|] eqn:Hai.
    + destruct (m !! i) as [bi|] eqn:Hbi.
      * f_equal.
        apply (proj1 (Forall_lookup _ _) IH i ai Hai sh' bi).
        -- by apply (proj1 (Forall_lookup _ _) Hl i ai).
        -- by apply (proj1 (Forall_lookup _ _) Hm i bi).
        -- intros ix. specialize (Hat (i :: ix)). simpl in Hat.
           by rewrite Hai, Hbi in Hat.
      * apply lookup_lt_Some in Hai. apply lookup_ge_None in Hbi. lia.
    + destruct (m !! i) as [bi|] eqn:Hbi; [|done].
      apply lookup_lt_Some in Hbi. apply lookup_ge_None in Hai. lia.
Qed.

(** Elementwise addition is associative on arrays of one shape when
    the addition of scalars is. *)
Lemma nd_zip_add_assoc sh (a b c ab bc : nd E) :
  (forall x y z : E, add (add x y) z = add x (add y z)) ->
  has_shape sh a -> has_shape sh b -> has_shape sh c ->
  nd_zip add a b = Some ab -> nd_zip add b c = Some bc ->
  nd_zip add ab c = nd_zip add a bc.
Proof.
  intros Hassoc Ha Hb Hc Hab Hbc.
  destruct (nd_zip_same_shape add a sh b Ha Hb) as (ab' & [Hab' Hatab] & Hsab).
  destruct (nd_zip_same_shape add b sh c Hb Hc) as (bc' & [Hbc' Hatbc] & Hsbc).
  assert (ab' = ab) as -> by congruence.
  assert (bc' = bc) as -> by congruence.
  destruct (nd_zip_same_shape add ab sh c Hsab Hc) as (l & [Hl Hatl] & Hsl).
  destruct (nd_zip_same_shape add a sh bc Ha Hsbc) as (r & [Hr Hatr] & Hsr).
  rewrite Hl, Hr. f_equal. apply (nd_ext l sh r Hsl Hsr).
  intros ix. rewrite Hatl, Hatr, Hatab, Hatbc.
  destruct (nd_at a ix), (nd_at b ix), (nd_at c ix); simpl; try done.
  by rewrite Hassoc.
Qed.

(** *** Sums of several arrays *)

Lemma add_step_None l : fold_left add_step l None = None.
Proof. by induction l. Qed.

Lemma reduce_opt_cons (a : nd E) l :
  reduce_opt (nd_zip add) (a :: l) = fold_left add_step l (Some a).
Proof. reflexivity. Qed.

(** The fold of a pointwise partial sum is the sum of the elements. *)
Lemma fold_at_sum (g : nd E -> option E) l : forall o : option E,
  fold_left (fun acc y => x ← acc; v ← g y; Some (add x v)) l o
  = (x ← o; xs ← mapM g l; Some (fold_left add xs x)).
Proof.
  induction l as [|y l IH]; intros o; simpl.
  - by destruct o.
  - rewrite IH. destruct o as [x|]; simpl; [|done].
    destruct (g y) as [v|]; simpl; [|done].
    by destruct (mapM g l).
Qed.

(** Adding up arrays of one shape in order: defined, of that shape,
    and the pointwise sum. *)
Lemma fold_add_same_shape sh l : forall a : nd E,
  has_shape sh a -> Forall (has_shape sh) l ->
  exists t, fold_left add_step l (Some a) = Some t /\ has_shape sh t /\
    forall ix, nd_at t ix
               = fold_left (fun acc y => x ← acc; v ← nd_at y ix; Some (add x v))
                           l (nd_at a ix).
Proof.
  induction l as [|y l IH]; intros a Ha Hl.
  - by exists a.
  - apply Forall_cons in Hl as [Hy Hl].
    destruct (nd_zip_same_shape add a sh y Ha Hy) as (ay & [Hay Hat] & Hsay).
    destruct (IH ay Hsay Hl) as (t & Ht & Hst & Hatt).
    exists t. simpl. rewrite Hay. split; [done|]. split; [done|].
    intros ix. by rewrite Hatt, Hat.
Qed.

Lemma reduce_opt_same_shape sh (arrays : list (nd E)) :
  arrays <> [] -> Forall (has_shape sh) arrays ->
  exists t, reduce_opt (nd_zip add) arrays = Some t /\ has_shape sh t /\
    forall ix, nd_at t ix = sum_at arrays ix.
Proof.
  destruct arrays as [|a l]; [done|]. intros _ [Ha Hl]%Forall_cons.
  destruct (fold_add_same_shape sh l a Ha Hl) as (t & Ht & Hst & Hat).
  exists t. split; [done|]. split; [done|].
  intros ix. rewrite Hat, fold_at_sum. unfold sum_at. simpl.
  destruct (nd_at a ix); simpl; [|done]. by destruct (mapM _ l).
Qed.

Section Assoc.
Hypothesis add_assoc : forall x y z : E, add (add x y) z = add x (add y z).

(** Adding [x] first or last makes no difference. *)
Lemma fold_add_shift sh l : forall x y xy : nd E,
  has_shape sh x -> has_shape sh y -> Forall (has_shape sh) l ->
  nd_zip add x y = Some xy ->
  fold_left add_step l (Some xy)
  = (r ← fold_left add_step l (Some y); nd_zip add x r).
Proof.
  induction l as [|z l IH]; intros x y xy Hx Hy Hl Hxy; simpl.
  - done.
  - apply Forall_cons in Hl as [Hz Hl].
    destruct (nd_zip_same_shape add y sh z Hy Hz) as (yz & [Hyz _] & Hsyz).
    rewrite Hyz.
    pose proof (nd_zip_add_assoc sh x y z xy yz add_assoc Hx Hy Hz Hxy Hyz)
      as Hassoc.
    destruct (nd_zip_same_shape add x sh yz Hx Hsyz) as (xyz & [Hxyz _] & _).
    rewrite Hassoc, Hxyz. by apply IH.
Qed.

(** The sum of two runs of arrays is the sum of their concatenation. *)
Lemma reduce_opt_app sh (l1 l2 : list (nd E)) t1 t2 :
  Forall (has_shape sh) l1 -> Forall (has_shape sh) l2 ->
  reduce_opt (nd_zip add) l1 = Some t1 ->
  reduce_opt (nd_zip add) l2 = Some t2 ->
  reduce_opt (nd_zip add) (l1 ++ l2) = nd_zip add t1 t2.
Proof.
  intros Hl1 Hl2 H1 H2.
  destruct l1 as [|a1 l1]; [done|]. destruct l2 as [|a2 l2]; [done|].
  apply Forall_cons in Hl1 as [Ha1 Hl1]. apply Forall_cons in Hl2 as [Ha2 Hl2].
  rewrite reduce_opt_cons in H1, H2.
  destruct (fold_add_same_shape sh l1 a1 Ha1 Hl1) as (t1' & Ht1 & Hst1 & _).
  assert (t1' = t1) as -> by congruence.
  change ((a1 :: l1) ++ a2 :: l2) with (a1 :: (l1 ++ a2 :: l2)).
  rewrite reduce_opt_cons, fold_left_app, H1. simpl.
  destruct (nd_zip_same_shape add t1 sh a2 Hst1 Ha2) as (ta & [Hta _] & _).
  rewrite Hta, (fold_add_shift sh l2 t1 a2 ta Hst1 Ha2 Hl2 Hta), H2. done.
Qed.

End Assoc.

End Arrays.

(** ** [reduce] in both transport modes *)

Section Reduce.
Context {E : Type} `{Scalar E}.
Implicit Types cl : list (gmap string (obj E)).

Lemma py_add_arrays {S} (x y z : nd E) (s : S) :
  nd_zip add x y = Some z ->
  py_binop OpAdd (OArr x) (OArr y) s = (Val (OArr z), s).
Proof. intros Hz. unfold py_binop. simpl. by rewrite Hz. Qed.

(** The client-side fold [reduce(np.add, values)] on arrays. *)
Lemma py_reduce_arrays {S} (arrays : list (nd E)) (t : nd E) (s : S) :
  reduce_opt (nd_zip add) arrays = Some t ->
  py_reduce np_add (map OArr arrays) s = (Val (OArr t), s).
Proof.
  destruct arrays as [|a l]; [done|]. rewrite reduce_opt_cons. simpl.
  assert (Hacc : forall s' : S, ret (OArr a) s' = (Val (OArr a), s')) by done.
  revert Hacc. generalize (ret (S := S) (OArr a)). revert a s.
  induction l as [|y l IH]; intros a s acc Hacc Ht; simpl in *.
  - rewrite Hacc. congruence.
  - destruct (nd_zip add a y) as [ay|] eqn:Hay.
    + apply (IH ay); [|done]. intros s'. unfold bind. rewrite Hacc.
      by apply py_add_arrays.
    + by rewrite add_step_None in Ht.
Qed.

(** Whatever the bracketing, the communicator's reduction of arrays of
    one shape is their sum in rank order, provided addition of scalars
    is associative. *)
Lemma eval_rtree_arrays sh (tr : rtree E) :
  (forall x y z : E, add (add x y) z = add x (add y z)) ->
  forall arrays : list (nd E),
    flatten tr = map OArr arrays ->
    Forall (has_shape sh) arrays ->
    exists t, reduce_opt (nd_zip add) arrays = Some t /\ has_shape sh t /\
              forall S (s : S), eval_rtree tr s = (Val (OArr t), s).
Proof.
  intros Hassoc. induction tr as [v|l IHl r IHr]; intros arrays Hflat Hsh.
  - destruct arrays as [|a [|b arrays]]; try discriminate.
    injection Hflat as ->. apply Forall_cons in Hsh as [Ha _].
    by exists a.
  - simpl in Hflat. symmetry in Hflat.
    apply map_eq_app in Hflat as (l1 & l2 & -> & Hl1 & Hl2).
    apply Forall_app in Hsh as [Hsh1 Hsh2].
    destruct (IHl l1 (eq_sym Hl1) Hsh1) as (t1 & Ht1 & Hst1 & Hev1).
    destruct (IHr l2 (eq_sym Hl2) Hsh2) as (t2 & Ht2 & Hst2 & Hev2).
    destruct (nd_zip_same_shape add t1 sh t2 Hst1 Hst2) as (t & [Ht _] & Hst).
    exists t. split; [|split; [done|]].
    + by rewrite (reduce_opt_app Hassoc sh l1 l2 t1 t2).
    + intros S s. simpl. unfold bind. rewrite Hev1, Hev2.
      by apply py_add_arrays.
Qed.

(** [self.dview[key]] when every engine binds [key] to an array. *)
Lemma dview_pull_arrays key cl (arrays : list (nd E)) :
  Forall2 (fun ns a => ns !! key = Some (OArr a)) cl arrays ->
  dview_pull key cl = (Val (map OArr arrays), cl).
Proof.
  intros Hcl. unfold dview_pull, bind, get.
  assert (Hm : mapM (fun ns : gmap string (obj E) => ns !! key) cl
               = Some (map OArr arrays)).
  { induction Hcl as [|ns a cl arrays Hns _ IH]; [done|].
    simpl. by rewrite Hns, IH. }
  by rewrite Hm.
Qed.

(** [self.dview.execute('del k')] right after every engine was given a
    binding for [k]: nobody fails and the binding is gone everywhere. *)
Lemma dview_execute_del_inserted k cl : forall g : nat -> obj E,
  dview_execute (del_stmt k)
    (imap (fun r (ns : gmap string (obj E)) => <[k := g r]> ns) cl)
  = (Val tt, map (delete k) cl).
Proof.
  induction cl as [|ns cl IH]; intros g; [done|].
  rewrite imap_cons. cbn [dview_execute map].
  change (imap ((fun r (ns0 : gmap string (obj E)) => <[k := g r]> ns0) ∘ S) cl)
    with (imap (fun r (ns0 : gmap string (obj E)) => <[k := (g ∘ S) r]> ns0) cl).
  rewrite (IH (g ∘ S)).
  unfold del_stmt, bind, get, name, put, ret.
  rewrite lookup_insert_eq. simpl. by rewrite delete_insert_eq.
Qed.

(** C5, as the code has it. Let every engine bind [key] to an array,
    all of one shape. In star mode [reduce(key)] returns the array of
    that shape which is, at every index, the sum over the engines of
    their elements at that index, added up in rank order from left to
    right, and leaves the namespaces alone. In collective mode, when the
    communicator combines the operands in rank order (under any
    bracketing) and addition of scalars is associative, [reduce(key)]
    returns the same array and leaves the namespaces without
    [temp_<key>]. *)
Theorem reduce_pointwise_sum_both_modes (plan : list (obj E) -> rtree E)
    key cl (arrays : list (nd E)) sh :
  arrays <> [] ->
  Forall2 (fun ns a => ns !! key = Some (OArr a)) cl arrays ->
  Forall (has_shape sh) arrays ->
  exists total,
    reduce plan false key cl = (Val (OArr total), cl) /\
    has_shape sh total /\
    (forall ix, nd_at total ix = sum_at arrays ix) /\
    ((forall x y z : E, add (add x y) z = add x (add y z)) ->
     flatten (plan (map OArr arrays)) = map OArr arrays ->
     reduce plan true key cl
     = (Val (OArr total), map (delete (temp key)) cl)).
Proof.
  intros Hne Hcl Hsh.
  destruct (reduce_opt_same_shape sh arrays Hne Hsh) as (t & Ht & Hst & Hat).
  exists t. split; [|split; [done|split; [done|]]].
  - unfold reduce, bind. rewrite (dview_pull_arrays key cl arrays Hcl).
    by apply py_reduce_arrays.
  - intros Hassoc Hplan.
    destruct (eval_rtree_arrays sh (plan (map OArr arrays)) Hassoc arrays
                Hplan Hsh) as (t' & Ht' & _ & Hev).
    assert (t' = t) as -> by congruence.
    unfold reduce. unfold bind at 1. unfold exec_reduce.
    unfold bind at 1. rewrite (dview_pull_arrays key cl arrays Hcl).
    unfold bind at 1. rewrite Hev. unfold modify.
    destruct cl as [|ns cl].
    { inversion Hcl; subst. done. }
    rewrite imap_cons. unfold bind at 1. unfold e0_pull, bind at 1, get.
    unfold name. rewrite lookup_insert_eq. simpl Nat.eqb. cbv iota.
    unfold ret at 1. unfold bind at 1.
    rewrite <- (imap_cons
      (fun r (ns0 : gmap string (obj E)) =>
         <[temp key := if Nat.eqb r 0 then OArr t else ONone]> ns0) ns cl).
    rewrite (dview_execute_del_inserted (temp key) (ns :: cl)
               (fun r => if Nat.eqb r 0 then OArr t else ONone)).
    reflexivity.
Qed.

End Reduce.

(** The theorem above on four engines holding integer vectors, with a
    communicator that adds in pairs, [(v0 + v1) + (v2 + v3)], where the
    client adds [((v0 + v1) + v2) + v3]: integer addition being
    associative, both modes return the same vector. *)
Lemma reduce_pointwise_sum_both_modes_witness :
  exists total : nd Z,
    reduce pairwise false "u" clusterZ4 = (Val (OArr total), clusterZ4) /\
    has_shape [2]%nat total /\
    (forall ix, nd_at total ix = sum_at arraysZ4 ix) /\
    reduce pairwise true "u" clusterZ4
    = (Val (OArr total), map (delete (temp "u")) clusterZ4).
Proof.
  destruct (reduce_pointwise_sum_both_modes pairwise "u" clusterZ4 arraysZ4
              [2]%nat) as (total & Hstar & Hshape & Hat & Hmpi).
  - discriminate.
  - repeat constructor.
  - repeat constructor.
  - exists total. split; [exact Hstar|]. split; [exact Hshape|].
    split; [exact Hat|]. apply Hmpi.
    + intros x y z. simpl. lia.
    + reflexivity.
Defined.

(** C5, as the specification states it, fails for floating-point
    elements: four engines hold [[1.]], [[1e16]], [[-1e16]] and [[1.]],
    and the communicator adds in pairs. In star mode the client adds
    [((1 + 1e16) - 1e16) + 1], which is [1.] in binary64; the
    communicator adds [(1 + 1e16) + (-1e16 + 1)], which is [0.]. *)
Lemma reduce_modes_differ_on_floats : ~ reduce_same_in_both_modes.
Proof.
  intros Hsame.
  destruct (Hsame PrimFloat.float float_scalar pairwise "u"%string clusterF4
              arraysF4 [1%nat]) as (total & Hstar & Hmpi).
  - reflexivity.
  - discriminate.
  - repeat constructor.
  - repeat constructor.
  - pose (is_zero := fun o : outcome (obj PrimFloat.float) =>
                      match o with
                      | Val (OArr (Ar [Sc x])) => PrimFloat.eqb x PrimFloat.zero
                      | _ => false
                      end).
    assert (H1 : is_zero (reduce pairwise false "u" clusterF4).1 = false)
      by (vm_compute; reflexivity).
    assert (H2 : is_zero (reduce pairwise true "u" clusterF4).1 = true)
      by (vm_compute; reflexivity).
    rewrite Hstar in H1. rewrite Hmpi in H2.
    change (is_zero (Val (OArr total)) = false) in H1. congruence.
Qed.

(** What the two modes return on the two engines holding integer
    two-by-two arrays. *)
Example reduce_clusterZ :
  reduce left_comb true "u" clusterZ
  = (Val (OArr (Ar [Ar [Sc 11; Sc 22]; Ar [Sc 33; Sc 44]])), clusterZ) /\
  reduce left_comb false "u" clusterZ
  = (Val (OArr (Ar [Ar [Sc 11; Sc 22]; Ar [Sc 33; Sc 44]])), clusterZ).
Proof. split; vm_compute; reflexivity. Qed.

(** What the two modes return on the four engines holding
    floating-point vectors. *)
Example reduce_clusterF4 :
  (reduce pairwise false "u" clusterF4).1
  = Val (OArr (Ar [Sc Float64.one])) /\
  (reduce pairwise true "u" clusterF4).1
  = Val (OArr (Ar [Sc PrimFloat.zero])).
Proof. split; vm_compute; reflexivity. Qed.

End RemoteInterfaceFacts.
(** * Further properties of the Endpoint *)

Module EndpointProps.
Import Py Endpoint EndpointFacts.
Local Open Scope py_scope.

Lemma for_app {S A} (l1 l2 : list A) (body : A -> M S unit) (s : S) :
  for_ (l1 ++ l2) body s = bind (for_ l1 body) (fun _ => for_ l2 body) s.
Proof.
  revert s. induction l1 as [|a l1 IH]; intros s.
  - reflexivity.
  - cbn [app for_]. unfold bind in *.
    destruct (body a s) as [[[]|ex] s1]; [apply IH|reflexivity].
Qed.

Section Fields.
Context {Container Survey Problem : Type}.
Implicit Types e : Endpoint.t Container Survey Problem.
Implicit Types fs : gmap string (unit -> Container).

(** Two endpoints that agree on every attribute are the same. *)
Lemma endpoint_eq e e' :
  same_but_fields e e' -> localFields e' = localFields e -> e' = e.
Proof.
  destruct e, e'. unfold same_but_fields. simpl.
  intros (-> & -> & -> & -> & -> & -> & ->) ->. reflexivity.
Qed.

(** X1. With a [fieldspec], [setupLocalFields()] returns normally and
    leaves in [localFields] exactly one freshly constructed container
    per name of [fieldspec] (whatever was there before), so the two
    dictionaries have the same keys and the same size; calling it again
    changes nothing. *)
Theorem setupLocalFields_reset e fs :
  fieldspec e = Some fs ->
  exists e',
    setupLocalFields None e = (Val tt, e') /\
    same_but_fields e e' /\
    localFields e' = (fun ctor => ctor tt) <$> fs /\
    dom (localFields e') = dom fs /\
    size (localFields e') = size fs /\
    setupLocalFields None e' = (Val tt, e').
Proof.
  intros Hfs.
  assert (Hrun : forall e0, fieldspec e0 = Some fs ->
            exists e', setupLocalFields None e0 = (Val tt, e') /\
                       same_but_fields e0 e' /\
                       localFields e' = (fun ctor => ctor tt) <$> fs).
  { intros e0 Hfs0.
    destruct (construct_all fs (set_localFields ∅ e0))
      as (e' & Hrun & Hsame & Hin & Hout).
    exists e'. split; [|split].
    - unfold setupLocalFields, bind, modify, get. simpl. rewrite Hfs0.
      exact Hrun.
    - unfold same_but_fields in *. simpl in Hsame. tauto.
    - apply map_eq. intros fn. rewrite lookup_fmap.
      destruct (fs !! fn) as [ctor|] eqn:Hfn; simpl.
      + by apply Hin.
      + rewrite (Hout fn Hfn). simpl. apply lookup_empty. }
  destruct (Hrun e Hfs) as (e' & Hrun1 & Hsame & Hfields).
  exists e'. split; [exact Hrun1|]. split; [exact Hsame|].
  split; [exact Hfields|]. split; [|split].
  - rewrite Hfields. apply dom_fmap_L.
  - rewrite Hfields. apply map_size_fmap.
  - assert (Hfs' : fieldspec e' = Some fs).
    { destruct Hsame as (_ & _ & _ & _ & _ & -> & _). exact Hfs. }
    destruct (Hrun e' Hfs') as (e'' & Hrun2 & Hsame2 & Hfields2).
    rewrite Hrun2. f_equal.
    apply endpoint_eq; [exact Hsame2|congruence].
Qed.

(** X2. [setupLocalFields(names)] stops at the first name that
    [fieldspec] does not know: it raises [KeyError] for that name, the
    names before it have been constructed by then, and every other entry
    of [localFields] (the later names among them) is as it was. *)
Theorem setupLocalFields_unknown_name e fs (before after : list string)
    (bad : string) :
  fieldspec e = Some fs ->
  (forall fn, fn ∈ before -> is_Some (fs !! fn)) ->
  fs !! bad = None ->
  exists e',
    setupLocalFields (Some (before ++ bad :: after)) e
    = (Exc (KeyError bad), e') /\
    same_but_fields e e' /\
    (forall fn ctor, fn ∈ before -> fs !! fn = Some ctor ->
                     localFields e' !! fn = Some (ctor tt)) /\
    (forall fn, fn ∉ before -> localFields e' !! fn = localFields e !! fn).
Proof.
  intros Hfs Hbefore Hbad.
  destruct (construct_loop fs before e Hbefore) as (e' & Hrun & Hsame & Hlk).
  exists e'. split; [|split; [exact Hsame|split]].
  - unfold setupLocalFields, bind at 1, ret at 1, bind at 1, get.
    rewrite Hfs.
    assert (Hnames : names_or (Some (before ++ bad :: after)) fs
                     = before ++ bad :: after).
    { unfold names_or. by destruct before. }
    rewrite Hnames, for_app. unfold bind at 1. rewrite Hrun.
    simpl. unfold bind at 1. unfold construct_field at 1.
    unfold bind at 1. unfold getitem. rewrite Hbad. reflexivity.
  - intros fn ctor Hin Hfn. rewrite Hlk, decide_True by done.
    by rewrite Hfn.
  - intros fn Hnin. by rewrite Hlk, decide_False.
Qed.

End Fields.

Section Surveys.
Context {Container Survey Problem : Type}.
Variable pair : Problem -> Survey -> option Problem.
Implicit Types e : Endpoint.t Container Survey Problem.

Lemma endpoint_eq_surveys e e' :
  same_but_surveys e e' -> localSurveys e' = localSurveys e -> e' = e.
Proof.
  destruct e, e'. unfold same_but_surveys. simpl.
  intros (-> & -> & -> & -> & -> & -> & ->) ->. reflexivity.
Qed.

Lemma survey_loop (subConfigs : gmap pyval (gmap string pyval)) g
    (l : list pyval) : forall e,
  baseSystemConfig e !! "geom"%string = Some (CGeom g) ->
  (forall isub, isub ∈ l -> is_Some (subConfigs !! isub)) ->
  exists e', for_ l (survey_step subConfigs) e = (Val tt, e') /\
    same_but_surveys e e' /\
    forall isub, localSurveys e' !! isub =
      if decide (isub ∈ l)
      then (fun sub => surveyFactory e (sub ∪ g)) <$> subConfigs !! isub
      else localSurveys e !! isub.
Proof.
  induction l as [|a l IH]; intros e Hgeom Hin.
  - exists e. split; [reflexivity|]. split; [by repeat split|].
    intros isub. rewrite decide_False; [reflexivity|]. apply not_elem_of_nil.
  - destruct (Hin a) as [sub Hsub]; [left|].
    pose (e1 := set_localSurveys
                  (<[a := surveyFactory e (sub ∪ g)]> (localSurveys e)) e).
    destruct (IH e1) as (e' & Hrun & Hsame & Hlk).
    { exact Hgeom. }
    { intros isub Hisub. apply Hin. by right. }
    exists e'. split; [|split].
    + cbn [for_]. unfold bind at 1. unfold survey_step at 1.
      unfold bind, get, base_geom, getitem, modify, ret.
      rewrite Hgeom. simpl. rewrite Hsub. exact Hrun.
    + unfold same_but_surveys in *. subst e1. simpl in Hsame. tauto.
    + intros isub. rewrite Hlk. subst e1. simpl.
      destruct (decide (isub ∈ l)) as [Hl|Hl].
      * rewrite decide_True; [reflexivity|by right].
      * destruct (decide (isub = a)) as [->|Hne].
        -- rewrite decide_True; [|left]. by rewrite lookup_insert_eq, Hsub.
        -- rewrite decide_False.
           ++ by rewrite lookup_insert_ne.
           ++ intros [?|?]%elem_of_cons; contradiction.
Qed.

Lemma elem_of_keys_gen {K V} `{Countable K} (m : gmap K V) k :
  k ∈ keys m <-> is_Some (m !! k).
Proof.
  unfold keys. rewrite list_elem_of_fmap. split.
  - intros [[k' v] [-> Hkv]]. apply elem_of_map_to_list in Hkv. by exists v.
  - intros [v Hv]. exists (k, v). split; [reflexivity|].
    by apply elem_of_map_to_list.
Qed.

(** What [setupLocalSurveys] leaves behind when [geom] is there. *)
Lemma setupLocalSurveys_run (subConfigs : gmap pyval (gmap string pyval)) g e :
  baseSystemConfig e !! "geom"%string = Some (CGeom g) ->
  exists e',
    setupLocalSurveys subConfigs e = (Val tt, e') /\
    same_but_surveys e e' /\
    localSurveys e'
    = ((fun sub => surveyFactory e (sub ∪ g)) <$> subConfigs) ∪ localSurveys e.
Proof.
  intros Hgeom.
  destruct (survey_loop subConfigs g (keys subConfigs) e Hgeom)
    as (e' & Hrun & Hsame & Hlk).
  { intros isub. apply elem_of_keys_gen. }
  exists e'. split; [exact Hrun|]. split; [exact Hsame|].
  apply map_eq. intros isub. rewrite Hlk, lookup_union, lookup_fmap.
  destruct (subConfigs !! isub) as [sub|] eqn:Hsub.
  - rewrite decide_True by (apply elem_of_keys_gen; by rewrite Hsub).
    simpl. by destruct (localSurveys e !! isub).
  - rewrite decide_False.
    + simpl. by destruct (localSurveys e !! isub).
    + rewrite elem_of_keys_gen, Hsub. by intros [? ?].
Qed.

(** X3. When the base configuration holds a [geom] dictionary,
    [setupLocalSurveys(subConfigs)] returns normally; afterwards every
    sub-index of [subConfigs] maps to the survey built from [geom]
    overlaid with that sub-index's configuration (the overlay winning on
    common keys), surveys under other sub-indices are kept, nothing else
    of the endpoint changes, and a second identical call changes
    nothing. *)
Theorem setupLocalSurveys_overlay
    (subConfigs : gmap pyval (gmap string pyval)) g e :
  baseSystemConfig e !! "geom"%string = Some (CGeom g) ->
  exists e',
    setupLocalSurveys subConfigs e = (Val tt, e') /\
    same_but_surveys e e' /\
    (forall isub sub, subConfigs !! isub = Some sub ->
       localSurveys e' !! isub = Some (surveyFactory e (sub ∪ g))) /\
    (forall isub, subConfigs !! isub = None ->
       localSurveys e' !! isub = localSurveys e !! isub) /\
    setupLocalSurveys subConfigs e' = (Val tt, e').
Proof.
  intros Hgeom.
  destruct (setupLocalSurveys_run subConfigs g e Hgeom)
    as (e' & Hrun & Hsame & Hsurv).
  exists e'. split; [exact Hrun|]. split; [exact Hsame|].
  split; [|split].
  - intros isub sub Hsub. rewrite Hsurv, lookup_union, lookup_fmap, Hsub.
    simpl. by destruct (localSurveys e !! isub).
  - intros isub Hsub. rewrite Hsurv, lookup_union, lookup_fmap, Hsub.
    simpl. by destruct (localSurveys e !! isub).
  - assert (Hgeom' : baseSystemConfig e' !! "geom"%string = Some (CGeom g)).
    { destruct Hsame as (_ & _ & _ & _ & _ & _ & ->). exact Hgeom. }
    destruct (setupLocalSurveys_run subConfigs g e' Hgeom')
      as (e'' & Hrun2 & Hsame2 & Hsurv2).
    rewrite Hrun2. f_equal. apply endpoint_eq_surveys; [exact Hsame2|].
    rewrite Hsurv2, Hsurv.
    destruct Hsame as (_ & -> & _).
    rewrite (assoc_L (∪)). f_equal. apply map_union_idemp.
Qed.

(** X4. Without a [geom] entry in the base configuration,
    [setupLocalSurveys] raises [KeyError] on its first sub-index and
    leaves the endpoint as it was; with no sub-index at all it returns
    normally, [geom] or not. *)
Theorem setupLocalSurveys_missing_geom
    (subConfigs : gmap pyval (gmap string pyval)) e :
  baseSystemConfig e !! "geom"%string = None ->
  setupLocalSurveys subConfigs e
  = (if decide (subConfigs = ∅) then Val tt else Exc (KeyError "geom"), e).
Proof.
  intros Hgeom. unfold setupLocalSurveys, keys.
  destruct (decide (subConfigs = ∅)) as [->|Hne].
  - by rewrite map_to_list_empty.
  - destruct (map_to_list subConfigs) as [|[isub sub] l] eqn:Hl.
    + by apply map_to_list_empty_iff in Hl.
    + simpl. unfold bind, get, base_geom, getitem. by rewrite Hgeom.
Qed.

(** X5. [setupLocalProblem] is all or nothing on the endpoint's
    dictionaries: it either returns normally, having bound one tag of
    [localProblems] and changed nothing else, or raises with every
    dictionary as it was. It returns normally exactly when [subConfig]
    names a hashable [isub] for which a survey is stored, the pairing
    succeeds and [subConfig] names a hashable [tag]. *)
Theorem setupLocalProblem_all_or_nothing e subConfig :
  ((exists e' tag p,
      setupLocalProblem pair subConfig e = (Val tt, e') /\
      same_but_problems e e' /\
      localProblems e' = <[tag := p]> (localProblems e))
   \/ (exists ex, setupLocalProblem pair subConfig e = (Exc ex, e))) /\
  ((exists e', setupLocalProblem pair subConfig e = (Val tt, e')) <->
   (exists isub survey p tag,
      subConfig !! "isub"%string = Some (CVal isub) /\
      localSurveys e !! isub = Some survey /\
      pair (problemFactory e (systemConfig_of e subConfig)) survey = Some p /\
      subConfig !! "tag"%string = Some (CVal tag))).
Proof.
  unfold setupLocalProblem, bind, get, hashable, getitem, ret, raise, modify.
  destruct (subConfig !! "isub"%string) as [[isub|?]|] eqn:Hisub; simpl.
  2,3: split; [right; by eexists|];
       split; [intros [? ?]; discriminate
              |intros (? & ? & ? & ? & ? & _); discriminate].
  destruct (localSurveys e !! isub) as [survey|] eqn:Hsurvey; simpl.
  2: { split; [right; by eexists|].
       split; [intros [? ?]; discriminate|].
       intros (? & ? & ? & ? & [= <-] & ? & _). congruence. }
  destruct (pair (problemFactory e (systemConfig_of e subConfig)) survey)
    as [p|] eqn:Hpair.
  2: { split; [right; by eexists|].
       split; [intros [? ?]; discriminate|].
       intros (? & ? & ? & ? & [= <-] & ? & ? & _). congruence. }
  destruct (subConfig !! "tag"%string) as [[tag|?]|] eqn:Htag; simpl.
  2,3: split; [right; by eexists|];
       split; [intros [? ?]; discriminate
              |intros (? & ? & ? & ? & _ & _ & _ & ?); discriminate].
  split.
  - left. eexists _, tag, p. split; [reflexivity|]. by repeat split.
  - split; [|by eexists]. intros _. by exists isub, survey, p, tag.
Qed.

(** X6. [setupLocalSurveys] followed by [setupLocalProblem]: when the
    base configuration holds a [geom] dictionary and [subConfig] names a
    sub-index of [subConfigs] and a tag, the second call finds the survey
    the first one stored, pairs the new subproblem with the survey built
    from [geom] overlaid with that sub-index's configuration, and stores
    the paired subproblem under the tag. *)
Theorem surveys_then_problem (subConfigs : gmap pyval (gmap string pyval))
    g e subConfig isub sub tag p :
  baseSystemConfig e !! "geom"%string = Some (CGeom g) ->
  subConfigs !! isub = Some sub ->
  subConfig !! "isub"%string = Some (CVal isub) ->
  subConfig !! "tag"%string = Some (CVal tag) ->
  pair (problemFactory e (systemConfig_of e subConfig))
       (surveyFactory e (sub ∪ g)) = Some p ->
  exists e1 e2,
    setupLocalSurveys subConfigs e = (Val tt, e1) /\
    setupLocalProblem pair subConfig e1 = (Val tt, e2) /\
    localProblems e2 = <[tag := p]> (localProblems e) /\
    localSurveys e2 = localSurveys e1 /\
    localSurveys e2 !! isub = Some (surveyFactory e (sub ∪ g)).
Proof.
  intros Hgeom Hsub Hisub Htag Hpair.
  destruct (setupLocalSurveys_run subConfigs g e Hgeom)
    as (e1 & Hrun & Hsame & Hsurv).
  assert (Hlk : localSurveys e1 !! isub = Some (surveyFactory e (sub ∪ g))).
  { rewrite Hsurv, lookup_union, lookup_fmap, Hsub. simpl.
    by destruct (localSurveys e !! isub). }
  destruct Hsame as (Hpf & _ & _ & _ & Hlp & _ & Hbase).
  exists e1, (set_localProblems (<[tag := p]> (localProblems e1)) e1).
  split; [exact Hrun|]. split; [|split; [|split]].
  - unfold setupLocalProblem, bind, get, hashable, getitem, ret, modify.
    rewrite Hisub. simpl. rewrite Hlk. simpl.
    unfold systemConfig_of. rewrite Hpf, Hbase.
    unfold systemConfig_of in Hpair. rewrite Hpair, Htag. reflexivity.
  - simpl. by rewrite Hlp.
  - reflexivity.
  - exact Hlk.
Qed.

End Surveys.

(** X1 at the concrete worker, whose [localFields] holds a stale entry. *)
Lemma setupLocalFields_reset_witness :
  exists e',
    setupLocalFields None endpoint0 = (Val tt, e') /\
    same_but_fields endpoint0 e' /\
    localFields e'
    = (fun ctor => ctor tt)
        <$> ({[ "u"%string := (fun _ : unit => @nil Z) ]}
               : gmap string (unit -> list Z)) /\
    dom (localFields e')
    = dom ({[ "u"%string := (fun _ : unit => @nil Z) ]}
             : gmap string (unit -> list Z)) /\
    size (localFields e')
    = size ({[ "u"%string := (fun _ : unit => @nil Z) ]}
              : gmap string (unit -> list Z)) /\
    setupLocalFields None e' = (Val tt, e').
Proof.
  apply (setupLocalFields_reset endpoint0). reflexivity.
Defined.

(** X2 at the concrete worker: ["u"] is known, ["v"] is not. *)
Lemma setupLocalFields_unknown_name_witness :
  exists e',
    setupLocalFields (Some (["u"%string] ++ "v"%string :: ["u"%string])) endpoint0
    = (Exc (KeyError "v"), e') /\
    same_but_fields endpoint0 e' /\
    (forall fn ctor, fn ∈ ["u"%string] ->
       ({[ "u"%string := (fun _ : unit => @nil Z) ]}
          : gmap string (unit -> list Z)) !! fn = Some ctor ->
       localFields e' !! fn = Some (ctor tt)) /\
    (forall fn, fn ∉ ["u"%string] ->
       localFields e' !! fn = localFields endpoint0 !! fn).
Proof.
  apply (setupLocalFields_unknown_name endpoint0
           {[ "u"%string := (fun _ : unit => @nil Z) ]}
           ["u"%string] ["u"%string] "v"%string).
  - reflexivity.
  - intros fn ->%list_elem_of_singleton. by eexists.
  - reflexivity.
Defined.

(** X3 at the concrete worker, whose base geometry is empty. *)
Lemma setupLocalSurveys_overlay_witness :
  exists e',
    setupLocalSurveys subConfigs0 endpoint0 = (Val tt, e') /\
    same_but_surveys endpoint0 e' /\
    (forall isub sub, subConfigs0 !! isub = Some sub ->
       localSurveys e' !! isub = Some (surveyFactory endpoint0 (sub ∪ ∅))) /\
    (forall isub, subConfigs0 !! isub = None ->
       localSurveys e' !! isub = localSurveys endpoint0 !! isub) /\
    setupLocalSurveys subConfigs0 e' = (Val tt, e').
Proof.
  apply (setupLocalSurveys_overlay subConfigs0 ∅ endpoint0). reflexivity.
Defined.

(** X4 at a worker with an empty base configuration. *)
Lemma setupLocalSurveys_missing_geom_witness :
  setupLocalSurveys subConfigs0 endpoint_blank
  = (if decide (subConfigs0 = ∅) then Val tt else Exc (KeyError "geom"),
     endpoint_blank).
Proof.
  apply (setupLocalSurveys_missing_geom subConfigs0 endpoint_blank).
  reflexivity.
Defined.

(** X6 at the concrete worker: the surveys of [subConfigs0], then the
    subproblem of sub-index 1. *)
Lemma surveys_then_problem_witness :
  exists e1 e2,
    setupLocalSurveys subConfigs0 endpoint0 = (Val tt, e1) /\
    setupLocalProblem pair0 subConfig_c e1 = (Val tt, e2) /\
    localProblems e2
    = <[PPair 1 0 := (systemConfig_of endpoint0 subConfig_c,
                      Some ({[ "freq"%string := PInt 3 ]} ∪ ∅))]>
        (localProblems endpoint0) /\
    localSurveys e2 = localSurveys e1 /\
    localSurveys e2 !! PInt 1
    = Some (surveyFactory endpoint0 ({[ "freq"%string := PInt 3 ]} ∪ ∅)).
Proof.
  apply (surveys_then_problem pair0 subConfigs0 ∅ endpoint0 subConfig_c
           (PInt 1) {[ "freq"%string := PInt 3 ]} (PPair 1 0)); reflexivity.
Defined.

End EndpointProps.
(** * Further properties of the scheduler *)

Module SystemSolverProps.
Import Py LView SystemSolver SystemSolverFacts.
Local Open Scope py_scope.

(** ** The two partitioners *)

(** Consecutive boundaries [i * N / c] are [N / c] or [N / c + 1] apart. *)
Lemma floor_step (N c i : Z) :
  1 <= c -> 0 <= N -> 0 <= i ->
  N / c <= (i + 1) * N / c - i * N / c <= N / c + 1.
Proof.
  intros Hc HN Hi.
  pose proof (Z.div_mod N c ltac:(lia)) as Hdm.
  pose proof (Z.mod_pos_bound N c ltac:(lia)) as Hr.
  set (q := N / c) in *. set (r := N mod c) in *.
  assert (H1 : i * N / c = i * q + i * r / c).
  { replace (i * N) with (i * q * c + i * r) by nia.
    apply Z.div_add_l. lia. }
  assert (H2 : (i + 1) * N / c = (i + 1) * q + (i * r + r) / c).
  { replace ((i + 1) * N) with ((i + 1) * q * c + (i * r + r)) by nia.
    apply Z.div_add_l. lia. }
  assert (H3 : i * r / c <= (i * r + r) / c).
  { apply Z.div_le_mono; lia. }
  assert (H4 : (i * r + r) / c <= i * r / c + 1).
  { replace (i * r / c + 1) with ((i * r + 1 * c) / c).
    - apply Z.div_le_mono; lia.
    - apply Z.div_add. lia. }
  lia.
Qed.

Lemma floor_bounds (N c i : Z) :
  1 <= c -> 0 <= N -> 0 <= i <= c -> 0 <= i * N / c <= N.
Proof.
  intros Hc HN Hi. split.
  - apply Z.div_pos; nia.
  - replace N with (c * N / c) at 2.
    + apply Z.div_le_mono; nia.
    + rewrite (Z.mul_comm c N). apply Z.div_mul. lia.
Qed.

Lemma floor_mono (N c i j : Z) :
  1 <= c -> 0 <= N -> i <= j -> i * N / c <= j * N / c.
Proof. intros Hc HN Hij. apply Z.div_le_mono; nia. Qed.

Lemma slice_index_id (n i : Z) : 0 <= i <= n -> slice_index n i = i.
Proof.
  intros Hi. unfold slice_index.
  destruct (Z.ltb_spec i 0); lia.
Qed.

Section Chunks.
Context {A : Type}.
Implicit Types problems : list A.

(** A chunk between two boundaries of the partition. *)
Lemma getslice_boundaries problems (c i : Z) :
  1 <= c -> 0 <= i < c ->
  let N := Z.of_nat (length problems) in
  getslice problems (i * N / c) ((i + 1) * N / c)
  = take (Z.to_nat ((i + 1) * N / c) - Z.to_nat (i * N / c))
         (drop (Z.to_nat (i * N / c)) problems).
Proof.
  intros Hc Hi N. unfold getslice. fold N.
  pose proof (floor_bounds N c i Hc ltac:(lia) ltac:(lia)).
  pose proof (floor_bounds N c (i + 1) Hc ltac:(lia) ltac:(lia)).
  rewrite !slice_index_id by lia. f_equal. lia.
Qed.

(** The first [k] chunks put together are the problems up to the
    [k]-th boundary. *)
Lemma getChunks_prefix problems (c : Z) (k : nat) :
  1 <= c -> Z.of_nat k <= c ->
  let N := Z.of_nat (length problems) in
  concat (map (fun i => getslice problems (i * N / c) ((i + 1) * N / c))
              (map Z.of_nat (seq 0 k)))
  = take (Z.to_nat (Z.of_nat k * N / c)) problems.
Proof.
  intros Hc Hk N. induction k as [|k IH].
  - simpl. by rewrite Zdiv_0_l.
  - rewrite seq_S, !map_app, concat_app, IH by lia. simpl.
    rewrite app_nil_r, getslice_boundaries by lia. fold N.
    replace (Z.of_nat k + 1) with (Z.of_nat (S k)) by lia.
    pose proof (floor_bounds N c (Z.of_nat k) Hc ltac:(lia) ltac:(lia)).
    pose proof (floor_mono N c (Z.of_nat k) (Z.of_nat (S k)) Hc
                  ltac:(lia) ltac:(lia)).
    rewrite take_take_drop. f_equal. lia.
Qed.

(** X7. [_getChunks(problems, chunks)] with at least one chunk yields
    exactly [chunks] chunks which, put end to end, are [problems]: no
    element is lost, repeated or reordered. The chunks are balanced,
    each holding [n // chunks] or [n // chunks + 1] of the [n] elements,
    and they are the parts of [problems] that the sub-slices of
    [_subSlice(slice(0, n), chunks)] select. *)
Theorem getChunks_partition problems (chunks : Z) :
  1 <= chunks ->
  let n := Z.of_nat (length problems) in
  length (_getChunks problems chunks) = Z.to_nat chunks /\
  concat (_getChunks problems chunks) = problems /\
  (forall i chunk, _getChunks problems chunks !! i = Some chunk ->
     n / chunks <= Z.of_nat (length chunk) <= n / chunks + 1) /\
  (exists works,
     _subSlice (Slice None (Some n) None) chunks tt = (Val works, tt) /\
     _getChunks problems chunks
     = map (fun w => getslice problems (default 0 (start w))
                                       (default 0 (stop w))) works).
Proof.
  intros Hc n. subst n. set (N := Z.of_nat (length problems)).
  split; [|split; [|split]].
  - unfold _getChunks. by rewrite length_map, xrange_length.
  - unfold _getChunks, xrange.
    rewrite (getChunks_prefix problems chunks (Z.to_nat chunks)) by lia.
    rewrite Z2Nat.id by lia.
    rewrite (Z.mul_comm chunks), Z.div_mul by lia.
    rewrite Nat2Z.id. apply firstn_all.
  - intros i chunk Hi. unfold _getChunks in Hi.
    rewrite list_lookup_fmap in Hi.
    destruct (xrange chunks !! i) as [z|] eqn:Hz; [|discriminate].
    simpl in Hi. injection Hi as <-.
    assert (Hzr : 0 <= z < chunks).
    { unfold xrange in Hz. rewrite list_lookup_fmap in Hz.
      destruct (seq 0 (Z.to_nat chunks) !! i) as [k|] eqn:Hk; [|discriminate].
      apply lookup_seq in Hk as [-> Hlt]. simpl in Hz.
      injection Hz as <-. lia. }
    rewrite getslice_boundaries by lia. fold N.
    pose proof (floor_bounds N chunks z Hc ltac:(lia) ltac:(lia)).
    pose proof (floor_bounds N chunks (z + 1) Hc ltac:(lia) ltac:(lia)).
    pose proof (floor_step N chunks z Hc ltac:(lia) ltac:(lia)).
    assert (0 <= N / chunks) by (apply Z.div_pos; lia).
    rewrite length_take, length_drop.
    set (x := z * N / chunks) in *. set (y := (z + 1) * N / chunks) in *.
    set (q := N / chunks) in *. clearbody x y q. subst N. lia.
  - eexists. split; [reflexivity|].
    unfold _getChunks. simpl. rewrite map_map.
    apply map_ext. intros i. simpl. by rewrite !Z.sub_0_r.
Qed.

End Chunks.

(** Five problems in two chunks. *)
Lemma getChunks_partition_witness :
  length (_getChunks [1; 2; 3; 4; 5] 2) = Z.to_nat 2 /\
  concat (_getChunks [1; 2; 3; 4; 5] 2) = [1; 2; 3; 4; 5] /\
  (forall i chunk, _getChunks [1; 2; 3; 4; 5] 2 !! i = Some chunk ->
     5 / 2 <= Z.of_nat (length chunk) <= 5 / 2 + 1) /\
  (exists works,
     _subSlice (Slice None (Some 5) None) 2 tt = (Val works, tt) /\
     _getChunks [1; 2; 3; 4; 5] 2
     = map (fun w => getslice [1; 2; 3; 4; 5] (default 0 (start w))
                                              (default 0 (stop w))) works).
Proof.
  apply (getChunks_partition [1; 2; 3; 4; 5] 2). lia.
Defined.

(** X8. For a slice with its upper end not below its lower end and
    at least one chunk, the sub-slices of [_subSlice] are balanced:
    each spans [W // chunks] or [W // chunks + 1] indices, [W] being
    the width of the slice. With more chunks than indices the empty
    sub-slices are returned all the same. *)
Theorem subSlice_balanced {S} (s0 : S) (insl : pyslice) (b c : Z) :
  stop insl = Some b ->
  1 <= c ->
  let a := default 0 (start insl) in
  0 <= b - a ->
  exists works,
    _subSlice insl c s0 = (Val works, s0) /\
    length works = Z.to_nat c /\
    forall w, w ∈ works ->
      exists lo hi, w = Slice (Some lo) (Some hi) None /\
                    (b - a) / c <= hi - lo <= (b - a) / c + 1.
Proof.
  intros Hstop Hc a HW.
  eexists. split; [|split].
  - unfold _subSlice. rewrite Hstop. unfold ret. reflexivity.
  - by rewrite length_map, xrange_length.
  - intros w [i [-> Hi]]%list_elem_of_fmap.
    assert (Hir : 0 <= i).
    { unfold xrange in Hi. apply list_elem_of_fmap in Hi as [k [-> _]]. lia. }
    eexists _, _. split; [reflexivity|].
    replace (match start insl with Some s => s | None => 0 end) with a
      by (subst a; by destruct (start insl)).
    pose proof (floor_step (b - a) c i Hc HW Hir). lia.
Qed.

(** [slice(0, 10)] in four chunks: widths 2 and 3. *)
Lemma subSlice_balanced_witness :
  exists works,
    _subSlice (Slice None (Some 10) None) 4 tt = (Val works, tt) /\
    length works = Z.to_nat 4 /\
    forall w, w ∈ works ->
      exists lo hi, w = Slice (Some lo) (Some hi) None /\
                    (10 - 0) / 4 <= hi - lo <= (10 - 0) / 4 + 1.
Proof.
  apply (subSlice_balanced tt (Slice None (Some 10) None) 10 4).
  - reflexivity.
  - lia.
  - simpl. lia.
Defined.

(** ** What one tag contributes to the log *)

(** X9. One tag under the individual ending, for a source slice with
    an upper end. The scheduler submits one compute task per sub-slice,
    none with a dependency, and then one clear task per compute task:
    the [i]-th clear task both follows and comes after the [i]-th compute
    task and nothing else. With [n] sub-slices that is [2 n] tasks; the
    clear jobs are appended to [clearJobs] and the tag's tail node to
    [tailNodes]. Empty sub-slices are submitted like any other. *)
Theorem schedule_tag_individual p r e isrcs a t b log :
  stop isrcs = Some b ->
  default false (ensembleClear p) = false ->
  let chunks := default 1 (chunksPerWorker p)
                * Z.of_nat (length (relIDs_of t (engines r))) in
  let n := Z.to_nat chunks in
  let base := length log in
  exists a' works,
    _subSlice isrcs chunks log = (Val works, log) /\
    length works = n /\
    schedule_tag p r e isrcs a t log
    = (Val a',
       log ++ map (fun w => Task (Solve (solve e) t w) no_flags) works
           ++ map (fun i => Task (Clear (clear e) t None)
                                 (Flags [base + i]%nat [base + i]%nat))
                  (seq 0 n)) /\
    clearJobs a' = clearJobs a ++ map (fun i => [base + n + i]%nat) (seq 0 n) /\
    tailNodes a' = tailNodes a ++ [fmt2 "Tail: " t].
Proof.
  intros Hstop Hind chunks n base.
  assert (Hsub : exists works,
            _subSlice isrcs chunks log = (Val works, log) /\
            length works = n) .
  { eexists. split.
    - unfold _subSlice. rewrite Hstop. unfold ret. reflexivity.
    - by rewrite length_map, xrange_length. }
  destruct Hsub as (works & Hsub & Hlen).
  unfold schedule_tag. fold chunks. unfold bind at 1. rewrite Hsub.
  edestruct (submit_compute_run (solve e) t) as (G1 & nodes & Hc & Hnodes).
  unfold bind at 1. rewrite Hc. rewrite Hind.
  edestruct (submit_clear_individual_run (clear e) t) as (G2 & ends & Hw);
    [|unfold bind at 1; rewrite Hw].
  { by rewrite length_map, length_seq. }
  unfold ret. eexists _, works. split; [reflexivity|]. split; [exact Hlen|].
  split; [|split].
  - f_equal. rewrite <- app_assoc. do 2 f_equal.
    rewrite map_map, Hlen. reflexivity.
  - simpl. f_equal. rewrite length_map, length_seq, length_app, length_map.
    rewrite Hlen. reflexivity.
  - reflexivity.
Qed.

(** X10. One tag under the ensemble ending, for a source slice with an
    upper end. After the compute tasks (one per sub-slice, none with a
    dependency) the scheduler submits one clear task per hosting rank,
    in the order of the direct view; each is to run after all the
    compute tasks of the tag, names its rank as an argument and carries
    no [follow] dependency. *)
Theorem schedule_tag_ensemble p r e isrcs a t b log :
  stop isrcs = Some b ->
  default false (ensembleClear p) = true ->
  let relIDs := relIDs_of t (engines r) in
  let chunks := default 1 (chunksPerWorker p) * Z.of_nat (length relIDs) in
  let n := Z.to_nat chunks in
  let base := length log in
  exists a' works,
    _subSlice isrcs chunks log = (Val works, log) /\
    length works = n /\
    schedule_tag p r e isrcs a t log
    = (Val a',
       log ++ map (fun w => Task (Solve (solve e) t w) no_flags) works
           ++ map (fun rank => Task (Clear (clear e) t (Some rank))
                                    (Flags (seq base n) []))
                  relIDs) /\
    clearJobs a'
    = clearJobs a ++ map (fun i => [base + n + i]%nat) (seq 0 (length relIDs)) /\
    tailNodes a' = tailNodes a ++ [fmt2 "Tail: " t].
Proof.
  intros Hstop Hens relIDs chunks n base.
  assert (Hsub : exists works,
            _subSlice isrcs chunks log = (Val works, log) /\
            length works = n) .
  { eexists. split.
    - unfold _subSlice. rewrite Hstop. unfold ret. reflexivity.
    - by rewrite length_map, xrange_length. }
  destruct Hsub as (works & Hsub & Hlen).
  unfold schedule_tag. fold relIDs chunks. unfold bind at 1. rewrite Hsub.
  edestruct (submit_compute_run (solve e) t) as (G1 & nodes & Hc & Hnodes).
  unfold bind at 1. rewrite Hc. rewrite Hens.
  edestruct (submit_clear_ensemble_run (clear e) t) as (G2 & ends & Hw).
  unfold bind at 1. rewrite Hw.
  unfold ret. eexists _, works. split; [reflexivity|]. split; [exact Hlen|].
  split; [|split].
  - f_equal. rewrite <- app_assoc. do 2 f_equal.
    rewrite msg_ids_singletons, Hlen. reflexivity.
  - simpl. f_equal. rewrite length_app, length_map.
    rewrite Hlen. reflexivity.
  - reflexivity.
Qed.

(** Tag (0, 0) hosted by two engines, two chunks per worker, over
    [slice(0, 10)]: four compute tasks and four clear tasks. *)
Lemma schedule_tag_individual_witness :
  exists a' works,
    _subSlice isrcs10 4 ([] : list task) = (Val works, []) /\
    length works = 4%nat /\
    schedule_tag problem_two remote_shared entry0 isrcs10
      (Acc SystemGraph.empty [] []) (0, 0) []
    = (Val a',
       [] ++ map (fun w => Task (Solve "forward" (0, 0) w) no_flags) works
          ++ map (fun i => Task (Clear "clear" (0, 0) None)
                                (Flags [0 + i]%nat [0 + i]%nat))
                 (seq 0 4)) /\
    clearJobs a' = [] ++ map (fun i => [0 + 4 + i]%nat) (seq 0 4) /\
    tailNodes a' = [] ++ [fmt2 "Tail: " (0, 0)].
Proof.
  apply (schedule_tag_individual problem_two remote_shared entry0 isrcs10
           (Acc SystemGraph.empty [] []) (0, 0) 10 []); reflexivity.
Defined.

(** The same under the ensemble ending: four compute tasks and two
    clear tasks, for ranks 0 and 1. *)
Lemma schedule_tag_ensemble_witness :
  exists a' works,
    _subSlice isrcs10 4 ([] : list task) = (Val works, []) /\
    length works = 4%nat /\
    schedule_tag problem_ensemble remote_shared entry0 isrcs10
      (Acc SystemGraph.empty [] []) (0, 0) []
    = (Val a',
       [] ++ map (fun w => Task (Solve "forward" (0, 0) w) no_flags) works
          ++ map (fun rank => Task (Clear "clear" (0, 0) (Some rank))
                                   (Flags (seq 0 4) []))
                 [0; 1]) /\
    clearJobs a' = [] ++ map (fun i => [0 + 4 + i]%nat) (seq 0 2) /\
    tailNodes a' = [] ++ [fmt2 "Tail: " (0, 0)].
Proof.
  apply (schedule_tag_ensemble problem_ensemble remote_shared entry0 isrcs10
           (Acc SystemGraph.empty [] []) (0, 0) 10 []); reflexivity.
Defined.

(** ** The scheduler as a whole *)

Lemma classic_slice (s : pyslice) (tags : gset tag) :
  (is_Some (stop s) \/ tags = ∅) \/ ~ (is_Some (stop s) \/ tags = ∅).
Proof.
  destruct (stop s) as [b|]; [left; left; by eexists|].
  destruct (decide (tags = ∅)) as [->|Hne]; [left; by right|].
  right. intros [[? [=]]|?]. contradiction.
Qed.

Lemma submit_reductions_returns r labels after jobs :
  returns (submit_reductions r labels after jobs).
Proof.
  intros log. destruct (useMPI r) eqn:Hmode.
  - rewrite submit_reductions_mpi by done. by eexists _, _.
  - rewrite submit_reductions_star by done. by eexists _, _.
Qed.

(** [__call__] once the loop over the tags has returned. *)
Lemma call_after_tags p r schedule name e s log a mid :
  schedule !! name = Some e ->
  schedule_tags p r e s (elements (all_tags (engines r))) acc0 log
  = (Val a, mid) ->
  exists jobs log',
    submit_reductions r (reduce e) (msg_ids (clearJobs a)) [] mid
    = (Val jobs, log') /\
    __call__ p r schedule name (SrcSlice s) log = (Val (finish_graph a jobs), log').
Proof.
  intros He Hrun.
  destruct (submit_reductions_returns r (reduce e) (msg_ids (clearJobs a)) []
              mid) as (jobs & log' & Hred).
  exists jobs, log'. split; [exact Hred|].
  unfold __call__, bind at 1, getitem. rewrite He.
  unfold ret at 1. unfold bind at 1. unfold ret at 1. unfold bind at 1.
  unfold acc0 in Hrun. rewrite Hrun. unfold bind at 1. rewrite Hred.
  reflexivity.
Qed.

(** The sentinel is run as [slice(None)]. *)
Lemma call_sentinel_slice p r schedule name log :
  __call__ p r schedule name SrcNone log
  = __call__ p r schedule name (SrcSlice (Slice None None None)) log.
Proof. reflexivity. Qed.

(** What a normal return of [__call__] went through. *)
Lemma call_inv p r schedule name isrcs log G log' :
  __call__ p r schedule name isrcs log = (Val G, log') ->
  exists e s a mid jobs,
    schedule !! name = Some e /\
    schedule_tags p r e s (elements (all_tags (engines r))) acc0 log
    = (Val a, mid) /\
    submit_reductions r (reduce e) (msg_ids (clearJobs a)) [] mid
    = (Val jobs, log') /\
    G = finish_graph a jobs.
Proof.
  unfold __call__, bind at 1, getitem.
  destruct (schedule !! name) as [e|]; [|discriminate].
  unfold ret at 1. unfold bind at 1.
  assert (Hs : forall s,
    bind (schedule_tags p r e s (elements (all_tags (engines r))) acc0)
      (fun a => bind (submit_reductions r (reduce e) (msg_ids (clearJobs a)) [])
                  (fun jobs => ret (finish_graph a jobs))) log = (Val G, log') ->
    exists e0 s0 a mid jobs,
      Some e = Some e0 /\
      schedule_tags p r e0 s0 (elements (all_tags (engines r))) acc0 log
      = (Val a, mid) /\
      submit_reductions r (reduce e0) (msg_ids (clearJobs a)) [] mid
      = (Val jobs, log') /\
      G = finish_graph a jobs).
  { intros s. unfold bind at 1.
    destruct (schedule_tags p r e s _ acc0 log) as [[a|ex] mid] eqn:Hrun;
      [|discriminate].
    unfold bind at 1.
    destruct (submit_reductions r (reduce e) _ [] mid) as [[jobs|ex] l1]
      eqn:Hred; [|discriminate].
    intros [= <- <-]. by exists e, s, a, mid, jobs. }
  destruct isrcs as [|s|v]; [apply Hs|apply Hs|discriminate].
Qed.

(** X11. [__call__] never leaves a partial submission: whenever it
    raises, nothing has been submitted. It returns normally exactly when
    the entry is in the schedule and the source range is a slice with an
    upper end, or a slice or [None] while no engine hosts any tag. *)
Theorem call_all_or_nothing p r schedule name isrcs log :
  (forall ex log',
     __call__ p r schedule name isrcs log = (Exc ex, log') -> log' = log) /\
  ((exists G log', __call__ p r schedule name isrcs log = (Val G, log')) <->
   is_Some (schedule !! name) /\
   match isrcs with
   | SrcNone => all_tags (engines r) = ∅
   | SrcSlice s => is_Some (stop s) \/ all_tags (engines r) = ∅
   | SrcOther _ => False
   end).
Proof.
  destruct (schedule !! name) as [e|] eqn:He.
  2: { assert (Hrun : __call__ p r schedule name isrcs log
                      = (Exc (KeyError name), log)).
       { unfold __call__, bind, getitem. by rewrite He. }
       rewrite Hrun. split.
       - by intros ex log' [= _ <-].
       - split; [by intros (? & ? & ?)|by intros [[? ?] _]]. }
  assert (Hslice : forall s,
    (is_Some (stop s) \/ all_tags (engines r) = ∅ ->
     exists G log',
       __call__ p r schedule name (SrcSlice s) log = (Val G, log')) /\
    (~ (is_Some (stop s) \/ all_tags (engines r) = ∅) ->
     exists ex, __call__ p r schedule name (SrcSlice s) log = (Exc ex, log))).
  { intros s. split.
    - intros Hok.
      assert (Hrun : exists a mid,
        schedule_tags p r e s (elements (all_tags (engines r))) acc0 log
        = (Val a, mid)).
      { destruct Hok as [[b Hb]|Hno].
        - apply (schedule_tags_returns p r e s b _ _ Hb).
        - rewrite Hno, elements_empty. by eexists _, _. }
      destruct Hrun as (a & mid & Hrun).
      destruct (call_after_tags p r schedule name e s log a mid He Hrun)
        as (jobs & log' & _ & Hcall).
      by eexists _, _.
    - intros Hnot.
      destruct (stop s) as [b|] eqn:Hstop; [destruct Hnot; left; by eexists|].
      destruct (elements (all_tags (engines r))) as [|t tags] eqn:Hel.
      { apply elements_empty_inv, leibniz_equiv in Hel. tauto. }
      eexists. unfold __call__, bind at 1, getitem. rewrite He.
      unfold ret at 1. unfold bind at 1. unfold ret at 1. unfold bind at 1.
      rewrite Hel. by rewrite schedule_tags_no_stop. }
  assert (Hgen : forall s,
    (forall ex log',
       __call__ p r schedule name (SrcSlice s) log = (Exc ex, log') ->
       log' = log) /\
    ((exists G log',
        __call__ p r schedule name (SrcSlice s) log = (Val G, log')) <->
     is_Some (Some e) /\ (is_Some (stop s) \/ all_tags (engines r) = ∅))).
  { intros s. destruct (Hslice s) as [Hyes Hno].
    destruct (classic_slice s (all_tags (engines r))) as [Hok|Hnot].
    - destruct (Hyes Hok) as (G & log1 & Hrun). rewrite Hrun. split.
      + intros ex log' [=].
      + split; [intros _; split; [by eexists|exact Hok]|by eexists _, _].
    - destruct (Hno Hnot) as (ex & Hrun). rewrite Hrun. split.
      + by intros ex' log' [= _ <-].
      + split; [by intros (? & ? & ?)|intros [_ ?]; contradiction]. }
  destruct isrcs as [|s|v].
  - rewrite call_sentinel_slice. destruct (Hgen (Slice None None None))
      as [Hexc Hval]. split; [exact Hexc|].
    rewrite Hval. simpl. split.
    + intros [_ [[? [=]]|?]]. done.
    + intros [? ?]. split; [done|by right].
  - apply Hgen.
  - rewrite (call_refuses_other p r schedule name e v log He). split.
    + by intros ex log' [= _ <-].
    + split; [by intros (? & ? & ?)|by intros [_ ?]].
Qed.

(** ** Node statuses *)

Lemma codeStatus_exc state data ex :
  SystemGraph._codeStatus state data = Exc ex -> ex = IndexError.
Proof.
  unfold SystemGraph._codeStatus.
  destruct (SystemGraph.jobs data) as [js|]; [|discriminate].
  destruct (last js) as [j|]; [|by intros [= <-]].
  by destruct (1 <? _).
Qed.

Lemma codeStatus_value state data s :
  SystemGraph._codeStatus state data = Val s ->
  0 <= s <= 3 /\ (s = 0 <-> SystemGraph.jobs data = None).
Proof.
  unfold SystemGraph._codeStatus.
  destruct (SystemGraph.jobs data) as [js|].
  - destruct (last js) as [j|]; [|discriminate].
    destruct (SystemGraph.ready (state j)),
             (SystemGraph.successful (state j));
      simpl; intros [= <-]; (split; [lia|split; [lia|discriminate]]).
  - intros [= <-]. split; [lia|done].
Qed.

Lemma codeStatus_nonempty state data :
  SystemGraph.jobs data <> Some [] ->
  exists s, SystemGraph._codeStatus state data = Val s.
Proof.
  intros Hne. unfold SystemGraph._codeStatus.
  destruct (SystemGraph.jobs data) as [js|]; [|by eexists].
  destruct (last js) as [j|] eqn:Hlast.
  - destruct (1 <? _); by eexists.
  - apply last_None in Hlast. by subst js.
Qed.

(** X12. [_codeStatus] answers 0, 1, 2 or 3: 0 exactly for a node
    without a [jobs] attribute, and otherwise 1, 2 or 3 according to
    the last job of the list alone (pending, succeeded, failed),
    whatever the state of the jobs before it. On an empty [jobs] list it
    raises [IndexError]. *)
Theorem codeStatus_last_job state :
  (forall data s,
     SystemGraph._codeStatus state data = Val s ->
     0 <= s <= 3 /\ (s = 0 <-> SystemGraph.jobs data = None)) /\
  (forall js j sl tg rk,
     SystemGraph._codeStatus state
       (SystemGraph.Attrs (Some (js ++ [j])) sl tg rk)
     = Val (if SystemGraph.ready (state j)
            then if SystemGraph.successful (state j) then 2 else 3
            else 1)) /\
  (forall sl tg rk,
     SystemGraph._codeStatus state (SystemGraph.Attrs (Some []) sl tg rk)
     = Exc IndexError).
Proof.
  split; [apply codeStatus_value|]. split; [|done].
  intros js j sl tg rk. unfold SystemGraph._codeStatus. simpl.
  rewrite last_snoc.
  by destruct (SystemGraph.ready (state j)),
              (SystemGraph.successful (state j)).
Qed.

(** One node with an empty [jobs] list makes the loop over the nodes
    raise. *)
Lemma code_nodes_raises state l n data :
  (n, data) ∈ l ->
  SystemGraph._codeStatus state data = Exc IndexError ->
  SystemGraph.code_nodes state l = Exc IndexError.
Proof.
  intros Hin Hexc. induction l as [|[n' d'] l IH]; [by apply elem_of_nil in Hin|].
  simpl. destruct (SystemGraph._codeStatus state d') as [s|ex] eqn:Hd'.
  - apply elem_of_cons in Hin as [[= <- <-]|Hin]; [congruence|].
    by rewrite (IH Hin).
  - by rewrite (codeStatus_exc state d' ex Hd').
Qed.

(** Without such a node the loop returns a status for every node. *)
Lemma code_nodes_returns state l :
  (forall n data, (n, data) ∈ l -> SystemGraph.jobs data <> Some []) ->
  exists m, SystemGraph.code_nodes state l = Val m /\
    (forall n, is_Some (m !! n) <-> exists data, (n, data) ∈ l) /\
    (forall n s, m !! n = Some s -> 0 <= s <= 3).
Proof.
  induction l as [|[n' d'] l IH]; intros Hok.
  - exists ∅. split; [done|]. split.
    + intros n. rewrite lookup_empty. split; [by intros [? ?]|].
      intros [? Hin]. by apply elem_of_nil in Hin.
    + intros n s. by rewrite lookup_empty.
  - destruct IH as (m & Hm & Hdom & Hrange).
    { intros n data Hin. apply (Hok n). by right. }
    destruct (codeStatus_nonempty state d') as [s Hs].
    { apply (Hok n'). by left. }
    exists (<[n' := s]> m). split; [|split].
    + simpl. by rewrite Hs, Hm.
    + intros n. destruct (decide (n = n')) as [->|Hne].
      * rewrite lookup_insert_eq. split; [|by eexists].
        intros _. exists d'. by left.
      * rewrite lookup_insert_ne by done. rewrite Hdom. split.
        -- intros [d Hin]. exists d. by right.
        -- intros [d [[= ? ?]|Hin]%elem_of_cons]; [done|by exists d].
    + intros n s0. destruct (decide (n = n')) as [->|Hne].
      * rewrite lookup_insert_eq. intros [= <-].
        by destruct (codeStatus_value state d' s Hs).
      * rewrite lookup_insert_ne by done. apply Hrange.
Qed.

(** The [End] node of the returned graph holds the jobs of the
    reductions. *)
Lemma finish_graph_End a jobs :
  exists data, SystemGraph.nodes (finish_graph a jobs) !! "End"%string = Some data /\
               SystemGraph.jobs data = Some jobs.
Proof.
  pose proof (fold_add_edge_jobs "End" "End" (tailNodes a)
    (SystemGraph.add_node "End"
       (SystemGraph.Attrs (Some jobs) None None None) (graph a))) as Hj.
  rewrite add_node_jobs in Hj. unfold SystemGraph.jobs_of in Hj.
  fold (finish_graph a jobs) in Hj.
  destruct (SystemGraph.nodes (finish_graph a jobs) !! "End"%string)
    as [data|]; [|discriminate].
  by exists data.
Qed.

(** X13. When no reduction job is produced (star mode, or an entry
    without reductions) the graph the scheduler returns cannot be
    coded: its [End] node carries [jobs=[]], on which [_codeStatus]
    raises [IndexError], and so does [_codeGraph], whatever the state of
    the jobs. *)
Theorem codeGraph_raises_without_reductions p r schedule name e isrcs log
    G log' state :
  schedule !! name = Some e ->
  useMPI r = false \/ reduce e = [] ->
  __call__ p r schedule name isrcs log = (Val G, log') ->
  SystemGraph.jobs_of "End" G = Some [] /\
  SystemGraph._codeGraph state G = Exc IndexError.
Proof.
  intros He Hnone Hcall.
  apply call_inv in Hcall as (e' & s & a & mid & jobs & He' & _ & Hred & ->).
  assert (e' = e) as -> by congruence.
  assert (jobs = []) as ->.
  { destruct Hnone as [Hstar|Hnil].
    - rewrite submit_reductions_star in Hred by done. congruence.
    - rewrite Hnil in Hred. simpl in Hred. unfold ret in Hred. congruence. }
  destruct (finish_graph_End a []) as (data & Hdata & Hjobs).
  split.
  - unfold SystemGraph.jobs_of. by rewrite Hdata.
  - unfold SystemGraph._codeGraph.
    rewrite (code_nodes_raises state _ "End" data); [done| |].
    + by apply elem_of_map_to_list.
    + unfold SystemGraph._codeStatus. by rewrite Hjobs.
Qed.

(** Two engines in star mode. *)
Lemma codeGraph_raises_without_reductions_witness :
  exists G log',
    __call__ problem0 remote_star schedule0 "forward" (SrcSlice isrcs0) []
    = (Val G, log') /\
    SystemGraph.jobs_of "End" G = Some [] /\
    SystemGraph._codeGraph all_done G = Exc IndexError.
Proof.
  destruct (__call__ problem0 remote_star schedule0 "forward"
              (SrcSlice isrcs0) []) as [[G|ex] log'] eqn:Hcall;
    [|vm_compute in Hcall; discriminate Hcall].
  exists G, log'. split; [reflexivity|].
  apply (codeGraph_raises_without_reductions problem0 remote_star schedule0
           "forward" entry0 (SrcSlice isrcs0) [] G log' all_done).
  - reflexivity.
  - left. reflexivity.
  - exact Hcall.
Defined.

(** *** Every other node has a job or no [jobs] at all *)

Lemma ensures_ret {A} (Q : A -> Prop) (a : A) : Q a -> ensures Q (ret a).
Proof. intros HQ log a' log' [= <- _]. exact HQ. Qed.

Lemma ensures_bind {A B} (P : A -> Prop) (Q : B -> Prop)
    (m : M view A) (k : A -> M view B) :
  ensures P m -> (forall a, P a -> ensures Q (k a)) -> ensures Q (bind m k).
Proof.
  intros Hm Hk log b log'. unfold bind.
  destruct (m log) as [[a|ex] log1] eqn:Hrun; [|discriminate].
  intros Hkrun. exact (Hk a (Hm _ _ _ Hrun) _ _ _ Hkrun).
Qed.

Lemma ensures_any {A} (m : M view A) : ensures (fun _ => True) m.
Proof. by intros log a log' _. Qed.

Lemma add_node_nonempty n a G :
  SystemGraph.jobs a <> Some [] ->
  jobs_nonempty G -> jobs_nonempty (SystemGraph.add_node n a G).
Proof.
  intros Ha HG n' a'. unfold SystemGraph.add_node. simpl.
  destruct (decide (n' = n)) as [->|Hne].
  - rewrite lookup_insert_eq. intros [= <-].
    unfold SystemGraph.update. simpl.
    destruct (SystemGraph.jobs a) as [js|] eqn:Hjs; simpl.
    + exact Ha.
    + destruct (SystemGraph.nodes G !! n) as [old|] eqn:Hold; simpl.
      * exact (HG n old Hold).
      * discriminate.
  - rewrite lookup_insert_ne by done. apply HG.
Qed.

Lemma add_edge_nonempty u v G :
  jobs_nonempty G -> jobs_nonempty (SystemGraph.add_edge u v G).
Proof.
  intros HG. unfold SystemGraph.add_edge.
  change (jobs_nonempty
            (SystemGraph.Graph
               (SystemGraph.nodes
                  (SystemGraph.add_node v SystemGraph.no_attrs
                     (SystemGraph.add_node u SystemGraph.no_attrs G)))
               ({[(u, v)]} ∪ SystemGraph.edges
                  (SystemGraph.add_node v SystemGraph.no_attrs
                     (SystemGraph.add_node u SystemGraph.no_attrs G))))).
  assert (H2 : jobs_nonempty
                 (SystemGraph.add_node v SystemGraph.no_attrs
                    (SystemGraph.add_node u SystemGraph.no_attrs G))).
  { apply add_node_nonempty; [discriminate|].
    apply add_node_nonempty; [discriminate|exact HG]. }
  exact H2.
Qed.

Lemma fold_add_edge_to_nonempty v ns : forall G,
  jobs_nonempty G ->
  jobs_nonempty (fold_left (fun G node => SystemGraph.add_edge node v G) ns G).
Proof.
  induction ns as [|n ns IH]; intros G HG; simpl; [exact HG|].
  apply IH. by apply add_edge_nonempty.
Qed.

Lemma submit_compute_nonempty fn t tagNode works : forall iworks G,
  jobs_nonempty G ->
  ensures (fun r => jobs_nonempty r.1.1)
          (submit_compute fn t tagNode works iworks G).
Proof.
  induction works as [|work works IH]; intros iworks G HG; simpl.
  - by apply ensures_ret.
  - eapply ensures_bind; [apply ensures_any|]. intros job _.
    eapply ensures_bind.
    + apply IH. apply add_edge_nonempty.
      apply add_node_nonempty; [discriminate|exact HG].
    + intros [[G' js] ns] HG'. by apply ensures_ret.
Qed.

Lemma submit_clear_ensemble_nonempty fn t tagNode systemJobs relIDs :
  forall G, jobs_nonempty G ->
  ensures (fun r => jobs_nonempty r.1.1)
          (submit_clear_ensemble fn t tagNode systemJobs relIDs G).
Proof.
  induction relIDs as [|rank relIDs IH]; intros G HG; simpl.
  - by apply ensures_ret.
  - eapply ensures_bind; [apply ensures_any|]. intros job _.
    eapply ensures_bind.
    + apply IH. apply add_edge_nonempty.
      apply add_node_nonempty; [discriminate|exact HG].
    + intros [[G' js] ns] HG'. by apply ensures_ret.
Qed.

Lemma submit_clear_individual_nonempty fn t systemJobs :
  forall i systemNodes G, jobs_nonempty G ->
  ensures (fun r => jobs_nonempty r.1.1)
          (submit_clear_individual fn t i systemJobs systemNodes G).
Proof.
  induction systemJobs as [|sjob systemJobs IH];
    intros i systemNodes G HG; simpl.
  - by apply ensures_ret.
  - destruct systemNodes as [|node systemNodes]; [by apply ensures_ret|].
    eapply ensures_bind; [apply ensures_any|]. intros job _.
    eapply ensures_bind.
    + apply IH. apply add_edge_nonempty.
      apply add_node_nonempty; [discriminate|exact HG].
    + intros [[G' js] ns] HG'. by apply ensures_ret.
Qed.

Lemma schedule_tag_nonempty p r e isrcs a t :
  jobs_nonempty (graph a) ->
  ensures (fun a' => jobs_nonempty (graph a')) (schedule_tag p r e isrcs a t).
Proof.
  intros Ha. unfold schedule_tag.
  eapply ensures_bind; [apply ensures_any|]. intros works _.
  eapply ensures_bind.
  { apply submit_compute_nonempty. by apply add_edge_nonempty. }
  intros [[G1 js] ns] HG1. simpl in HG1.
  eapply ensures_bind.
  - destruct (default false (ensembleClear p)).
    + apply submit_clear_ensemble_nonempty.
      by apply fold_add_edge_to_nonempty.
    + by apply submit_clear_individual_nonempty.
  - intros [[G2 cjobs] ends] HG2. simpl in HG2.
    apply ensures_ret. simpl. by apply fold_add_edge_to_nonempty.
Qed.

Lemma schedule_tags_nonempty p r e isrcs tags : forall a,
  jobs_nonempty (graph a) ->
  ensures (fun a' => jobs_nonempty (graph a'))
          (schedule_tags p r e isrcs tags a).
Proof.
  induction tags as [|t tags IH]; intros a Ha; simpl.
  - by apply ensures_ret.
  - eapply ensures_bind; [by apply schedule_tag_nonempty|].
    intros a' Ha'. by apply IH.
Qed.

(** X14. In collective mode, for an entry with at least one
    reduction, the graph the scheduler returns can always be coded: no
    node carries an empty [jobs] list, so [_codeGraph] returns, with the
    edges of the graph and, for exactly its nodes, a status between 0
    and 3. *)
Theorem codeGraph_returns_with_reductions p r schedule name e isrcs log
    G log' state :
  schedule !! name = Some e ->
  useMPI r = true ->
  reduce e <> [] ->
  __call__ p r schedule name isrcs log = (Val G, log') ->
  jobs_nonempty G /\
  exists m,
    SystemGraph._codeGraph state G = Val (m, SystemGraph.edges G) /\
    dom m = dom (SystemGraph.nodes G) /\
    (forall n s, m !! n = Some s -> 0 <= s <= 3).
Proof.
  intros He Hmpi Hne Hcall.
  apply call_inv in Hcall as (e' & s & a & mid & jobs & He' & Hrun & Hred & ->).
  assert (e' = e) as -> by congruence.
  assert (Ha : jobs_nonempty (graph a)).
  { apply (schedule_tags_nonempty p r e s _ acc0) in Hrun; [exact Hrun|].
    apply add_node_nonempty; [discriminate|]. intros n d. simpl.
    by rewrite lookup_empty. }
  assert (Hjobs : jobs <> []).
  { rewrite submit_reductions_mpi in Hred by done.
    injection Hred as <- _. destruct (reduce e); [done|discriminate]. }
  assert (HG : jobs_nonempty (finish_graph a jobs)).
  { apply fold_add_edge_to_nonempty. apply add_node_nonempty; [|exact Ha].
    simpl. congruence. }
  split; [exact HG|].
  destruct (code_nodes_returns state (map_to_list
              (SystemGraph.nodes (finish_graph a jobs))))
    as (m & Hm & Hdom & Hrange).
  { intros n data Hin%elem_of_map_to_list. exact (HG n data Hin). }
  exists m. split; [|split; [|exact Hrange]].
  - unfold SystemGraph._codeGraph. by rewrite Hm.
  - apply set_eq. intros n. rewrite !elem_of_dom, Hdom. split.
    + intros [d Hin%elem_of_map_to_list]. by eexists.
    + intros [d Hd]. exists d. by apply elem_of_map_to_list.
Qed.

(** Two engines in collective mode, with the reductions ["u"] and
    ["v"]. *)
Lemma codeGraph_returns_with_reductions_witness :
  exists G log',
    __call__ problem0 remote_mpi schedule0 "forward" (SrcSlice isrcs0) []
    = (Val G, log') /\
    jobs_nonempty G /\
    exists m,
      SystemGraph._codeGraph all_done G = Val (m, SystemGraph.edges G) /\
      dom m = dom (SystemGraph.nodes G) /\
      (forall n s, m !! n = Some s -> 0 <= s <= 3).
Proof.
  destruct (__call__ problem0 remote_mpi schedule0 "forward"
              (SrcSlice isrcs0) []) as [[G|ex] log'] eqn:Hcall;
    [|vm_compute in Hcall; discriminate Hcall].
  exists G, log'. split; [reflexivity|].
  apply (codeGraph_returns_with_reductions problem0 remote_mpi schedule0
           "forward" entry0 (SrcSlice isrcs0) [] G log' all_done).
  - reflexivity.
  - reflexivity.
  - discriminate.
  - exact Hcall.
Defined.

End SystemSolverProps.
(** * Further properties of the remote interface *)

Module RemoteInterfaceProps.
Import Py Field RemoteInterface RemoteInterfaceFacts.
Local Open Scope py_scope.

(** ** The order of the direct view *)

Lemma index_of_Some (i : Z) (ranks : list Z) (j : nat) :
  index_of i ranks = Some j -> ranks !! j = Some i.
Proof.
  revert j. induction ranks as [|r ranks IH]; intros j; simpl; [done|].
  destruct (Z.eqb_spec r i) as [->|Hne].
  - by intros [= <-].
  - destruct (index_of i ranks) as [j'|]; [|done].
    intros [= <-]. by apply IH.
Qed.

Lemma index_of_None (i : Z) (ranks : list Z) :
  index_of i ranks = None <-> i ∉ ranks.
Proof.
  induction ranks as [|r ranks IH]; simpl.
  - split; [intros _; apply not_elem_of_nil|done].
  - rewrite not_elem_of_cons. destruct (Z.eqb_spec r i) as [->|Hne].
    + split; [done|]. by intros [? _].
    + destruct (index_of i ranks) as [j|].
      * split; [done|]. intros [_ Hni]. by apply IH in Hni.
      * split; [|done]. intros _. split; [done|]. by apply IH.
Qed.

Lemma reorder_Some (ranks : list Z) (order : list nat) :
  reorder ranks = Some order ->
  length order = length ranks /\
  forall i, (i < length ranks)%nat ->
    exists j, order !! i = Some j /\ ranks !! j = Some (Z.of_nat i).
Proof.
  unfold reorder. intros Hm%mapM_Some.
  pose proof (Forall2_length _ _ _ Hm) as Hlen.
  rewrite SystemSolverFacts.xrange_length, Nat2Z.id in Hlen.
  split; [done|]. intros i Hi.
  destruct (Forall2_lookup_l _ _ _ i (Z.of_nat i) Hm) as (j & Hj & Hidx).
  { replace i with (Z.to_nat (Z.of_nat i)) at 1 by lia.
    apply SystemSolverFacts.xrange_lookup. lia. }
  exists j. split; [exact Hj|]. by apply index_of_Some.
Qed.

Lemma reorder_None (ranks : list Z) :
  reorder ranks = None <->
  exists i, (i < length ranks)%nat /\ Z.of_nat i ∉ ranks.
Proof.
  unfold reorder. rewrite eq_None_not_Some, mapM_is_Some.
  split.
  - intros Hnot.
    apply not_Forall_Exists in Hnot; [|intros x; apply _].
    apply Exists_exists in Hnot as (z & Hz & Hnone).
    unfold LView.xrange in Hz. apply list_elem_of_fmap in Hz as (i & -> & Hi).
    apply elem_of_seq in Hi. exists i. split; [lia|].
    apply index_of_None. simpl in Hnone.
    by destruct (index_of (Z.of_nat i) ranks); [destruct Hnone; by eexists|].
  - intros (i & Hi & Hni) Hall.
    rewrite Forall_forall in Hall.
    destruct (Hall (Z.of_nat i)) as [j Hj].
    + unfold LView.xrange. apply list_elem_of_fmap. exists i. split; [done|].
      apply elem_of_seq. lia.
    + apply index_of_None in Hni. congruence.
Qed.

(** X15. When construction settles on collective mode, the direct view
    is re-indexed by MPI rank: it addresses every engine exactly once,
    and at position [i] the engine whose communicator reports rank [i],
    so that [e0] is the engine of rank 0. *)
Theorem init_collective_by_rank (MPI : option bool) (ws : list engine)
    (tr : transport) :
  init MPI ws = Val tr ->
  useMPI tr = true ->
  dview_order tr ≡ₚ seq 0 (length ws) /\
  forall i, (i < length ws)%nat ->
    exists j w, dview_order tr !! i = Some j /\ ws !! j = Some w /\
                mpi_rank w = Z.of_nat i.
Proof.
  intros Hinit Hmode. unfold init in Hinit.
  assert (Hre : reorder (map mpi_rank ws) = Some (dview_order tr)).
  { destruct (match MPI with Some b => b | None => DEFAULT_MPI end);
      [|injection Hinit as <-; discriminate].
    destruct (MPISafe ws); [|injection Hinit as <-; discriminate].
    destruct (reorder (map mpi_rank ws)); [|discriminate].
    by injection Hinit as <-. }
  apply reorder_Some in Hre as [Hlen Hat]. rewrite length_map in Hlen, Hat.
  assert (Hpos : forall i, (i < length ws)%nat ->
            exists j w, dview_order tr !! i = Some j /\ ws !! j = Some w /\
                        mpi_rank w = Z.of_nat i).
  { intros i Hi. destruct (Hat i Hi) as (j & Hj & Hr).
    rewrite list_lookup_fmap in Hr.
    destruct (ws !! j) as [w|] eqn:Hw; [|discriminate].
    injection Hr as Hr. by exists j, w. }
  split; [|exact Hpos].
  apply submseteq_length_Permutation; [|by rewrite length_seq, Hlen].
  apply NoDup_submseteq.
  - apply NoDup_alt. intros i1 i2 j H1 H2.
    destruct (Hpos i1) as (j1 & w1 & Hj1 & Hw1 & Hr1).
    { rewrite <- Hlen. by apply lookup_lt_Some in H1. }
    destruct (Hpos i2) as (j2 & w2 & Hj2 & Hw2 & Hr2).
    { rewrite <- Hlen. by apply lookup_lt_Some in H2. }
    assert (j1 = j) by congruence. assert (j2 = j) by congruence.
    subst j1 j2. assert (w1 = w2) by congruence. subst w2. lia.
  - intros j [i Hi]%list_elem_of_lookup.
    destruct (Hpos i) as (j' & w & Hj' & Hw & _).
    { rewrite <- Hlen. by apply lookup_lt_Some in Hi. }
    assert (j' = j) by congruence. subst j'.
    apply elem_of_seq. apply lookup_lt_Some in Hw. lia.
Qed.

(** Two engines that report their ranks in reverse: the view swaps
    them. *)
Lemma init_collective_by_rank_witness :
  [1; 0]%nat ≡ₚ seq 0 (length pmi_cluster) /\
  forall i, (i < length pmi_cluster)%nat ->
    exists j w, [1; 0]%nat !! i = Some j /\ pmi_cluster !! j = Some w /\
                mpi_rank w = Z.of_nat i.
Proof.
  apply (init_collective_by_rank None pmi_cluster (Transport true [1; 0]%nat));
    reflexivity.
Defined.

(** X16. Construction raises exactly when collective mode is not
    ruled out by the caller, the probe finds it safe, and the ranks the
    engines report are not [0 .. n-1]: some [i] below the number of
    engines is reported by none of them (as when two engines report the
    same rank). In every other case it returns. *)
Theorem init_raises_iff (MPI : option bool) (ws : list engine) :
  (exists ex, init MPI ws = Exc ex) <->
  MPI <> Some false /\ MPISafe ws = true /\
  exists i, (i < length ws)%nat /\
            forall w, w ∈ ws -> mpi_rank w <> Z.of_nat i.
Proof.
  assert (Hmiss : reorder (map mpi_rank ws) = None <->
            exists i, (i < length ws)%nat /\
                      forall w, w ∈ ws -> mpi_rank w <> Z.of_nat i).
  { rewrite reorder_None, length_map. split.
    - intros (i & Hi & Hni). exists i. split; [done|].
      intros w Hw Heq. apply Hni. apply list_elem_of_fmap. by exists w.
    - intros (i & Hi & Hni). exists i. split; [done|].
      intros (w & Hw & Hin)%list_elem_of_fmap. by apply (Hni w). }
  unfold init. destruct MPI as [[|]|]; simpl.
  - destruct (MPISafe ws).
    + destruct (reorder (map mpi_rank ws)) as [order|] eqn:Hre.
      * split; [by intros [? ?]|]. intros (_ & _ & Hex).
        apply Hmiss in Hex. discriminate.
      * split; [|by eexists]. intros _. split; [done|]. split; [done|].
        by apply Hmiss.
    + split; [by intros [? ?]|]. by intros (_ & ? & _).
  - split; [by intros [? ?]|]. by intros (? & _).
  - destruct (MPISafe ws).
    + destruct (reorder (map mpi_rank ws)) as [order|] eqn:Hre.
      * split; [by intros [? ?]|]. intros (_ & _ & Hex).
        apply Hmiss in Hex. discriminate.
      * split; [|by eexists]. intros _. split; [done|]. split; [done|].
        by apply Hmiss.
    + split; [by intros [? ?]|]. by intros (_ & ? & _).
Qed.

(** ** Push and pull *)

Section PushPull.
Context {E : Type} `{Scalar E}.
Implicit Types cl rest : list (gmap string (obj E)).
Implicit Types ns : gmap string (obj E).

Lemma length_append (a b : string) :
  String.length (a +:+ b) = (String.length a + String.length b)%nat.
Proof. induction a as [|c a IH]; simpl; [done|]. by rewrite IH. Qed.

Lemma temp_ne (key : string) : temp key <> key.
Proof.
  intros Heq. apply (f_equal String.length) in Heq.
  unfold temp in Heq. rewrite length_append in Heq. simpl in Heq. lia.
Qed.

Lemma imap_succ_const {A B} (f : A -> B) (g : nat -> A -> B) (l : list A) :
  (forall r x, g (S r) x = f x) -> imap (g ∘ S) l = map f l.
Proof.
  intros Hg. revert g Hg. induction l as [|x l IH]; intros g Hg; [done|].
  rewrite imap_cons. simpl. rewrite Hg. f_equal.
  apply (IH (g ∘ S)). intros r y. simpl.
  transitivity (f y); [apply Hg|done].
Qed.

Lemma bind_Val {S A B} (m : M S A) (k : A -> M S B) (s s1 : S) (a : A) :
  m s = (Val a, s1) -> bind m k s = k a s1.
Proof. intros Hm. unfold bind. by rewrite Hm. Qed.

Lemma bind_Exc {S A B} (m : M S A) (k : A -> M S B) (s s1 : S) (ex : exn) :
  m s = (Exc ex, s1) -> bind m k s = (Exc ex, s1).
Proof. intros Hm. unfold bind. by rewrite Hm. Qed.

Lemma bind_inv {S A B} (m : M S A) (k : A -> M S B) (s s' : S) (b : B) :
  bind m k s = (Val b, s') ->
  exists a s1, m s = (Val a, s1) /\ k a s1 = (Val b, s').
Proof.
  unfold bind. destruct (m s) as [[a|ex] s1]; [|discriminate].
  intros Hk. by exists a, s1.
Qed.

Lemma mapM_map_insert_ne (key k : string) (v : obj E) rest :
  k <> key ->
  mapM (fun ns0 : gmap string (obj E) => ns0 !! key)
       (map (fun ns0 => <[k := v]> ns0) rest)
  = mapM (fun ns0 : gmap string (obj E) => ns0 !! key) rest.
Proof.
  intros Hne. apply Forall2_mapM_ext.
  induction rest as [|x rest IH]; constructor; [|exact IH].
  by apply lookup_insert_ne.
Qed.

Lemma dview_pull_Some (key : string) cl (vs : list (obj E)) :
  mapM (fun ns0 : gmap string (obj E) => ns0 !! key) cl = Some vs ->
  dview_pull key cl = (Val vs, cl).
Proof. intros Hvs. unfold dview_pull, bind, get. by rewrite Hvs. Qed.

Lemma dview_pull_None (key : string) cl :
  mapM (fun ns0 : gmap string (obj E) => ns0 !! key) cl = None ->
  dview_pull key cl = (Exc (NameError key), cl).
Proof. intros Hvs. unfold dview_pull, bind, get. by rewrite Hvs. Qed.

Lemma e0_pull_cons (key : string) ns rest (v : obj E) :
  ns !! key = Some v -> e0_pull key (ns :: rest) = (Val v, ns :: rest).
Proof. intros Hv. unfold e0_pull, bind, get, name. by rewrite Hv. Qed.

Lemma e0_del_cons (key : string) ns rest (v : obj E) :
  ns !! key = Some v ->
  e0_execute (del_stmt key) (ns :: rest) = (Val tt, delete key ns :: rest).
Proof.
  intros Hv. unfold e0_execute, del_stmt, bind, get, name, put.
  by rewrite Hv.
Qed.

Lemma e0_del_unbound (key : string) ns rest :
  ns !! key = None ->
  e0_execute (del_stmt key) (ns :: rest) = (Exc (NameError key), ns :: rest).
Proof.
  intros Hv. unfold e0_execute, del_stmt, bind, get, name, put.
  by rewrite Hv.
Qed.

(** The gather on a cluster whose engines all bind [key]. *)
Lemma exec_gather_cons (key : string) ns rest (vs : list (obj E)) :
  mapM (fun ns0 : gmap string (obj E) => ns0 !! key) (ns :: rest) = Some vs ->
  exec_gather key 0 (ns :: rest)
  = (Val tt, <[temp key := OList vs]> ns
             :: map (fun ns0 => <[temp key := ONone]> ns0) rest).
Proof.
  intros Hvs. unfold exec_gather.
  rewrite (bind_Val _ _ _ (map (fun ns0 => <[temp key := ONone]> ns0)
                               (ns :: rest)) tt) by done.
  rewrite (bind_Val _ _ _ (map (fun ns0 => <[temp key := ONone]> ns0)
                               (ns :: rest)) vs).
  2: { apply dview_pull_Some. rewrite <- Hvs.
       apply mapM_map_insert_ne, temp_ne. }
  unfold modify. cbn [map]. rewrite imap_cons. simpl Nat.eqb. cbv iota.
  rewrite insert_insert_eq. do 3 f_equal.
  rewrite (imap_succ_const (fun ns0 => <[temp key := ONone]> ns0)) by done.
  rewrite map_map. apply map_ext. intros ns0. apply insert_insert_eq.
Qed.

(** The broadcast of what the root binds [key] to. *)
Lemma exec_bcast_cons (key : string) ns rest (v : obj E) :
  ns !! key = Some v ->
  exec_bcast key 0 (ns :: rest)
  = (Val tt, ns :: map (fun ns0 => <[key := v]> ns0) rest).
Proof.
  intros Hv. unfold exec_bcast.
  rewrite (bind_Val _ _ _ (ns :: map (fun ns0 => <[key := ONone]> ns0) rest)
             tt).
  2: { unfold modify. rewrite imap_cons. simpl Nat.eqb. cbv iota.
       by rewrite (imap_succ_const (fun ns0 => <[key := ONone]> ns0)). }
  unfold bind at 1, get at 1. cbn [lookup list_lookup].
  unfold bind, name. rewrite Hv. unfold ret, dview_push, modify.
  cbn [map]. rewrite insert_id by done. do 2 f_equal.
  rewrite map_map. apply map_ext. intros ns0. apply insert_insert_eq.
Qed.

(** X17. [remote[key] = item] has the same effect in both modes, for
    every key other than [rank] and [comm] (the two names the
    collective statement itself reads): on a cluster with at least one
    engine it returns normally and leaves every engine with [key] bound
    to [item] and every other name as it was. *)
Theorem setitem_same_in_both_modes (useMPI : bool) (key : string)
    (item : obj E) cl :
  key <> "rank"%string ->
  key <> "comm"%string ->
  cl <> [] ->
  __setitem__ useMPI key item cl
  = (Val tt, map (fun ns => <[key := item]> ns) cl).
Proof.
  intros _ _ Hne. destruct cl as [|ns rest]; [done|].
  destruct useMPI; [|reflexivity].
  unfold __setitem__.
  rewrite (bind_Val _ _ _ (<[key := item]> ns :: rest) tt) by done.
  rewrite (exec_bcast_cons key _ rest item) by apply lookup_insert_eq.
  reflexivity.
Qed.

(** X18. [remote[key]] returns the same list in both modes, the value
    of [key] on every engine in the order of the direct view. Star mode
    leaves the namespaces alone; collective mode leaves [temp_<key>]
    deleted on the root and bound to [None] on every other engine. *)
Theorem getitem_same_in_both_modes (key : string) ns rest (vs : list (obj E)) :
  mapM (fun ns0 : gmap string (obj E) => ns0 !! key) (ns :: rest) = Some vs ->
  __getitem__ false key (ns :: rest) = (Val (OList vs), ns :: rest) /\
  __getitem__ true key (ns :: rest)
  = (Val (OList vs),
     delete (temp key) ns
     :: map (fun ns0 => <[temp key := ONone]> ns0) rest).
Proof.
  intros Hvs. split.
  - unfold __getitem__. by rewrite (bind_Val _ _ _ _ _ (dview_pull_Some _ _ _ Hvs)).
  - unfold __getitem__.
    rewrite (bind_Val _ _ _ _ _ (exec_gather_cons key ns rest vs Hvs)).
    rewrite (bind_Val _ _ _ _ _ (e0_pull_cons (temp key) _ _ (OList vs)
                                   (lookup_insert_eq _ _ _))).
    rewrite (bind_Val _ _ _ _ _ (e0_del_cons (temp key) _ _ (OList vs)
                                   (lookup_insert_eq _ _ _))).
    unfold ret. by rewrite delete_insert_eq.
Qed.

(** ** Clearing a temporary twice *)

Lemma e0_pull_Val (key : string) cl (v : obj E) cl' :
  e0_pull key cl = (Val v, cl') -> cl' = cl /\ cl <> [].
Proof.
  unfold e0_pull, bind, get. destruct cl as [|ns rest]; [discriminate|].
  unfold name. destruct (ns !! key); [|discriminate].
  by intros [= _ <-].
Qed.

Lemma e0_del_Val (key : string) cl cl' :
  e0_execute (del_stmt key) cl = (Val tt, cl') ->
  exists ns rest, cl = ns :: rest /\ cl' = delete key ns :: rest.
Proof.
  destruct cl as [|ns rest]; [discriminate|].
  unfold e0_execute, del_stmt, bind, get, name, put.
  destruct (ns !! key); [|discriminate].
  intros [= <-]. by exists ns, rest.
Qed.

(** [dview.execute('del k')] returns only if every engine binds [k],
    and then no engine binds it any more. *)
Lemma dview_del_Val (key : string) cl : forall cl',
  dview_execute (del_stmt key) cl = (Val tt, cl') ->
  cl' = map (delete key) cl /\
  Forall (fun ns => is_Some (ns !! key)) cl.
Proof.
  induction cl as [|ns rest IH]; intros cl'.
  - simpl. by intros [= <-].
  - cbn [dview_execute].
    destruct (del_stmt key ns) as [o ns'] eqn:Hns.
    destruct (dview_execute (del_stmt key) rest) as [os rest'] eqn:Hrest.
    unfold del_stmt, bind, get, name, put in Hns.
    destruct (ns !! key) as [v|] eqn:Hv.
    + injection Hns as <- <-. intros [= -> <-].
      destruct (IH rest' eq_refl) as [-> Hall].
      split; [done|]. constructor; [by eexists|done].
    + injection Hns as <- <-. discriminate.
Qed.

Lemma dview_del_twice (key : string) cl cl1 cl2 :
  cl <> [] ->
  dview_execute (del_stmt key) cl = (Val tt, cl1) ->
  dview_execute (del_stmt key) cl1 <> (Val tt, cl2).
Proof.
  intros Hne H1 H2.
  apply dview_del_Val in H1 as [-> _].
  apply dview_del_Val in H2 as [_ Hall].
  destruct cl as [|ns rest]; [done|].
  apply Forall_cons in Hall as [[v Hv] _].
  by rewrite lookup_delete_eq in Hv.
Qed.

Lemma dview_pull_state (key : string) cl (vs : list (obj E)) cl' :
  dview_pull key cl = (Val vs, cl') -> cl' = cl.
Proof.
  unfold dview_pull, bind, get.
  destruct (mapM _ cl); [|discriminate]. by intros [= _ <-].
Qed.

(** X19. In collective mode a key cannot be combined with itself:
    [reduceMul(key, key)] and [remoteDifference(key, key, ...)] clear
    [temp_<key>] twice, so the second [del] finds the name unbound and
    the call never returns normally, whatever the cluster holds. In
    star mode [reduceMul(key, key)] returns the square of what
    [reduce(key)] returns. *)
Theorem same_key_twice_never_returns (plan : list (obj E) -> rtree E)
    (key : string) cl :
  (forall axis v cl',
     reduceMul plan true key key axis cl <> (Val v, cl')) /\
  (forall keyresult cl',
     remoteDifference plan true key key keyresult cl <> (Val tt, cl')) /\
  (forall t z,
     reduce plan false key cl = (Val (OArr t), cl) ->
     nd_zip mul t t = Some z ->
     reduceMul plan false key key None cl = (Val (OArr z), cl)).
Proof.
  split; [|split].
  - intros axis v cl' Hrun. unfold reduceMul in Hrun.
    apply bind_inv in Hrun as (? & s1 & _ & Hrun).
    apply bind_inv in Hrun as (? & s2 & _ & Hrun).
    apply bind_inv in Hrun as (? & s3 & _ & Hrun).
    apply bind_inv in Hrun as (? & s4 & _ & Hrun).
    apply bind_inv in Hrun as (item & s5 & Hpull & Hrun).
    apply e0_pull_Val in Hpull as [-> Hne].
    apply bind_inv in Hrun as ([] & s6 & Hdel1 & Hrun).
    apply bind_inv in Hrun as ([] & s7 & Hdel2 & _).
    exact (dview_del_twice (temp key) s4 s6 s7 Hne Hdel1 Hdel2).
  - intros keyresult cl' Hrun. unfold remoteDifference in Hrun.
    apply bind_inv in Hrun as (? & s1 & _ & Hrun).
    apply bind_inv in Hrun as (? & s2 & _ & Hrun).
    apply bind_inv in Hrun as (? & s3 & _ & Hrun).
    apply bind_inv in Hrun as (? & s4 & _ & Hrun).
    apply bind_inv in Hrun as ([] & s5 & Hdel1 & Hdel2).
    apply e0_del_Val in Hdel1 as (ns & rest & -> & ->).
    rewrite e0_del_unbound in Hdel2 by apply lookup_delete_eq.
    discriminate.
  - intros t z Hred Hz. unfold reduce in Hred.
    apply bind_inv in Hred as (vs & s1 & Hpull & Hfold).
    pose proof (dview_pull_state key cl vs s1 Hpull) as ->.
    unfold reduceMul.
    rewrite (bind_Val _ _ _ _ _ Hpull), (bind_Val _ _ _ _ _ Hfold).
    rewrite (bind_Val _ _ _ _ _ Hpull), (bind_Val _ _ _ _ _ Hfold).
    unfold py_binop. simpl. by rewrite Hz.
Qed.

(** ** [remoteMulE0] *)

(** [a.sum(axis=k)] is defined on an array whose dimensions are all
    positive, for every axis it has. *)
Lemma nd_sum_axis_total (z : nd E) : forall k sh,
  has_shape sh z -> Forall (fun n => 0 < n)%nat sh -> (k < length sh)%nat ->
  exists res, nd_sum_axis k z = Some res.
Proof.
  induction z as [x|l IH] using nd_ind'; intros k sh Hz Hpos Hk.
  - apply has_shape_Sc in Hz as ->. simpl in Hk. lia.
  - apply has_shape_Ar in Hz as (n & sh' & -> & Hlen & Hl).
    apply Forall_cons in Hpos as [Hn Hpos]. destruct k as [|k].
    + destruct l as [|a l]; [simpl in Hlen; lia|].
      destruct (reduce_opt_same_shape sh' (a :: l) ltac:(done) Hl)
        as (t & Ht & _).
      exists t. exact Ht.
    + simpl in Hk.
      assert (Hgo : exists lr,
        (fix go (l0 : list (nd E)) : option (list (nd E)) :=
           match l0 with
           | [] => Some []
           | x :: l' =>
               match nd_sum_axis k x, go l' with
               | Some z, Some r => Some (z :: r)
               | _, _ => None
               end
           end) l = Some lr).
      { clear Hlen. induction l as [|a l IHl]; [by eexists|].
        apply Forall_cons in IH as [Ha IH]. apply Forall_cons in Hl as [Hsa Hl].
        destruct (Ha k sh' Hsa Hpos ltac:(lia)) as (ra & Hra).
        destruct (IHl IH Hl) as (lr & Hlr).
        exists (ra :: lr). by rewrite Hra, Hlr. }
      destruct Hgo as (lr & Hlr). exists (Ar lr). simpl. by rewrite Hlr.
Qed.

(** X20. [remoteMulE0] involves the root alone. When the root holds
    under [key1] and [key2] two arrays of one shape whose dimensions
    are all positive, and [axis], if given, is one of their axes, the
    call returns normally: its result is the elementwise product of the
    root's own two arrays (summed along [axis] when one is given),
    without any reduction over the engines; no other engine is touched,
    and on the root the name [temp_field] is unbound afterwards,
    whatever it was bound to before. *)
Theorem remoteMulE0_root_only (key1 key2 : string) (axis : option nat)
    ns rest (x y : nd E) sh :
  ns !! key1 = Some (OArr x) ->
  ns !! key2 = Some (OArr y) ->
  has_shape sh x ->
  has_shape sh y ->
  Forall (fun n => 0 < n)%nat sh ->
  match axis with
  | None => True
  | Some k => (k < length sh)%nat
  end ->
  exists z res,
    zips_to mul x y z /\
    match axis with
    | None => res = z
    | Some k => nd_sum_axis k z = Some res
    end /\
    remoteMulE0 key1 key2 axis (ns :: rest)
    = (Val (OArr res), delete "temp_field" ns :: rest).
Proof.
  intros H1 H2 Hx Hy Hpos Haxis.
  destruct (nd_zip_same_shape mul x sh y Hx Hy) as (z & Hzips & Hsz).
  assert (Hres : exists res,
            match axis with
            | None => res = z
            | Some k => nd_sum_axis k z = Some res
            end).
  { destruct axis as [k|]; [|by exists z].
    exact (nd_sum_axis_total z k sh Hsz Hpos Haxis). }
  destruct Hres as (res & Hres).
  exists z, res. split; [exact Hzips|]. split; [exact Hres|].
  destruct Hzips as [Hz _]. unfold remoteMulE0.
  rewrite (bind_Val _ _ _ (<["temp_field"%string := OArr z]> ns :: rest) tt).
  2: { unfold e0_execute, binop_stmt, bind, get, name, put, ret.
       rewrite H1, H2. unfold py_binop, scalar_op. by rewrite Hz. }
  rewrite (bind_Val _ _ _ (<["temp_field"%string := OArr res]> ns :: rest) tt).
  2: { destruct axis as [k|].
       - unfold e0_execute, sum_axis_stmt, bind, get, name, put, ret.
         rewrite lookup_insert_eq. unfold py_sum_axis. rewrite Hres.
         unfold ret. by rewrite insert_insert_eq.
       - by subst res. }
  rewrite (bind_Val _ _ _ _ _ (e0_pull_cons "temp_field" _ _ (OArr res)
                                 (lookup_insert_eq _ _ _))).
  rewrite (bind_Val _ _ _ _ _ (e0_del_cons "temp_field" _ _ (OArr res)
                                 (lookup_insert_eq _ _ _))).
  unfold ret. by rewrite delete_insert_eq.
Qed.

(** ** What star mode touches *)

Lemma leaves_ret {S A} (a : A) : leaves_state (ret (S := S) a).
Proof. by intros s. Qed.

Lemma leaves_raise {S A} (ex : exn) : leaves_state (raise (S := S) (A := A) ex).
Proof. by intros s. Qed.

Lemma leaves_bind {S A B} (m : M S A) (k : A -> M S B) :
  leaves_state m -> (forall a, leaves_state (k a)) -> leaves_state (bind m k).
Proof.
  intros Hm Hk s. unfold bind. specialize (Hm s).
  destruct (m s) as [[a|ex] s1]; simpl in Hm; subst s1; [apply Hk|done].
Qed.

Lemma leaves_py_binop {S} o (a b : obj E) : leaves_state (py_binop (S := S) o a b).
Proof.
  intros s. unfold py_binop.
  destruct a as [|x|l], b as [|y|l']; try done.
  by destruct (nd_zip (scalar_op o) x y).
Qed.

Lemma leaves_py_conj {S} (a : obj E) : leaves_state (py_conj (S := S) a).
Proof. intros s. by destruct a. Qed.

Lemma leaves_py_sum {S} (a : obj E) : leaves_state (py_sum (S := S) a).
Proof. intros s. by destruct a. Qed.

Lemma leaves_py_sum_axis {S} k (a : obj E) :
  leaves_state (py_sum_axis (S := S) k a).
Proof.
  intros s. unfold py_sum_axis. destruct a as [|x|l]; try done.
  by destruct (nd_sum_axis k x).
Qed.

Lemma leaves_py_reduce {S} (vs : list (obj E)) :
  leaves_state (py_reduce (S := S) np_add vs).
Proof.
  unfold py_reduce. destruct vs as [|x vs]; [apply leaves_raise|].
  assert (Hacc : leaves_state (ret (S := S) x)) by apply leaves_ret.
  revert Hacc. generalize (ret (S := S) x).
  induction vs as [|y vs IH]; intros acc Hacc; simpl; [exact Hacc|].
  apply IH. apply leaves_bind; [exact Hacc|].
  intros a. apply leaves_py_binop.
Qed.

Lemma leaves_dview_pull (key : string) :
  leaves_state (dview_pull (E := E) key).
Proof.
  intros cl. unfold dview_pull, bind, get. by destruct (mapM _ cl).
Qed.

Lemma leaves_e0_pull (key : string) : leaves_state (e0_pull (E := E) key).
Proof.
  intros cl. unfold e0_pull, bind, get. destruct cl as [|ns rest]; [done|].
  unfold name. by destruct (ns !! key).
Qed.

Lemma leaves_srcEst {S} individual (item1 item2 : obj E) :
  leaves_state (srcEst (S := S) individual item1 item2).
Proof.
  unfold srcEst.
  repeat (apply leaves_bind;
          [first [apply leaves_py_conj | apply leaves_py_binop
                 | destruct individual;
                   [apply leaves_py_sum_axis | apply leaves_py_sum]]
          |intros ?]).
  apply leaves_py_binop.
Qed.

Lemma binds_bind {A} (key : string) (m : M (list (gmap string (obj E))) A)
    (k : A -> M (list (gmap string (obj E))) unit) :
  leaves_state m -> (forall a, binds_or_raises key (k a)) ->
  binds_or_raises key (bind m k).
Proof.
  intros Hm Hk cl. unfold bind. specialize (Hm cl).
  destruct (m cl) as [[a|ex] s1]; simpl in Hm; subst s1.
  - apply Hk.
  - left. by exists ex.
Qed.

Lemma binds_push (key : string) (item : obj E) :
  binds_or_raises key (dview_push key item).
Proof. intros cl. right. by exists item. Qed.

(** X21. In star mode the reading methods [__getitem__], [reduce] and
    [reduceMul] never change a namespace, whether they return or raise;
    and the storing methods [remoteDifference], [remoteOpGatherFirst]
    and [remoteSrcEstGatherFirst] are all or nothing: they either raise
    with every namespace as it was, or bind the result key to one and
    the same value on every engine and change nothing else. No
    temporary name is ever created. *)
Theorem star_mode_frame (plan : list (obj E) -> rtree E) :
  (forall key, leaves_state (__getitem__ (E := E) false key)) /\
  (forall key, leaves_state (reduce plan false key)) /\
  (forall key1 key2 axis, leaves_state (reduceMul plan false key1 key2 axis)) /\
  (forall key1 key2 keyresult,
     binds_or_raises keyresult
       (remoteDifference plan false key1 key2 keyresult)) /\
  (forall op key1 key2 keyresult,
     binds_or_raises keyresult
       (remoteOpGatherFirst plan false op key1 key2 keyresult)) /\
  (forall keyresult key1 key2 individual,
     binds_or_raises keyresult
       (remoteSrcEstGatherFirst (E := E) false keyresult key1 key2 individual)).
Proof.
  split; [|split; [|split; [|split; [|split]]]].
  - intros key. unfold __getitem__.
    apply leaves_bind; [apply leaves_dview_pull|intros; apply leaves_ret].
  - intros key. unfold reduce.
    apply leaves_bind; [apply leaves_dview_pull|intros; apply leaves_py_reduce].
  - intros key1 key2 axis. unfold reduceMul.
    apply leaves_bind; [apply leaves_dview_pull|intros vs1].
    apply leaves_bind; [apply leaves_py_reduce|intros item1].
    apply leaves_bind; [apply leaves_dview_pull|intros vs2].
    apply leaves_bind; [apply leaves_py_reduce|intros item2].
    apply leaves_py_binop.
  - intros key1 key2 keyresult. unfold remoteDifference.
    apply binds_bind; [apply leaves_dview_pull|intros vs1].
    apply binds_bind; [apply leaves_py_reduce|intros item1].
    apply binds_bind; [apply leaves_dview_pull|intros vs2].
    apply binds_bind; [apply leaves_py_reduce|intros item2].
    apply binds_bind; [apply leaves_py_binop|intros item].
    apply binds_push.
  - intros op key1 key2 keyresult. unfold remoteOpGatherFirst.
    apply binds_bind; [apply leaves_dview_pull|intros vs1].
    apply binds_bind; [apply leaves_py_reduce|intros item1].
    apply binds_bind; [apply leaves_e0_pull|intros item2].
    apply binds_bind; [apply leaves_py_binop|intros item].
    apply binds_push.
  - intros keyresult key1 key2 individual. unfold remoteSrcEstGatherFirst.
    apply binds_bind; [apply leaves_dview_pull|intros vs1].
    apply binds_bind; [apply leaves_py_reduce|intros item1].
    apply binds_bind; [apply leaves_e0_pull|intros item2].
    apply binds_bind; [apply leaves_srcEst|intros item].
    apply binds_push.
Qed.

(** ** Storing methods in both modes *)

Lemma temp_inj (k1 k2 : string) : temp k1 = temp k2 -> k1 = k2.
Proof. unfold temp. cbn. intros [= Heq]. exact Heq. Qed.

Lemma Forall2_lookup_insert_ne (key k : string) (v : obj E) rest
    (arrays : list (nd E)) :
  k <> key ->
  Forall2 (fun ns0 a => ns0 !! key = Some (OArr a)) rest arrays ->
  Forall2 (fun ns0 a => ns0 !! key = Some (OArr a))
          (map (fun ns0 => <[k := v]> ns0) rest) arrays.
Proof.
  intros Hne Hall. induction Hall as [|ns0 a rest arrays Hns _ IH];
    constructor; [|exact IH].
  by rewrite lookup_insert_ne.
Qed.

(** [temp_K = comm.reduce(K, root=0)] on engines that all hold an array
    of one shape under [K]. *)
Lemma exec_reduce_cons (plan : list (obj E) -> rtree E) (key : string)
    ns rest (arrays : list (nd E)) sh :
  (forall x y z : E, add (add x y) z = add x (add y z)) ->
  flatten (plan (map OArr arrays)) = map OArr arrays ->
  Forall2 (fun ns0 a => ns0 !! key = Some (OArr a)) (ns :: rest) arrays ->
  Forall (has_shape sh) arrays ->
  exists t,
    reduce_opt (nd_zip add) arrays = Some t /\ has_shape sh t /\
    exec_reduce plan key 0 (ns :: rest)
    = (Val tt, <[temp key := OArr t]> ns
               :: map (fun ns0 => <[temp key := ONone]> ns0) rest).
Proof.
  intros Hassoc Hplan Hcl Hsh.
  destruct (eval_rtree_arrays sh (plan (map OArr arrays)) Hassoc arrays
              Hplan Hsh) as (t & Ht & Hst & Hev).
  exists t. split; [exact Ht|]. split; [exact Hst|].
  unfold exec_reduce.
  rewrite (bind_Val _ _ _ _ _ (dview_pull_arrays key _ arrays Hcl)).
  rewrite (bind_Val _ _ _ _ _ (Hev _ _)).
  unfold modify. rewrite imap_cons. simpl Nat.eqb. cbv iota.
  by rewrite (imap_succ_const (fun ns0 => <[temp key := ONone]> ns0)).
Qed.

Lemma everywhere_map_insert (key : string) (v : obj E) cl :
  everywhere (map (fun ns0 => <[key := v]> ns0) cl) key v.
Proof.
  unfold everywhere. apply Forall_forall.
  intros ns0 (ns1 & -> & _)%list_elem_of_fmap. apply lookup_insert_eq.
Qed.

(** X22. [remoteOpGatherFirst] (and so [remoteDifferenceGatherFirst])
    agrees in both modes. Let every engine hold an array of one shape
    under [key1] and the root hold an array of that shape under
    [key2]; let scalar addition be associative and the communicator
    combine in rank order; let neither [key2] nor [keyresult] be the
    temporary [temp_<key1>], and [keyresult] be neither [rank] nor
    [comm]. Then the call returns normally in either mode, and
    afterwards every engine binds [keyresult] to the same array: the
    sum of [key1] over the engines combined elementwise by [op] with
    the root's [key2]. *)
Theorem remoteOpGatherFirst_both_modes (plan : list (obj E) -> rtree E)
    (op : binop) (key1 key2 keyresult : string) ns rest
    (arrays : list (nd E)) sh (y : nd E) :
  (forall x y z : E, add (add x y) z = add x (add y z)) ->
  flatten (plan (map OArr arrays)) = map OArr arrays ->
  Forall2 (fun ns0 a => ns0 !! key1 = Some (OArr a)) (ns :: rest) arrays ->
  Forall (has_shape sh) arrays ->
  ns !! key2 = Some (OArr y) ->
  has_shape sh y ->
  key2 <> temp key1 ->
  keyresult <> temp key1 ->
  keyresult <> "rank"%string ->
  keyresult <> "comm"%string ->
  exists total z,
    reduce_opt (nd_zip add) arrays = Some total /\
    zips_to (scalar_op op) total y z /\
    (exists cl,
       remoteOpGatherFirst plan true op key1 key2 keyresult (ns :: rest)
       = (Val tt, cl) /\
       everywhere cl keyresult (OArr z)) /\
    remoteOpGatherFirst plan false op key1 key2 keyresult (ns :: rest)
    = (Val tt, map (fun ns0 => <[keyresult := OArr z]> ns0) (ns :: rest)) /\
    (op = OpSub ->
     remoteDifferenceGatherFirst plan false key1 key2 keyresult (ns :: rest)
     = (Val tt, map (fun ns0 => <[keyresult := OArr z]> ns0) (ns :: rest))).
Proof.
  intros Hassoc Hplan Hcl Hsh Hy Hsy Hk2 Hkr _ _.
  destruct (exec_reduce_cons plan key1 ns rest arrays sh Hassoc Hplan Hcl Hsh)
    as (total & Htotal & Hst & Hred).
  destruct (nd_zip_same_shape (scalar_op op) total sh y Hst Hsy)
    as (z & Hzips & _).
  exists total, z. split; [exact Htotal|]. split; [exact Hzips|].
  destruct Hzips as [Hz _].
  assert (Hstar :
    remoteOpGatherFirst plan false op key1 key2 keyresult (ns :: rest)
    = (Val tt, map (fun ns0 => <[keyresult := OArr z]> ns0) (ns :: rest))).
  { unfold remoteOpGatherFirst.
    rewrite (bind_Val _ _ _ _ _ (dview_pull_arrays key1 _ arrays Hcl)).
    rewrite (bind_Val _ _ _ _ _ (py_reduce_arrays arrays total _ Htotal)).
    rewrite (bind_Val _ _ _ _ _ (e0_pull_cons key2 _ _ _ Hy)).
    unfold bind, py_binop. by rewrite Hz. }
  split; [|split; [exact Hstar|by intros ->]].
  eexists. split.
  - unfold remoteOpGatherFirst.
    rewrite (bind_Val _ _ _ _ _ Hred).
    rewrite (bind_Val _ _ _
               (<[keyresult := OArr z]> (<[temp key1 := OArr total]> ns)
                :: map (fun ns0 => <[temp key1 := ONone]> ns0) rest) tt).
    2: { unfold e0_execute, binop_stmt, bind, get, name, put, ret.
         rewrite lookup_insert_eq, lookup_insert_ne, Hy by done.
         unfold py_binop. by rewrite Hz. }
    rewrite (bind_Val _ _ _ _ _ (exec_bcast_cons keyresult _ _ (OArr z)
                                   (lookup_insert_eq _ _ _))).
    apply e0_del_cons with (v := OArr total).
    rewrite lookup_insert_ne by done. apply lookup_insert_eq.
  - unfold everywhere. constructor.
    + rewrite lookup_delete_ne by done. apply lookup_insert_eq.
    + apply (everywhere_map_insert keyresult (OArr z)).
Qed.

(** X23. [remoteDifference] agrees in both modes. Let every engine
    hold arrays of one shape under two different keys, scalar addition
    be associative and the communicator combine in rank order; let
    [key2] not be the temporary of [key1] and [keyresult] be neither
    temporary, nor [rank], nor [comm]. Then the call returns normally
    in either mode, and afterwards every engine binds [keyresult] to
    the same array: the sum of [key1] over the engines minus the sum of
    [key2]. *)
Theorem remoteDifference_both_modes (plan : list (obj E) -> rtree E)
    (key1 key2 keyresult : string) ns rest
    (arrays1 arrays2 : list (nd E)) sh :
  (forall x y z : E, add (add x y) z = add x (add y z)) ->
  flatten (plan (map OArr arrays1)) = map OArr arrays1 ->
  flatten (plan (map OArr arrays2)) = map OArr arrays2 ->
  Forall2 (fun ns0 a => ns0 !! key1 = Some (OArr a)) (ns :: rest) arrays1 ->
  Forall2 (fun ns0 a => ns0 !! key2 = Some (OArr a)) (ns :: rest) arrays2 ->
  Forall (has_shape sh) arrays1 ->
  Forall (has_shape sh) arrays2 ->
  key1 <> key2 ->
  key2 <> temp key1 ->
  keyresult <> temp key1 ->
  keyresult <> temp key2 ->
  keyresult <> "rank"%string ->
  keyresult <> "comm"%string ->
  exists total1 total2 z,
    reduce_opt (nd_zip add) arrays1 = Some total1 /\
    reduce_opt (nd_zip add) arrays2 = Some total2 /\
    zips_to sub total1 total2 z /\
    (exists cl,
       remoteDifference plan true key1 key2 keyresult (ns :: rest)
       = (Val tt, cl) /\
       everywhere cl keyresult (OArr z)) /\
    remoteDifference plan false key1 key2 keyresult (ns :: rest)
    = (Val tt, map (fun ns0 => <[keyresult := OArr z]> ns0) (ns :: rest)).
Proof.
  intros Hassoc Hplan1 Hplan2 Hcl1 Hcl2 Hsh1 Hsh2 Hk Hk2 Hkr1 Hkr2 _ _.
  destruct (exec_reduce_cons plan key1 ns rest arrays1 sh Hassoc Hplan1 Hcl1
              Hsh1) as (total1 & Htotal1 & Hst1 & Hred1).
  assert (Hcl2' : Forall2 (fun ns0 a => ns0 !! key2 = Some (OArr a))
                    (<[temp key1 := OArr total1]> ns
                     :: map (fun ns0 => <[temp key1 := ONone]> ns0) rest)
                    arrays2).
  { inversion Hcl2 as [|? a2 ? arrays2' Hns Hrest]; subst.
    constructor.
    - by rewrite lookup_insert_ne.
    - by apply Forall2_lookup_insert_ne. }
  destruct (exec_reduce_cons plan key2 _ _ arrays2 sh Hassoc Hplan2 Hcl2'
              Hsh2) as (total2 & Htotal2 & Hst2 & Hred2).
  destruct (nd_zip_same_shape sub total1 sh total2 Hst1 Hst2)
    as (z & Hzips & _).
  exists total1, total2, z. split; [exact Htotal1|]. split; [exact Htotal2|].
  split; [exact Hzips|]. destruct Hzips as [Hz _].
  assert (Htemp : temp key1 <> temp key2).
  { intros Heq. by apply temp_inj in Heq. }
  split.
  - eexists. split.
    + unfold remoteDifference.
      rewrite (bind_Val _ _ _ _ _ Hred1), (bind_Val _ _ _ _ _ Hred2).
      rewrite (bind_Val _ _ _
                 (<[keyresult := OArr z]>
                    (<[temp key2 := OArr total2]>
                       (<[temp key1 := OArr total1]> ns))
                  :: map (fun ns0 => <[temp key2 := ONone]> ns0)
                       (map (fun ns0 => <[temp key1 := ONone]> ns0) rest))
                 tt).
      2: { unfold e0_execute, binop_stmt, bind, get, name, put, ret.
           rewrite lookup_insert_ne, lookup_insert_eq by done.
           rewrite lookup_insert_eq.
           unfold py_binop. simpl. by rewrite Hz. }
      rewrite (bind_Val _ _ _ _ _ (exec_bcast_cons keyresult _ _ (OArr z)
                                     (lookup_insert_eq _ _ _))).
      assert (Hl1 : <[keyresult := OArr z]>
                      (<[temp key2 := OArr total2]>
                         (<[temp key1 := OArr total1]> ns)) !! temp key1
                    = Some (OArr total1)).
      { rewrite !lookup_insert_ne by done. apply lookup_insert_eq. }
      rewrite (bind_Val _ _ _ _ _ (e0_del_cons (temp key1) _ _ _ Hl1)).
      apply e0_del_cons with (v := OArr total2).
      rewrite lookup_delete_ne, lookup_insert_ne by done.
      apply lookup_insert_eq.
    + unfold everywhere. constructor.
      * rewrite !lookup_delete_ne by done. apply lookup_insert_eq.
      * apply (everywhere_map_insert keyresult (OArr z)).
  - unfold remoteDifference.
    rewrite (bind_Val _ _ _ _ _ (dview_pull_arrays key1 _ arrays1 Hcl1)).
    rewrite (bind_Val _ _ _ _ _ (py_reduce_arrays arrays1 total1 _ Htotal1)).
    rewrite (bind_Val _ _ _ _ _ (dview_pull_arrays key2 _ arrays2 Hcl2)).
    rewrite (bind_Val _ _ _ _ _ (py_reduce_arrays arrays2 total2 _ Htotal2)).
    unfold bind, py_binop. simpl. by rewrite Hz.
Qed.

End PushPull.

(** X17 on the two engines holding integer arrays. *)
Lemma setitem_same_in_both_modes_witness :
  __setitem__ true "w" (OArr (Sc 7)) clusterZ
  = (Val tt, map (fun ns => <["w"%string := OArr (Sc 7)]> ns) clusterZ).
Proof.
  apply (setitem_same_in_both_modes true "w" (OArr (Sc 7)) clusterZ);
    discriminate.
Defined.

(** X18 on the same engines. *)
Lemma getitem_same_in_both_modes_witness :
  __getitem__ false "u" clusterZ
  = (Val (OList [OArr (Ar [Ar [Sc 1; Sc 2]; Ar [Sc 3; Sc 4]]);
                 OArr (Ar [Ar [Sc 10; Sc 20]; Ar [Sc 30; Sc 40]])]),
     clusterZ) /\
  __getitem__ true "u" clusterZ
  = (Val (OList [OArr (Ar [Ar [Sc 1; Sc 2]; Ar [Sc 3; Sc 4]]);
                 OArr (Ar [Ar [Sc 10; Sc 20]; Ar [Sc 30; Sc 40]])]),
     delete (temp "u")
       ({[ "u"%string := OArr (Ar [Ar [Sc 1; Sc 2]; Ar [Sc 3; Sc 4]]) ]}
          : gmap string (obj Z))
     :: map (fun ns0 => <[temp "u" := ONone]> ns0)
          [ ({[ "u"%string := OArr (Ar [Ar [Sc 10; Sc 20]; Ar [Sc 30; Sc 40]]) ]}
               : gmap string (obj Z)) ]).
Proof.
  apply (getitem_same_in_both_modes (E := Z) "u"). reflexivity.
Defined.

(** X20 on two engines holding integer two-by-two arrays: the root
    squares its own ["u"] and sums the rows. *)
Lemma remoteMulE0_root_only_witness :
  exists z res : nd Z,
    zips_to mul (Ar [Ar [Sc 1; Sc 2]; Ar [Sc 3; Sc 4]])
                (Ar [Ar [Sc 1; Sc 2]; Ar [Sc 3; Sc 4]]) z /\
    nd_sum_axis 1 z = Some res /\
    remoteMulE0 "u" "u" (Some 1%nat)
      (({[ "u"%string := OArr (Ar [Ar [Sc 1; Sc 2]; Ar [Sc 3; Sc 4]]) ]}
          : gmap string (obj Z))
       :: [ ({[ "u"%string := OArr (Ar [Ar [Sc 10; Sc 20]; Ar [Sc 30; Sc 40]]) ]}
               : gmap string (obj Z)) ])
    = (Val (OArr res),
       delete "temp_field"
         ({[ "u"%string := OArr (Ar [Ar [Sc 1; Sc 2]; Ar [Sc 3; Sc 4]]) ]}
            : gmap string (obj Z))
       :: [ ({[ "u"%string := OArr (Ar [Ar [Sc 10; Sc 20]; Ar [Sc 30; Sc 40]]) ]}
               : gmap string (obj Z)) ]).
Proof.
  apply (remoteMulE0_root_only (E := Z) "u" "u" (Some 1%nat) _ _
           (Ar [Ar [Sc 1; Sc 2]; Ar [Sc 3; Sc 4]])
           (Ar [Ar [Sc 1; Sc 2]; Ar [Sc 3; Sc 4]]) [2; 2]%nat).
  - reflexivity.
  - reflexivity.
  - repeat constructor.
  - repeat constructor.
  - repeat constructor.
  - simpl. lia.
Defined.

(** What the call above returns: [[1 + 4, 9 + 16]]. *)
Example remoteMulE0_rows :
  (remoteMulE0 "u" "u" (Some 1%nat) clusterZ).1
  = Val (OArr (Ar [Sc 5; Sc 25])).
Proof. vm_compute. reflexivity. Qed.

(** X22 on two engines holding integer vectors under ["a"] and ["b"]:
    the sum of ["a"] minus the root's ["b"]. *)
Lemma remoteOpGatherFirst_both_modes_witness :
  exists total z,
    reduce_opt (nd_zip add) arraysA = Some total /\
    zips_to (scalar_op OpSub) total (Ar [Sc 5; Sc 5]) z /\
    (exists cl,
       remoteOpGatherFirst left_comb true OpSub "a" "b" "r"
         (rootAB :: [otherAB])
       = (Val tt, cl) /\
       everywhere cl "r" (OArr z)) /\
    remoteOpGatherFirst left_comb false OpSub "a" "b" "r"
      (rootAB :: [otherAB])
    = (Val tt, map (fun ns0 => <["r"%string := OArr z]> ns0)
                   (rootAB :: [otherAB])) /\
    (OpSub = OpSub ->
     remoteDifferenceGatherFirst left_comb false "a" "b" "r"
       (rootAB :: [otherAB])
     = (Val tt, map (fun ns0 => <["r"%string := OArr z]> ns0)
                    (rootAB :: [otherAB]))).
Proof.
  apply (remoteOpGatherFirst_both_modes left_comb OpSub "a" "b" "r"
           rootAB [otherAB] arraysA [2%nat] (Ar [Sc 5; Sc 5])).
  - intros x y z. simpl. lia.
  - reflexivity.
  - repeat constructor.
  - repeat constructor.
  - reflexivity.
  - repeat constructor.
  - discriminate.
  - discriminate.
  - discriminate.
  - discriminate.
Defined.

(** X23 on the same engines: the sum of ["a"] minus the sum of
    ["b"]. *)
Lemma remoteDifference_both_modes_witness :
  exists total1 total2 z,
    reduce_opt (nd_zip add) arraysA = Some total1 /\
    reduce_opt (nd_zip add) arraysB = Some total2 /\
    zips_to sub total1 total2 z /\
    (exists cl,
       remoteDifference left_comb true "a" "b" "r" (rootAB :: [otherAB])
       = (Val tt, cl) /\
       everywhere cl "r" (OArr z)) /\
    remoteDifference left_comb false "a" "b" "r" (rootAB :: [otherAB])
    = (Val tt, map (fun ns0 => <["r"%string := OArr z]> ns0)
                   (rootAB :: [otherAB])).
Proof.
  apply (remoteDifference_both_modes left_comb "a" "b" "r"
           rootAB [otherAB] arraysA arraysB [2%nat]).
  - intros x y z. simpl. lia.
  - reflexivity.
  - reflexivity.
  - repeat constructor.
  - repeat constructor.
  - repeat constructor.
  - repeat constructor.
  - discriminate.
  - discriminate.
  - discriminate.
  - discriminate.
  - discriminate.
  - discriminate.
Defined.

(** What is stored there: [[11 - 6, 22 - 6]] everywhere, in both
    modes. *)
Example remoteDifference_clusterAB :
  (exists cl, remoteDifference left_comb true "a" "b" "r" (rootAB :: [otherAB])
              = (Val tt, cl) /\
              everywhere cl "r" (OArr (Ar [Sc 5; Sc 16]))) /\
  (exists cl, remoteDifference left_comb false "a" "b" "r" (rootAB :: [otherAB])
              = (Val tt, cl) /\
              everywhere cl "r" (OArr (Ar [Sc 5; Sc 16]))).
Proof.
  split; (eexists; split; [vm_compute; reflexivity|repeat constructor]).
Qed.

End RemoteInterfaceProps.
